(** * Rat-a-Tat Cat: a shallow embedding of src/GameLogic.js

    The engine is a synchronous state machine over one mutable
    [RatATatCatGame] object.  Here every method is a function from the game
    state to an outcome carrying the returned value and the state after the
    call.  JavaScript arrays are lists in the array's own order (index 0
    first, [push]/[pop] work at the end).  [null] and [undefined] are
    both [None]: the engine only tests such a value for truthiness or
    reads a property of it, which throws for both.  The two sources of
    partiality of the original (a property read on [null] or [undefined],
    and a loop that does not stop) are explicit outcomes. *)

From Stdlib Require Import ZArith String Lia.
From stdpp Require Import gmultiset list.

Local Open Scope Z_scope.
Local Open Scope nat_scope.

(** ** Cards *)

Inductive CardType := number | peek | swap | draw2 | addcard.

#[global] Instance CardType_eq_dec : EqDecision CardType.
Proof. solve_decision. Defined.

(** [value] is [null] for power cards. *)
Record Card := mkCard { type : CardType; value : option nat }.

#[global] Instance Card_eq_dec : EqDecision Card.
Proof. solve_decision. Defined.

#[global] Instance CardType_countable : Countable CardType.
Proof.
  refine (inj_countable'
            (fun t => match t with
                      | number => 0 | peek => 1 | swap => 2 | draw2 => 3 | addcard => 4
                      end)
            (fun n => match n with
                      | 0 => number | 1 => peek | 2 => swap | 3 => draw2 | _ => addcard
                      end) _).
  by intros [].
Defined.

#[global] Instance Card_countable : Countable Card.
Proof.
  refine (inj_countable' (fun c => (type c, value c)) (fun p => mkCard p.1 p.2) _).
  by intros [].
Defined.

(** [this.type === 'number' ? this.value : 0]; a [null] value counts as 0
    in the sums that consume it. *)
Definition getPoints (c : Card) : nat :=
  match type c with
  | number => default 0 (value c)
  | _ => 0
  end.

Definition isPowerCard (c : Card) : bool :=
  match type c with
  | number => false
  | _ => true
  end.

Definition isNumber (c : Card) : bool := negb (isPowerCard c).

(** An array entry: a card object, or [null] or [undefined]. *)
Abbreviation Slot := (option Card).

(** ** Card indices

    A card index is whatever the caller passed: [server.js] hands the
    client's value on as it came.  The engine does two things with it:
    it compares it with numbers ([cardIndex < 0 || cardIndex >=
    hand.length]), and it uses it as a property key ([hand[cardIndex]]).
    [Integer i] is the integer [i], or a value that compares like it and
    names the same array element, as the string ['2'] does for 2.  [Null]
    and [Undefined] are the two values that [handleDraw2Card] takes for
    "no index".  [Other n key] is any other value: [n] is the integer
    part (the floor) of its numeric value, [None] when that value is
    [NaN], and [key] is the name of the property it reads and writes,
    which is no array index and no property every array has ([length],
    [push], ...).  So 1.5 is [Other (Some 1) "1.5"], [true] is
    [Other (Some 1) "true"] and ['abc'] is [Other None "abc"]. *)
Inductive CardIndex :=
| Integer (i : Z)
| Null
| Undefined
| Other (n : option Z) (key : string).

Coercion Integer : Z >-> CardIndex.
Bind Scope Z_scope with CardIndex.

(** The integer part of the number a comparison converts the index to;
    [null] converts to 0, [undefined] to [NaN]. *)
Definition indexNumber (ci : CardIndex) : option Z :=
  match ci with
  | Integer i => Some i
  | Null => Some 0%Z
  | Undefined => None
  | Other n _ => n
  end.

(** What [a[cardIndex]] refers to: an element of the array, or a
    property of the array object that is no element.  (A negative
    integer names a property too; the callers refuse it before.) *)
Inductive Key := Element (n : nat) | Property (key : string).

Definition indexKey (ci : CardIndex) : Key :=
  match ci with
  | Integer i => Element (Z.to_nat i)
  | Null => Property "null"
  | Undefined => Property "undefined"
  | Other _ key => Property key
  end.

(** The properties of an array object that are no elements, by name; a
    name that was never written reads as [undefined]. *)
Fixpoint getProp (key : string) (props : list (string * Slot)) : Slot :=
  match props with
  | [] => None
  | (k, c) :: rest => if String.eqb k key then c else getProp key rest
  end.

Fixpoint setProp (key : string) (c : Slot) (props : list (string * Slot))
  : list (string * Slot) :=
  match props with
  | [] => [(key, c)]
  | (k, c') :: rest =>
      if String.eqb k key then (key, c) :: rest else (k, c') :: setProp key c rest
  end.

(** ** Players *)

(** [hand] holds the elements of the array [hand], [handProps] the other
    properties written on that array object.  Such properties of the
    array [knownCards] are written but read nowhere, and are left out. *)
Record Player := mkPlayer {
  id : string;
  name : string;
  hand : list Slot;
  handProps : list (string * Slot);
  knownCards : list bool;
  score : nat;
  totalScore : nat
}.

Definition set_hand (h : list Slot) (p : Player) : Player :=
  mkPlayer (id p) (name p) h (handProps p) (knownCards p) (score p) (totalScore p).

Definition set_handProps (x : list (string * Slot)) (p : Player) : Player :=
  mkPlayer (id p) (name p) (hand p) x (knownCards p) (score p) (totalScore p).

Definition set_knownCards (k : list bool) (p : Player) : Player :=
  mkPlayer (id p) (name p) (hand p) (handProps p) k (score p) (totalScore p).

Definition set_score (s : nat) (p : Player) : Player :=
  mkPlayer (id p) (name p) (hand p) (handProps p) (knownCards p) s (totalScore p).

Definition set_totalScore (s : nat) (p : Player) : Player :=
  mkPlayer (id p) (name p) (hand p) (handProps p) (knownCards p) (score p) s.

(** [a[i] = x] on a JavaScript array: in range it overwrites, past the end
    the array grows and the skipped indices are holes.  Holes of the
    boolean array [knownCards] read as [undefined], which every reader
    tests for truthiness, so they are filled with [false]. *)
Definition js_assign {A} (hole : A) (i : nat) (x : A) (l : list A) : list A :=
  if decide (i < length l) then <[i:=x]> l
  else l ++ replicate (i - length l) hole ++ [x].

(** Truthiness of [knownCards[i]]. *)
Definition known (p : Player) (i : nat) : bool :=
  default false (knownCards p !! i).

Definition addCard (c : Slot) (p : Player) : Player :=
  set_knownCards (knownCards p ++ [false]) (set_hand (hand p ++ [c]) p).

(** [this.hand[index]]; an element past the end reads as [undefined]. *)
Definition handAt (index : CardIndex) (p : Player) : Slot :=
  match indexKey index with
  | Element n => mjoin (hand p !! n)
  | Property key => getProp key (handProps p)
  end.

(** [this.hand[index] = c]: the callers check [index] against the hand
    length first, so a write to an element is always in range. *)
Definition setHandAt (index : CardIndex) (c : Slot) (p : Player) : Player :=
  match indexKey index with
  | Element n => set_hand (<[n:=c]> (hand p)) p
  | Property key => set_handProps (setProp key c (handProps p)) p
  end.

(** [this.knownCards[index] = b] *)
Definition setKnownAt (index : CardIndex) (b : bool) (p : Player) : Player :=
  match indexKey index with
  | Element n => set_knownCards (js_assign false n b (knownCards p)) p
  | Property _ => p
  end.

(** [replaceCard(index, newCard)]; what it returns is [handAt index]
    of the player before. *)
Definition replaceCard (index : CardIndex) (c : Slot) (p : Player) : Player :=
  setHandAt index c p.

(** ** The game object *)

(** [currentPlayerIndex] is a natural number, or [NaN] once a turn was
    advanced modulo an empty player list. *)
Inductive Index := Num (n : nat) | NaN.

Record Game := mkGame {
  gameId : string;
  players : list Player;
  deck : list Slot;
  discardPile : list Slot;
  currentPlayerIndex : Index;
  drawnCard : option Card;
  drawnFromDiscard : bool;
  gameStarted : bool;
  roundEnded : bool;
  knockerId : option string;
  finalRoundActive : bool;
  playersCompletedFinalTurn : nat;
  draw2ChainActive : bool;
  draw2CardsRemaining : Z;
  (** number of calls made to [Math.random] so far *)
  tick : nat
}.

Definition set_players (x : list Player) (g : Game) : Game :=
  mkGame (gameId g) x (deck g) (discardPile g) (currentPlayerIndex g)
    (drawnCard g) (drawnFromDiscard g) (gameStarted g) (roundEnded g)
    (knockerId g) (finalRoundActive g) (playersCompletedFinalTurn g)
    (draw2ChainActive g) (draw2CardsRemaining g) (tick g).

Definition set_deck (x : list Slot) (g : Game) : Game :=
  mkGame (gameId g) (players g) x (discardPile g) (currentPlayerIndex g)
    (drawnCard g) (drawnFromDiscard g) (gameStarted g) (roundEnded g)
    (knockerId g) (finalRoundActive g) (playersCompletedFinalTurn g)
    (draw2ChainActive g) (draw2CardsRemaining g) (tick g).

Definition set_discardPile (x : list Slot) (g : Game) : Game :=
  mkGame (gameId g) (players g) (deck g) x (currentPlayerIndex g)
    (drawnCard g) (drawnFromDiscard g) (gameStarted g) (roundEnded g)
    (knockerId g) (finalRoundActive g) (playersCompletedFinalTurn g)
    (draw2ChainActive g) (draw2CardsRemaining g) (tick g).

Definition set_currentPlayerIndex (x : Index) (g : Game) : Game :=
  mkGame (gameId g) (players g) (deck g) (discardPile g) x
    (drawnCard g) (drawnFromDiscard g) (gameStarted g) (roundEnded g)
    (knockerId g) (finalRoundActive g) (playersCompletedFinalTurn g)
    (draw2ChainActive g) (draw2CardsRemaining g) (tick g).

Definition set_drawnCard (x : option Card) (g : Game) : Game :=
  mkGame (gameId g) (players g) (deck g) (discardPile g) (currentPlayerIndex g)
    x (drawnFromDiscard g) (gameStarted g) (roundEnded g)
    (knockerId g) (finalRoundActive g) (playersCompletedFinalTurn g)
    (draw2ChainActive g) (draw2CardsRemaining g) (tick g).

Definition set_drawnFromDiscard (x : bool) (g : Game) : Game :=
  mkGame (gameId g) (players g) (deck g) (discardPile g) (currentPlayerIndex g)
    (drawnCard g) x (gameStarted g) (roundEnded g)
    (knockerId g) (finalRoundActive g) (playersCompletedFinalTurn g)
    (draw2ChainActive g) (draw2CardsRemaining g) (tick g).

Definition set_gameStarted (x : bool) (g : Game) : Game :=
  mkGame (gameId g) (players g) (deck g) (discardPile g) (currentPlayerIndex g)
    (drawnCard g) (drawnFromDiscard g) x (roundEnded g)
    (knockerId g) (finalRoundActive g) (playersCompletedFinalTurn g)
    (draw2ChainActive g) (draw2CardsRemaining g) (tick g).

Definition set_roundEnded (x : bool) (g : Game) : Game :=
  mkGame (gameId g) (players g) (deck g) (discardPile g) (currentPlayerIndex g)
    (drawnCard g) (drawnFromDiscard g) (gameStarted g) x
    (knockerId g) (finalRoundActive g) (playersCompletedFinalTurn g)
    (draw2ChainActive g) (draw2CardsRemaining g) (tick g).

Definition set_knockerId (x : option string) (g : Game) : Game :=
  mkGame (gameId g) (players g) (deck g) (discardPile g) (currentPlayerIndex g)
    (drawnCard g) (drawnFromDiscard g) (gameStarted g) (roundEnded g)
    x (finalRoundActive g) (playersCompletedFinalTurn g)
    (draw2ChainActive g) (draw2CardsRemaining g) (tick g).

Definition set_finalRoundActive (x : bool) (g : Game) : Game :=
  mkGame (gameId g) (players g) (deck g) (discardPile g) (currentPlayerIndex g)
    (drawnCard g) (drawnFromDiscard g) (gameStarted g) (roundEnded g)
    (knockerId g) x (playersCompletedFinalTurn g)
    (draw2ChainActive g) (draw2CardsRemaining g) (tick g).

Definition set_playersCompletedFinalTurn (x : nat) (g : Game) : Game :=
  mkGame (gameId g) (players g) (deck g) (discardPile g) (currentPlayerIndex g)
    (drawnCard g) (drawnFromDiscard g) (gameStarted g) (roundEnded g)
    (knockerId g) (finalRoundActive g) x
    (draw2ChainActive g) (draw2CardsRemaining g) (tick g).

Definition set_draw2ChainActive (x : bool) (g : Game) : Game :=
  mkGame (gameId g) (players g) (deck g) (discardPile g) (currentPlayerIndex g)
    (drawnCard g) (drawnFromDiscard g) (gameStarted g) (roundEnded g)
    (knockerId g) (finalRoundActive g) (playersCompletedFinalTurn g)
    x (draw2CardsRemaining g) (tick g).

Definition set_draw2CardsRemaining (x : Z) (g : Game) : Game :=
  mkGame (gameId g) (players g) (deck g) (discardPile g) (currentPlayerIndex g)
    (drawnCard g) (drawnFromDiscard g) (gameStarted g) (roundEnded g)
    (knockerId g) (finalRoundActive g) (playersCompletedFinalTurn g)
    (draw2ChainActive g) x (tick g).

Definition set_tick (x : nat) (g : Game) : Game :=
  mkGame (gameId g) (players g) (deck g) (discardPile g) (currentPlayerIndex g)
    (drawnCard g) (drawnFromDiscard g) (gameStarted g) (roundEnded g)
    (knockerId g) (finalRoundActive g) (playersCompletedFinalTurn g)
    (draw2ChainActive g) (draw2CardsRemaining g) x.

(** [new RatATatCatGame(gameId)] *)
Definition newGame (gid : string) : Game :=
  mkGame gid [] [] [] (Num 0) None false false false None false 0 false 0%Z 0.

(** [discardPile.push(x)] *)
Definition pushDiscard (x : Slot) (g : Game) : Game :=
  set_discardPile (discardPile g ++ [x]) g.

(** [Array.prototype.pop]: the last entry and the array without it. *)
Definition pop {A} (l : list A) : option (list A * A) :=
  match last l with
  | Some x => Some (removelast l, x)
  | None => None
  end.

(** [[a[i], a[j]] = [a[j], a[i]]] *)
Definition exchange {A} (i j : nat) (l : list A) : list A :=
  match l !! i, l !! j with
  | Some a, Some b => <[j:=a]> (<[i:=b]> l)
  | _, _ => l
  end.

(** The fixed composition of the deck, in the order [initializeDeck]
    pushes it, before shuffling. *)
Definition numberCard (v : nat) : Card := mkCard number (Some v).
Definition powerCard (t : CardType) : Card := mkCard t None.

Definition freshDeck : list Card :=
  flat_map (fun v => replicate 4 (numberCard v)) (seq 0 9)
  ++ replicate 9 (numberCard 9)
  ++ flat_map (fun _ => [powerCard peek; powerCard swap; powerCard draw2]) (seq 0 3)
  ++ replicate 2 (powerCard addcard).

(** ** Outcomes of a call

    [TypeError]: the call read a property of [null] or [undefined]; nothing
    in the repository catches it, so no state is observed afterwards.
    [NoReturn]: a loop of the call did not stop within the iterations it
    was given. *)
Inductive outcome (A : Type) : Type :=
| Returns (a : A)
| TypeError
| NoReturn.
Arguments Returns {A} a.
Arguments TypeError {A}.
Arguments NoReturn {A}.

#[global] Instance outcome_bind : MBind outcome := fun A B k m =>
  match m with
  | Returns a => k a
  | TypeError => TypeError
  | NoReturn => NoReturn
  end.

(** The fields a successful call reports besides [success: true]. *)
Inductive Payload :=
| Plain
| Drew (card : Card) (mustUse : bool)
| Revealed (revealedCard : Slot)
| SwappedWith (swappedWith : string)
| Chain (card : Slot) (chaining : option bool) (cardsRemaining : Z)
| Draw2Complete
| Added (addedCard : Slot).

Inductive Result :=
| Success (payload : Payload)
| Failure (error : string).

Definition success (r : Result) : bool :=
  match r with Success _ => true | Failure _ => false end.

(** [g] with other piles and another position in the random stream. *)
Definition withPiles (d p : list Slot) (t : nat) (g : Game) : Game :=
  set_tick t (set_discardPile p (set_deck d g)).

Arguments freshDeck : simpl never.

Section Engine.

(** The values of [Math.random]: [random k mod (i + 1)] is the result of
    [Math.floor(Math.random() * (i + 1))] at the [k]-th call, an integer
    of [[0, i]]. Every statement below holds for every such stream. *)
Variable random : nat -> nat.

(** ** Deck management *)

(** The loop of [shuffleDeck], entered with [i = length - 1] and run while
    [i > 0]; [k] counts the calls to [Math.random]. *)
Fixpoint fisherYates {A} (i k : nat) (d : list A) : list A :=
  match i with
  | 0 => d
  | S i' => fisherYates i' (S k) (exchange i (random k mod (S i)) d)
  end.

Definition shuffleDeck (g : Game) : Game :=
  let n := length (deck g) - 1 in
  set_tick (tick g + n) (set_deck (fisherYates n (tick g) (deck g)) g).

Definition initializeDeck (g : Game) : Game :=
  shuffleDeck (set_deck (map Some freshDeck) g).

(** The first half of [drawCard()]: an empty deck is refilled with all of
    the discard pile but its top, and shuffled. *)
Definition refillDeck (g : Game) : Game :=
  match deck g, pop (discardPile g) with
  | [], Some (rest, topCard) =>
      if decide (1 < length (discardPile g))
      then shuffleDeck (set_discardPile [topCard] (set_deck rest g))
      else g
  | _, _ => g
  end.

(** [drawCard()]: the result is the popped entry, [null] when the deck
    stays empty. *)
Definition drawCard (g : Game) : Slot * Game :=
  let g1 := refillDeck g in
  match pop (deck g1) with
  | Some (rest, c) => (c, set_deck rest g1)
  | None => (None, g1)
  end.

(** ** Game flow *)

Definition addPlayer (playerId playerName : string) (g : Game) : bool * Game :=
  if decide (6 <= length (players g)) then (false, g)
  else if gameStarted g then (false, g)
  else (true, set_players (players g ++ [mkPlayer playerId playerName [] [] [] 0 0]) g).

(** [this.currentPlayerIndex >= this.players.length]; false on [NaN]. *)
Definition index_ge (i : Index) (n : nat) : bool :=
  match i with
  | Num k => n <=? k
  | NaN => false
  end.

Definition removePlayer (playerId : string) (g : Game) : bool * Game :=
  let ps := List.filter (fun p => negb (String.eqb (id p) playerId)) (players g) in
  let g1 := set_players ps g in
  let g2 := if index_ge (currentPlayerIndex g1) (length ps)
            then set_currentPlayerIndex (Num 0) g1 else g1 in
  (bool_decide (length ps = 0), g2).

(** [this.players[this.currentPlayerIndex]], [undefined] as [None]. *)
Definition getCurrentPlayer (g : Game) : option Player :=
  match currentPlayerIndex g with
  | Num n => players g !! n
  | NaN => None
  end.

(** [p.id === this.knockerId] *)
Definition isKnocker (g : Game) (p : Player) : bool :=
  match knockerId g with
  | Some k => String.eqb (id p) k
  | None => false
  end.

(** [(this.currentPlayerIndex + 1) % this.players.length] *)
Definition nextIndex (g : Game) : Index :=
  match currentPlayerIndex g, length (players g) with
  | Num n, S m => Num ((n + 1) mod S m)
  | _, _ => NaN
  end.

(** The loop [do { advance } while (final && players[index].id === knockerId)].
    It runs [fuel + 1] iterations at most; both callers give it one
    iteration more than there are players, after which the index has
    been everywhere. *)
Fixpoint advanceTurn (fuel : nat) (final : bool) (g : Game) : outcome Game :=
  let g1 := set_currentPlayerIndex (nextIndex g) g in
  if final then
    match getCurrentPlayer g1 with
    | None => TypeError
    | Some p =>
        if isKnocker g1 p then
          match fuel with
          | 0 => NoReturn
          | S f => advanceTurn f final g1
          end
        else Returns g1
    end
  else Returns g1.

(** ** Round end *)

(** [calculateScore()]: [reduce] reads [getPoints] of every entry. *)
Fixpoint sumPoints (h : list Slot) : outcome nat :=
  match h with
  | [] => Returns 0
  | None :: _ => TypeError
  | Some c :: h' => s ← sumPoints h'; Returns (getPoints c + s)
  end.

Definition calculateScore (p : Player) : outcome Player :=
  s ← sumPoints (hand p); Returns (set_score s p).

(** What remains of [while (hand[i].isPowerCard()) { ... }] once the slot
    is known to hold a power card: draw until a Number card comes (the
    replacement), or until [drawCard] gives [null] (the [break]).  Power
    cards drawn on the way are dropped. *)
Fixpoint drawReplacement (fuel : nat) (g : Game) : outcome (option Card * Game) :=
  match drawCard g with
  | (Some r, g1) =>
      match type r with
      | number => Returns (Some r, g1)
      | _ =>
          match fuel with
          | 0 => NoReturn
          | S f => drawReplacement f g1
          end
      end
  | (None, g1) => Returns (None, g1)
  end.

(** One iteration of [for (let i = 0; i < player.hand.length; i++)].
    Every draw but the last of [drawReplacement] takes an entry out of
    deck and discard pile together, which bounds the iterations. *)
Definition replaceSlot (i : nat) (p : Player) (g : Game) : outcome (Player * Game) :=
  match hand p !! i with
  | Some (Some c) =>
      if isPowerCard c then
        '(r, g1) ← drawReplacement (length (deck g) + length (discardPile g)) g;
        match r with
        | Some n =>
            Returns (set_knownCards (js_assign false i true (knownCards p))
                       (set_hand (<[i:=Some n]> (hand p)) p), g1)
        | None => Returns (p, g1)
        end
      else Returns (p, g)
  | _ => TypeError
  end.

Fixpoint replaceSlots (n i : nat) (p : Player) (g : Game) : outcome (Player * Game) :=
  match n with
  | 0 => Returns (p, g)
  | S n' => '(p1, g1) ← replaceSlot i p g; replaceSlots n' (S i) p1 g1
  end.

(** The body of [this.players.forEach(player => ...)] in [endRound]. *)
Definition endRoundPlayer (p : Player) (g : Game) : outcome (Player * Game) :=
  '(p1, g1) ← replaceSlots (length (hand p)) 0 p g;
  p2 ← calculateScore p1;
  Returns (set_totalScore (totalScore p2 + score p2) p2, g1).

(** [forEach] over the players in order; the draws touch deck, discard
    pile and random stream only, so the players are put back at the end. *)
Fixpoint endRoundPlayers (ps : list Player) (g : Game) : outcome (list Player * Game) :=
  match ps with
  | [] => Returns ([], g)
  | p :: ps' =>
      '(p1, g1) ← endRoundPlayer p g;
      '(rest, g2) ← endRoundPlayers ps' g1;
      Returns (p1 :: rest, g2)
  end.

Definition endRound (g : Game) : outcome Game :=
  '(ps, g1) ← endRoundPlayers (players g) g;
  Returns (set_roundEnded true (set_players ps g1)).

(** ** Ending a turn *)

Definition endTurn (g : Game) : outcome Game :=
  let g1 := set_drawnFromDiscard false (set_drawnCard None g) in
  let n := length (players g1) in
  if finalRoundActive g1 then
    let g2 := set_playersCompletedFinalTurn (S (playersCompletedFinalTurn g1)) g1 in
    if (Z.of_nat n - 1 <=? Z.of_nat (playersCompletedFinalTurn g2))%Z
    then endRound g2
    else advanceTurn n true g2
  else advanceTurn n false g1.

(** ** Round setup *)

(** [for (let i = 0; i < 4; i++) { hand.push(drawCard()); knownCards.push(false) }] *)
Fixpoint dealCards (n : nat) (p : Player) (g : Game) : Player * Game :=
  match n with
  | 0 => (p, g)
  | S n' => let '(c, g1) := drawCard g in dealCards n' (addCard c p) g1
  end.

Fixpoint dealPlayers (ps : list Player) (g : Game) : list Player * Game :=
  match ps with
  | [] => ([], g)
  | p :: ps' =>
      let '(p1, g1) := dealCards 4 (set_knownCards [] (set_handProps [] (set_hand [] p))) g in
      let '(rest, g2) := dealPlayers ps' g1 in
      (p1 :: rest, g2)
  end.

(** [while (firstDiscard.isPowerCard()) { unshift; shuffle; draw }]: how
    often it runs depends on the random stream alone, so the bound on the
    iterations is the caller's. *)
Fixpoint firstDiscard (fuel : nat) (c : Slot) (g : Game) : outcome (Card * Game) :=
  match c with
  | None => TypeError
  | Some card =>
      if isPowerCard card then
        match fuel with
        | 0 => NoReturn
        | S f =>
            let '(c', g1) := drawCard (shuffleDeck (set_deck (Some card :: deck g) g)) in
            firstDiscard f c' g1
        end
      else Returns (card, g)
  end.

Definition startRound (fuel : nat) (g : Game) : outcome (bool * Game) :=
  if decide (length (players g) < 2) then Returns (false, g)
  else
    let g1 := initializeDeck g in
    let g2 := set_playersCompletedFinalTurn 0 (set_finalRoundActive false
                (set_knockerId None (set_roundEnded false (set_discardPile [] g1)))) in
    let '(ps, g3) := dealPlayers (players g2) g2 in
    let g4 := set_players ps g3 in
    let '(c, g5) := drawCard g4 in
    '(card, g6) ← firstDiscard fuel c g5;
    Returns (true, set_gameStarted true (set_currentPlayerIndex (Num 0)
                     (pushDiscard (Some card) g6))).

(** ** Turn actions *)

Definition fail (msg : string) (g : Game) : outcome (Result * Game) :=
  Returns (Failure msg, g).

(** [cardIndex < 0 || cardIndex >= hand.length] is false.  Both
    comparisons are false when the index converts to [NaN]; for a number
    that is no integer they hold of it exactly when they hold of its
    integer part, the hand length being an integer. *)
Definition validIndex (cardIndex : CardIndex) (h : list Slot) : bool :=
  match indexNumber cardIndex with
  | Some i => (0 <=? i)%Z && (i <? Z.of_nat (length h))%Z
  | None => true
  end.

Definition drawFromDiscardPile (g : Game) : outcome (Result * Game) :=
  if bool_decide (drawnCard g <> None) then fail "Already drawn a card this turn" g
  else
    match pop (discardPile g) with
    | None => fail "Discard pile empty" g
    | Some (rest, None) => TypeError
    | Some (rest, Some card) =>
        if isPowerCard card then
          fail "Cannot draw power cards from discard pile"
               (pushDiscard (Some card) (set_discardPile rest g))
        else
          Returns (Success (Drew card true),
                   set_drawnFromDiscard true (set_drawnCard (Some card)
                     (set_discardPile rest g)))
    end.

Definition drawFromDeck (g : Game) : outcome (Result * Game) :=
  if bool_decide (drawnCard g <> None) then fail "Already drawn a card this turn" g
  else
    match drawCard g with
    | (None, g1) => fail "Deck is empty" g1
    | (Some card, g1) =>
        Returns (Success (Drew card false),
                 set_drawnFromDiscard false (set_drawnCard (Some card) g1))
    end.

(** Writes [p] back at the current index. *)
Definition setCurrentPlayer (p : Player) (g : Game) : Game :=
  match currentPlayerIndex g with
  | Num n => set_players (<[n:=p]> (players g)) g
  | NaN => g
  end.

Definition replaceCardInHand (cardIndex : CardIndex) (g : Game)
  : outcome (Result * Game) :=
  match drawnCard g with
  | None => fail "No card drawn" g
  | Some drawn =>
      match getCurrentPlayer g with
      | None => TypeError
      | Some player =>
          if validIndex cardIndex (hand player) then
            let replacedCard := handAt cardIndex player in
            let g1 := setCurrentPlayer (replaceCard cardIndex (Some drawn) player) g in
            let g2 := pushDiscard replacedCard g1 in
            let g3 := set_drawnFromDiscard false (set_drawnCard None g2) in
            g4 ← endTurn g3; Returns (Success Plain, g4)
          else fail "Invalid card index" g
      end
  end.

Definition discardDrawnCard (g : Game) : outcome (Result * Game) :=
  match drawnCard g with
  | None => fail "No card drawn" g
  | Some drawn =>
      if drawnFromDiscard g then fail "Cannot discard card from discard pile" g
      else
        g1 ← endTurn (set_drawnCard None (pushDiscard (Some drawn) g));
        Returns (Success Plain, g1)
  end.

(** [!this.drawnCard || this.drawnCard.type !== t] is false *)
Definition drawnIs (t : CardType) (g : Game) : bool :=
  match drawnCard g with
  | Some c => bool_decide (type c = t)
  | None => false
  end.

(** ** Power cards *)

(** The three statements every power card ends with before [endTurn]. *)
Definition discardDrawn (g : Game) : Game :=
  set_drawnFromDiscard false (set_drawnCard None
    (pushDiscard (drawnCard g) g)).

Definition usePeek (cardIndex : CardIndex) (g : Game) : outcome (Result * Game) :=
  if drawnIs peek g then
    match getCurrentPlayer g with
    | None => TypeError
    | Some player =>
        if validIndex cardIndex (hand player) then
          let peekedCard := handAt cardIndex player in
          g1 ← endTurn (discardDrawn g);
          Returns (Success (Revealed peekedCard), g1)
        else fail "Invalid card index" g
    end
  else fail "No peek card drawn" g.

(** [this.players.find(p => p.id === playerId)], with the position found. *)
Fixpoint findPlayer (playerId : string) (ps : list Player) : option (nat * Player) :=
  match ps with
  | [] => None
  | p :: ps' =>
      if String.eqb (id p) playerId then Some (0, p)
      else prod_map S Datatypes.id <$> findPlayer playerId ps'
  end.

Definition useSwap (myCardIndex : CardIndex) (opponentId : string)
    (opponentCardIndex : CardIndex) (g : Game) : outcome (Result * Game) :=
  if drawnIs swap g then
    match findPlayer opponentId (players g) with
    | None => fail "Invalid opponent" g
    | Some (oi, opponent) =>
        match getCurrentPlayer g with
        | None => TypeError
        | Some player =>
            if String.eqb (id opponent) (id player) then fail "Cannot swap with yourself" g
            else if negb (validIndex myCardIndex (hand player)) then
              fail "Invalid your card index" g
            else if negb (validIndex opponentCardIndex (hand opponent)) then
              fail "Invalid opponent card index" g
            else
              let myCard := handAt myCardIndex player in
              let theirCard := handAt opponentCardIndex opponent in
              let player' :=
                setKnownAt myCardIndex false (setHandAt myCardIndex theirCard player) in
              let opponent' :=
                setKnownAt opponentCardIndex false
                  (setHandAt opponentCardIndex myCard opponent) in
              let g1 := setCurrentPlayer player' g in
              let g2 := set_players (<[oi:=opponent']> (players g1)) g1 in
              g3 ← endTurn (discardDrawn g2);
              Returns (Success (SwappedWith (name opponent)), g3)
        end
    end
  else fail "No swap card drawn" g.

Definition declineSwap (g : Game) : outcome (Result * Game) :=
  if drawnIs swap g then
    g1 ← endTurn (discardDrawn g); Returns (Success Plain, g1)
  else fail "No swap card drawn" g.

(** The chained branch shared by [useDraw2] and [handleDraw2Card]: the
    Draw-Two just drawn is discarded, the count is put back to 2 and one
    more card is drawn, which becomes the pending card as it comes. *)
Definition chainDraw2 (c : Card) (g : Game) : outcome (Result * Game) :=
  let g1 := set_draw2CardsRemaining 2 (set_drawnCard None (pushDiscard (Some c) g)) in
  let '(nextCard, g2) := drawCard g1 in
  Returns (Success (Chain nextCard (Some true) 2), set_drawnCard nextCard g2).

Definition useDraw2 (g : Game) : outcome (Result * Game) :=
  if drawnIs draw2 g then
    let g1 := set_draw2CardsRemaining 2 (set_draw2ChainActive true
                (set_drawnCard None (pushDiscard (drawnCard g) g))) in
    match drawCard g1 with
    | (None, g2) =>
        g3 ← endTurn (set_draw2ChainActive false g2);
        Returns (Failure "Deck empty", g3)
    | (Some firstCard, g2) =>
        let g3 := set_drawnCard (Some firstCard) g2 in
        if bool_decide (type firstCard = draw2) then chainDraw2 firstCard g3
        else Returns (Success (Chain (Some firstCard) (Some false) 2), g3)
    end
  else fail "No draw2 card drawn" g.

(** The ['discard'] branch of [handleDraw2Card]. *)
Definition discardDraw2Card (g : Game) : outcome (Result * Game) :=
  let g1 := set_draw2CardsRemaining (draw2CardsRemaining g - 1)
              (set_drawnCard None (pushDiscard (drawnCard g) g)) in
  if (0 <? draw2CardsRemaining g1)%Z then
    match drawCard g1 with
    | (None, g2) =>
        g3 ← endTurn (set_draw2ChainActive false g2);
        Returns (Failure "Deck empty", g3)
    | (Some nextCard, g2) =>
        let g3 := set_drawnCard (Some nextCard) g2 in
        if bool_decide (type nextCard = draw2) then chainDraw2 nextCard g3
        else Returns (Success (Chain (Some nextCard) None (draw2CardsRemaining g3)), g3)
    end
  else
    g2 ← endTurn (set_draw2ChainActive false g1);
    Returns (Success Draw2Complete, g2).

(** [cardIndex !== null], after the default [cardIndex = null] has
    replaced an [undefined] argument. *)
Definition notNull (cardIndex : CardIndex) : bool :=
  match cardIndex with
  | Null | Undefined => false
  | _ => true
  end.

(** [action] is the string sent by the client. *)
Definition handleDraw2Card (action : string) (cardIndex : CardIndex) (g : Game)
  : outcome (Result * Game) :=
  if negb (draw2ChainActive g) then fail "No Draw 2 active" g
  else if String.eqb action "use" && notNull cardIndex then
    '(result, g1) ← replaceCardInHand cardIndex g;
    if success result
    then Returns (result, set_draw2CardsRemaining 0 (set_draw2ChainActive false g1))
    else Returns (result, g1)
  else if String.eqb action "discard" then discardDraw2Card g
  else fail "Invalid action" g.

Definition useAddCard (g : Game) : outcome (Result * Game) :=
  if drawnIs addcard g then
    let '(newCard, g1) := drawCard g in
    g2 ← match newCard with
         | None => Returns g1
         | Some c =>
             match getCurrentPlayer g1 with
             | None => TypeError
             | Some currentPlayer => Returns (setCurrentPlayer (addCard (Some c) currentPlayer) g1)
             end
         end;
    g3 ← endTurn (discardDrawn g2);
    Returns (Success (Added newCard), g3)
  else fail "No addcard drawn" g.

(** ** Knocking *)

(** [if (this.knockerId)]: an id that is the empty string is falsy. *)
Definition truthyId (k : option string) : bool :=
  match k with
  | Some s => negb (String.eqb s "")
  | None => false
  end.

Definition knock (g : Game) : outcome (Result * Game) :=
  if truthyId (knockerId g) then fail "Someone already knocked" g
  else
    match getCurrentPlayer g with
    | None => TypeError
    | Some player =>
        let g1 := set_drawnFromDiscard false (set_drawnCard None
                    (set_playersCompletedFinalTurn 0 (set_finalRoundActive true
                      (set_knockerId (Some (id player)) g)))) in
        g2 ← advanceTurn (length (players g1)) true g1;
        Returns (Success Plain, g2)
    end.

End Engine.

Arguments drawCard : simpl never.
Arguments initializeDeck : simpl never.
Arguments endRound : simpl never.
Arguments endTurn : simpl never.

(** ** Marking cards known

    The two methods of [Player] below are defined but called nowhere in
    the repository. *)

(** [revealOuterCards()] *)
Definition revealOuterCards (p : Player) : Player :=
  if decide (2 <= length (hand p)) then
    set_knownCards
      (js_assign false (length (hand p) - 1) true
         (js_assign false 0 true (knownCards p))) p
  else p.

(** [peekAtCard(index)], for an integer index *)
Definition peekAtCard (index : Z) (p : Player) : Player :=
  if validIndex index (hand p)
  then set_knownCards (js_assign false (Z.to_nat index) true (knownCards p)) p
  else p.

(** ** The action API as one step function *)

Inductive Action :=
| DrawFromDiscardPile
| DrawFromDeck
| ReplaceCardInHand (cardIndex : CardIndex)
| DiscardDrawnCard
| UsePeek (cardIndex : CardIndex)
| UseSwap (myCardIndex : CardIndex) (opponentId : string) (opponentCardIndex : CardIndex)
| DeclineSwap
| UseDraw2
| HandleDraw2Card (action : string) (cardIndex : CardIndex)
| UseAddCard
| Knock.

(** An integer was passed for every card index of the call;
    [handleDraw2Card] may also be called without one. *)
Definition isInteger (cardIndex : CardIndex) : bool :=
  match cardIndex with
  | Integer _ => true
  | _ => false
  end.

Definition integerIndices (a : Action) : bool :=
  match a with
  | ReplaceCardInHand i | UsePeek i => isInteger i
  | UseSwap i _ j => isInteger i && isInteger j
  | HandleDraw2Card _ i => isInteger i || negb (notNull i)
  | _ => true
  end.

Definition act (random : nat -> nat) (a : Action) (g : Game) : outcome (Result * Game) :=
  match a with
  | DrawFromDiscardPile => drawFromDiscardPile g
  | DrawFromDeck => drawFromDeck random g
  | ReplaceCardInHand i => replaceCardInHand random i g
  | DiscardDrawnCard => discardDrawnCard random g
  | UsePeek i => usePeek random i g
  | UseSwap i o j => useSwap random i o j g
  | DeclineSwap => declineSwap random g
  | UseDraw2 => useDraw2 random g
  | HandleDraw2Card a i => handleDraw2Card random a i g
  | UseAddCard => useAddCard random g
  | Knock => knock g
  end.

(** ** State projection *)

Module View.

(** What a hand entry of the projection shows: the entry itself, or the
    placeholder [{ type: 'hidden' }]. *)
Inductive Shown := Visible (c : Slot) | Hidden.

Record HandEntry := mkHandEntry {
  card : Shown;
  isKnown : bool;
  isOuter : bool
}.

Record PlayerView := mkPlayerView {
  id : string;
  name : string;
  handSize : nat;
  hand : list HandEntry;
  score : option nat;
  totalScore : nat
}.

Record GameState := mkGameState {
  gameId : string;
  players : list PlayerView;
  currentPlayerId : option string;
  isMyTurn : bool;
  discardTop : option Slot;
  deckSize : nat;
  drawnCard : option Card;
  drawnFromDiscard : bool;
  draw2Active : bool;
  draw2Remaining : Z;
  gameStarted : bool;
  roundEnded : bool;
  knockerId : option string;
  finalRoundActive : bool
}.

End View.

(** [p.hand.map((card, idx) => ...)] of the requesting player *)
Definition ownEntry (g : Game) (p : Player) (idx : nat) (c : Slot) : View.HandEntry :=
  let isOuter := (idx =? 0) || (Z.of_nat idx =? Z.of_nat (length (hand p)) - 1)%Z in
  View.mkHandEntry
    (if roundEnded g || known p idx || isOuter then View.Visible c else View.Hidden)
    (roundEnded g || known p idx)
    isOuter.

(** [p.hand.map((card, idx) => ...)] of everybody else *)
Definition otherEntry (g : Game) (c : Slot) : View.HandEntry :=
  View.mkHandEntry (if roundEnded g then View.Visible c else View.Hidden)
    (roundEnded g) false.

Definition playerView (g : Game) (playerId : string) (p : Player) : View.PlayerView :=
  View.mkPlayerView (id p) (name p) (length (hand p))
    (if String.eqb (id p) playerId
     then imap (ownEntry g p) (hand p)
     else map (otherEntry g) (hand p))
    (if roundEnded g then Some (score p) else None)
    (totalScore p).

(** [this.getCurrentPlayer()?.id === playerId] *)
Definition isCurrent (g : Game) (playerId : string) : bool :=
  match getCurrentPlayer g with
  | Some p => String.eqb (id p) playerId
  | None => false
  end.

Definition getGameState (playerId : string) (g : Game) : View.GameState :=
  View.mkGameState (gameId g)
    (map (playerView g playerId) (players g))
    (id <$> getCurrentPlayer g)
    (isCurrent g playerId)
    (last (discardPile g))
    (length (deck g))
    (if isCurrent g playerId then drawnCard g else None)
    (drawnFromDiscard g)
    (draw2ChainActive g)
    (draw2CardsRemaining g)
    (gameStarted g)
    (roundEnded g)
    (knockerId g)
    (finalRoundActive g).

(** ** What a projection must not depend on *)

(** Two players that differ at most in the cards of their hands, and not
    even there when they are the requesting player. *)
Definition samePlayerFor (playerId : string) (p1 p2 : Player) : Prop :=
  id p1 = id p2 /\ name p1 = name p2 /\ knownCards p1 = knownCards p2 /\
  score p1 = score p2 /\ totalScore p1 = totalScore p2 /\
  length (hand p1) = length (hand p2) /\
  (id p1 = playerId -> hand p1 = hand p2).

(** Two games that differ at most in the cards of the other players'
    hands, and in the pending drawn card when the requesting player is
    not the current player. *)
Definition sameFor (playerId : string) (g1 g2 : Game) : Prop :=
  gameId g1 = gameId g2 /\ deck g1 = deck g2 /\ discardPile g1 = discardPile g2 /\
  currentPlayerIndex g1 = currentPlayerIndex g2 /\
  drawnFromDiscard g1 = drawnFromDiscard g2 /\ gameStarted g1 = gameStarted g2 /\
  roundEnded g1 = roundEnded g2 /\ knockerId g1 = knockerId g2 /\
  finalRoundActive g1 = finalRoundActive g2 /\
  playersCompletedFinalTurn g1 = playersCompletedFinalTurn g2 /\
  draw2ChainActive g1 = draw2ChainActive g2 /\
  draw2CardsRemaining g1 = draw2CardsRemaining g2 /\
  Forall2 (samePlayerFor playerId) (players g1) (players g2) /\
  (isCurrent g1 playerId = true -> drawnCard g1 = drawnCard g2).

(** ** Reading hands by position *)

(** [players[k].hand[s]], and the truthiness of [players[k].knownCards[s]]. *)
Definition slotAt (g : Game) (k s : nat) : option Slot :=
  p ← players g !! k; hand p !! s.

Definition knownAt (g : Game) (k s : nat) : bool :=
  match players g !! k with
  | Some p => known p s
  | None => false
  end.

(** The condition under which [endTurn] calls [endRound]. *)
Definition endsRound (g : Game) : bool :=
  finalRoundActive g &&
  (Z.of_nat (length (players g)) - 1 <=? Z.of_nat (S (playersCompletedFinalTurn g)))%Z.

(** ** Round end: what is claimed of a hand *)

(** The points of a hand; a [null] entry has none. *)
Definition handPoints (h : list Slot) : nat :=
  sum_list (map (from_option getPoints 0) h).

(** The piles hold cards only. *)
Definition nullFree (g : Game) : Prop :=
  Forall is_Some (deck g ++ discardPile g).

(** No draw can succeed: the deck is empty and the discard pile has
    nothing under its top to reshuffle. *)
Definition exhausted (g : Game) : Prop :=
  deck g = [] /\ length (discardPile g) <= 1.

(** The fate at round end of slot [s], which held card [c], of a player
    [p] that became [p']; [g] and [g'] are the game before and after. *)
Definition slotResult (g g' : Game) (p p' : Player) (s : nat) (c : Card) : Prop :=
  if isPowerCard c then
    (exists n, hand p' !! s = Some (Some n) /\ type n = number /\ known p' s = true) \/
    (hand p' !! s = Some (Some c) /\ known p' s = known p s /\
     (nullFree g -> exhausted g'))
  else hand p' !! s = Some (Some c) /\ known p' s = known p s.

Definition roundResult (g g' : Game) (p p' : Player) : Prop :=
  id p' = id p /\ name p' = name p /\
  length (hand p') = length (hand p) /\
  (forall s c, hand p !! s = Some (Some c) -> slotResult g g' p p' s c) /\
  score p' = handPoints (hand p') /\
  totalScore p' = totalScore p + score p'.

(** How the piles of [g1] may come from those of [g] by draws alone. *)
Definition drawnFrom (g g1 : Game) : Prop :=
  g1 = withPiles (deck g1) (discardPile g1) (tick g1) g /\
  (nullFree g -> nullFree g1) /\
  (exhausted g -> g1 = g).

(** ** Reachable states *)

(** The states of a game object the public operations can produce,
    starting from the constructor. *)
Inductive reachable (random : nat -> nat) : Game -> Prop :=
| reach_new gid : reachable random (newGame gid)
| reach_addPlayer g playerId playerName :
    reachable random g -> reachable random (addPlayer playerId playerName g).2
| reach_removePlayer g playerId :
    reachable random g -> reachable random (removePlayer playerId g).2
| reach_startRound g fuel b g' :
    reachable random g -> startRound random fuel g = Returns (b, g') ->
    reachable random g'
| reach_act g a r g' :
    reachable random g -> act random a g = Returns (r, g') ->
    reachable random g'.

(** The states reached when every card index passed is an integer. *)
Inductive reachableWithIntegers (random : nat -> nat) : Game -> Prop :=
| int_new gid : reachableWithIntegers random (newGame gid)
| int_addPlayer g playerId playerName :
    reachableWithIntegers random g ->
    reachableWithIntegers random (addPlayer playerId playerName g).2
| int_removePlayer g playerId :
    reachableWithIntegers random g ->
    reachableWithIntegers random (removePlayer playerId g).2
| int_startRound g fuel b g' :
    reachableWithIntegers random g -> startRound random fuel g = Returns (b, g') ->
    reachableWithIntegers random g'
| int_act g a r g' :
    reachableWithIntegers random g -> integerIndices a = true ->
    act random a g = Returns (r, g') ->
    reachableWithIntegers random g'.

(** Before the first round nothing can be drawn or pending. *)
Definition lobbyEmpty (g : Game) : Prop :=
  gameStarted g = false ->
  deck g = [] /\ discardPile g = [] /\ drawnCard g = None /\ draw2ChainActive g = false.

(** The index is inside the player list, or the list is empty; [NaN]
    only occurs in a started game that lost all its players. *)
Definition indexOK (g : Game) : Prop :=
  match currentPlayerIndex g with
  | Num n => n < length (players g) \/ (n = 0 /\ length (players g) = 0)
  | NaN => length (players g) = 0 /\ gameStarted g = true
  end.

(** ** Where the cards are *)

(** The cards among the entries of an array, as a multiset. *)
Definition cardsOf (l : list Slot) : list Card := omap (fun x => x) l.

Definition bag (l : list Slot) : gmultiset Card := list_to_set_disj (cardsOf l).
Arguments bag : simpl never.

Definition slotBag (x : Slot) : gmultiset Card :=
  match x with
  | Some c => {[+ c +]}
  | None => ∅
  end.

Fixpoint handsBag (ps : list Player) : gmultiset Card :=
  match ps with
  | [] => ∅
  | p :: ps' => bag (hand p) ⊎ handsBag ps'
  end.

(** Deck, discard pile, all hands and the pending drawn card. *)
Definition cardBag (g : Game) : gmultiset Card :=
  bag (deck g) ⊎ bag (discardPile g) ⊎ handsBag (players g) ⊎ slotBag (drawnCard g).

(** The multiset [initializeDeck] builds. *)
Definition deckBag : gmultiset Card := list_to_set_disj freshDeck.

(** [|deck| + |discard| + Σ|hand_i|], by array lengths. *)
Definition zoneSize (g : Game) : nat :=
  length (deck g) + length (discardPile g)
  + sum_list (map (fun p => length (hand p)) (players g)).

(** The states of one round: it starts with a successful [startRound]
    at a moment when no card is pending, and goes on by action calls
    with integer card indices for as long as the round has not ended;
    [knock] is called between turns, when no card is pending. *)
Inductive inRound (random : nat -> nat) : Game -> Prop :=
| round_start g0 fuel g :
    drawnCard g0 = None ->
    startRound random fuel g0 = Returns (true, g) ->
    inRound random g
| round_step g a r g' :
    inRound random g ->
    integerIndices a = true ->
    (a = Knock -> drawnCard g = None) ->
    act random a g = Returns (r, g') ->
    roundEnded g' = false ->
    inRound random g'.

(** The number of cards in deck, discard pile and hands, plus one when a
    card is pending; [null] entries are not cards. *)
Definition cardCount (g : Game) : nat :=
  length (cardsOf (deck g)) + length (cardsOf (discardPile g))
  + sum_list (map (fun p => length (cardsOf (hand p))) (players g))
  + length (cardsOf [drawnCard g]).

(** ** Running a sequence of calls *)

(** The state a call returned, [d] when it did not return. *)
Definition stateOf {A} (o : outcome (A * Game)) (d : Game) : Game :=
  match o with
  | Returns (_, g) => g
  | _ => d
  end.

(** The actions of [acts] one after the other, whatever they report. *)
Fixpoint run (random : nat -> nat) (acts : list Action) (g : Game) : outcome Game :=
  match acts with
  | [] => Returns g
  | a :: rest => '(_, g1) ← act random a g; run random rest g1
  end.

(** ** A scripted game

    One stream of random values, chosen so that the first shuffle deals
    known hands to three players and leaves the three Draw-Two cards on
    top of the deck, and so that the first reshuffle of the discard pile
    puts two Draw-Two cards on top of the deck again. *)

Definition scriptedChoices : list nat :=
  [0; 4; 8; 12; 45; 16; 20; 24; 28; 32; 1; 5; 9; 8; 16; 28; 13; 12; 17;
   2; 3; 6; 7; 10; 11; 14; 15; 18; 19; 21; 22; 23; 19; 21; 21; 11; 14;
   15; 3; 6; 7; 2; 3; 3; 3; 5; 6; 6; 6; 6; 1; 1; 2; 2; 0;
   1; 2; 4; 1; 1; 1; 2; 4; 1; 1; 1; 1; 1; 1; 1; 2; 4; 1; 2; 4; 1; 2; 4;
   1; 2; 4; 1; 2; 4; 1; 2; 1; 4; 0; 1; 0; 4; 0; 1; 4; 0; 1; 0].

Definition scripted (k : nat) : nat := nth k scriptedChoices 0.

(** Alice, Kim and Bob have joined. *)
Definition lobby3 : Game :=
  (addPlayer "b" "Bob" (addPlayer "k" "Kim"
     (addPlayer "a" "Alice" (newGame "G")).2).2).2.

(** The round has started: Alice holds 0 1 2 3, Kim Peek 4 5 6, Bob
    7 8 0 1, a 2 is discarded, and the deck has Draw-Two, Draw-Two,
    Draw-Two, 3, Swap, 4 on top. *)
Definition gameA : Game := stateOf (startRound scripted 0 lobby3) (newGame "").

(** Alice has drawn the first Draw-Two. *)
Definition gameA1 : Game := stateOf (act scripted DrawFromDeck gameA) gameA.

(** Alice has played it. *)
Definition gameA2 : Game := stateOf (act scripted UseDraw2 gameA1) gameA1.

Definition runFrom (acts : list Action) (g : Game) : Game :=
  match run scripted acts g with
  | Returns g' => g'
  | _ => g
  end.

(** Alice draws and discards, Kim knocks, Alice leaves. *)
Definition knockMoves : list Action := [DrawFromDeck; DiscardDrawnCard; Knock].

Definition gameKnocked : Game := runFrom knockMoves gameA.

Definition gameRemoved : Game := (removePlayer "a" gameKnocked).2.

(** Kim has knocked, Bob has had his final turn, and Alice, the last to
    play, has drawn the Swap. *)
Definition lastSwapMoves : list Action :=
  [DrawFromDeck; UseDraw2; DiscardDrawnCard; Knock;
   DrawFromDeck; DiscardDrawnCard; DrawFromDeck].

Definition gameLastSwap : Game := runFrom lastSwapMoves gameA.

(** Nobody has knocked, and Bob has drawn the Swap. *)
Definition swapMoves : list Action :=
  [DrawFromDeck; UseDraw2; DiscardDrawnCard;
   DrawFromDeck; DiscardDrawnCard; DrawFromDeck].

Definition gameSwap : Game := runFrom swapMoves gameA.

(** Alice plays the Draw-Two but then replaces a card directly, which
    leaves the chain open; Kim answers it twice, the first time with no
    card pending; then everybody draws and discards until the deck is
    empty, and Bob's next draw reshuffles the discard pile. *)
Definition staleChain : list Action :=
  [DrawFromDeck; UseDraw2; ReplaceCardInHand 0;
   HandleDraw2Card "discard" Null; HandleDraw2Card "discard" Null]
  ++ concat (replicate 39 [DrawFromDeck; DiscardDrawnCard])
  ++ [DrawFromDeck].

Definition gameReshuffled : Game := runFrom staleChain gameA.

(** Two more cards are drawn and discarded; the next entry of the deck
    is the [null] that came with the reshuffle. *)
Definition gameNullOnTop : Game :=
  runFrom [DiscardDrawnCard; DrawFromDeck; DiscardDrawnCard] gameReshuffled.

(** Bob discards his card and Alice draws the Draw-Two that lies on the
    [null] entry. *)
Definition gameDraw2OverNull : Game :=
  runFrom [DiscardDrawnCard; DrawFromDeck] gameReshuffled.

(** Alice draws a Draw-Two and "replaces slot 1.5" with it, Kim and Bob
    draw and discard, and Alice draws again, a 3. *)
Definition parkMoves : list Action :=
  [DrawFromDeck; ReplaceCardInHand (Other (Some 1%Z) "1.5");
   DrawFromDeck; DiscardDrawnCard; DrawFromDeck; DiscardDrawnCard; DrawFromDeck].

Definition gameParked : Game := runFrom parkMoves gameA.

(** [gameA1] with other cards in Alice's hand and another pending card. *)
Definition gameA1' : Game :=
  set_drawnCard (Some (numberCard 9))
    (set_players
       (mkPlayer "a" "Alice" [Some (numberCard 9); Some (powerCard swap);
                               Some (numberCard 9); Some (numberCard 9)]
          [] [false; false; false; false] 0 0 :: drop 1 (players gameA1))
       gameA1).

(** ** Counting copies *)

(** How many entries of an array are the card [c]. *)
Definition copies (c : Card) (l : list Slot) : nat :=
  length (filter (fun x => x = Some c) l).

(** The state in which [knock] enters its loop, [p] being the knocker. *)
Definition knocked (p : Player) (g : Game) : Game :=
  set_drawnFromDiscard false (set_drawnCard None
    (set_playersCompletedFinalTurn 0 (set_finalRoundActive true
      (set_knockerId (Some (id p)) g)))).

(** A lobby with one player. *)
Definition lobby1 : Game := (addPlayer "a" "Alice" (newGame "G")).2.

(** ** What every reachable state satisfies *)

(** A hand has one known-mask entry per card; a [full] hand holds no
    [null] or [undefined] either. *)
Definition handOK (full : bool) (p : Player) : Prop :=
  length (knownCards p) = length (hand p) /\
  (full = true -> Forall is_Some (hand p)).

(** The Draw-Two counter is 0, 1 or 2, and not 0 while a chain is active. *)
Definition draw2OK (g : Game) : Prop :=
  (0 <= draw2CardsRemaining g <= 2)%Z /\
  (draw2ChainActive g = true -> (1 <= draw2CardsRemaining g)%Z).

Definition sound (full : bool) (g : Game) : Prop :=
  Forall (handOK full) (players g) /\ draw2OK g /\ length (players g) <= 6.

(** What a player keeps from round to round. *)
Definition seat (p : Player) : string * string * nat * nat :=
  (id p, name p, score p, totalScore p).

(** ** A game nobody leaves *)

(** The states the public operations other than [removePlayer] can
    produce, starting from the constructor. *)
Inductive reachableStaying (random : nat -> nat) : Game -> Prop :=
| stay_new gid : reachableStaying random (newGame gid)
| stay_addPlayer g playerId playerName :
    reachableStaying random g ->
    reachableStaying random (addPlayer playerId playerName g).2
| stay_startRound g fuel b g' :
    reachableStaying random g -> startRound random fuel g = Returns (b, g') ->
    reachableStaying random g'
| stay_act g a r g' :
    reachableStaying random g -> act random a g = Returns (r, g') ->
    reachableStaying random g'.

(** In a final round the turn is with a player who is not the knocker. *)
Definition knockerWaits (g : Game) : Prop :=
  finalRoundActive g = true ->
  exists p, getCurrentPlayer g = Some p /\ isKnocker g p = false.

(* ===================================================================== *)
(** * Properties *)

(** ** Arrays *)

Lemma pop_snoc {A} (l : list A) (x : A) : pop (l ++ [x]) = Some (l, x).
Proof. unfold pop. by rewrite last_snoc, removelast_last. Qed.

Lemma pop_Some {A} (l r : list A) (x : A) : pop l = Some (r, x) <-> l = r ++ [x].
Proof.
  split.
  - unfold pop. destruct (last l) as [y|] eqn:Hl; [|done].
    apply last_Some in Hl as [l' ->]. rewrite removelast_last. congruence.
  - intros ->. apply pop_snoc.
Qed.

Lemma pop_None {A} (l : list A) : pop l = None <-> l = [].
Proof.
  unfold pop. destruct (last l) eqn:Hl.
  - split; [done|]. intros ->. done.
  - split; [|done]. intros _. by apply last_None.
Qed.

Lemma exchange_Permutation {A} (i j : nat) (l : list A) : exchange i j l ≡ₚ l.
Proof.
  unfold exchange. destruct (l !! i) eqn:Hi; [|done].
  destruct (l !! j) eqn:Hj; [|done]. by apply Permutation_insert_swap.
Qed.

Lemma fisherYates_Permutation {A} random (i k : nat) (d : list A) :
  fisherYates random i k d ≡ₚ d.
Proof.
  revert k d. induction i as [|i IH]; intros k d; simpl; [done|].
  rewrite IH. apply exchange_Permutation.
Qed.

Lemma js_assign_length {A} (hole : A) i x l :
  i < length l -> length (js_assign hole i x l) = length l.
Proof. intros H. unfold js_assign. rewrite decide_True by done. apply length_insert. Qed.

Lemma js_assign_lookup {A} (hole : A) i x l : js_assign hole i x l !! i = Some x.
Proof.
  unfold js_assign. destruct (decide (i < length l)).
  - by apply list_lookup_insert_eq.
  - rewrite lookup_app_r by lia. rewrite lookup_app_r; rewrite length_replicate; [|lia].
    replace (i - length l - (i - length l)) with 0 by lia. done.
Qed.

(** Reading any other index for truthiness is not affected by a write. *)
Lemma js_assign_lookup_ne i j x l :
  i <> j -> default false (js_assign false i x l !! j) = default false (l !! j).
Proof.
  intros Hne. unfold js_assign. destruct (decide (i < length l)).
  - by rewrite list_lookup_insert_ne.
  - destruct (decide (j < length l)).
    + by rewrite lookup_app_l.
    + rewrite (lookup_ge_None_2 l j) by lia. rewrite lookup_app_r by lia.
      destruct (decide (j - length l < i - length l)).
      * rewrite lookup_app_l by (rewrite length_replicate; lia).
        rewrite lookup_replicate_2 by lia. done.
      * rewrite lookup_app_r by (rewrite length_replicate; lia).
        rewrite length_replicate.
        destruct (j - length l - (i - length l)) as [|m] eqn:Hm; [lia|]. done.
Qed.

(** ** The outcome monad *)

Lemma bind_Returns {A B} (m : outcome A) (k : A -> outcome B) (b : B) :
  m ≫= k = Returns b <-> exists a, m = Returns a /\ k a = Returns b.
Proof.
  destruct m; simpl; split; try done; try (intros (a0 & ? & ?); done).
  - intros H. eauto.
  - intros (a0 & [= <-] & H). done.
Qed.

(** ** [drawCard] and [shuffleDeck] touch deck, discard pile and stream only *)

Lemma shuffleDeck_frame random g :
  shuffleDeck random g = withPiles (deck (shuffleDeck random g)) (discardPile g)
                           (tick (shuffleDeck random g)) g.
Proof. done. Qed.

Lemma refillDeck_frame random g :
  refillDeck random g = withPiles (deck (refillDeck random g))
    (discardPile (refillDeck random g)) (tick (refillDeck random g)) g.
Proof.
  unfold refillDeck.
  destruct (deck g) eqn:Hd, (pop (discardPile g)) as [[rest topCard]|] eqn:Hp;
    try case_decide; destruct g; simpl in *; by subst.
Qed.

Lemma drawCard_frame random g c g1 :
  drawCard random g = (c, g1) ->
  g1 = withPiles (deck g1) (discardPile g1) (tick g1) g.
Proof.
  unfold drawCard. intros H. pose proof (refillDeck_frame random g) as Hf.
  destruct (pop (deck (refillDeck random g))) as [[rest x]|]; simplify_eq;
    rewrite Hf; done.
Qed.

Lemma refillDeck_no_discard random g : discardPile g = [] -> refillDeck random g = g.
Proof. unfold refillDeck. intros ->. by destruct (deck g). Qed.

Lemma refillDeck_nonempty random g : deck g <> [] -> refillDeck random g = g.
Proof. unfold refillDeck. by destruct (deck g). Qed.

Lemma refillDeck_Permutation random g :
  deck (refillDeck random g) ++ discardPile (refillDeck random g)
  ≡ₚ deck g ++ discardPile g.
Proof.
  unfold refillDeck.
  destruct (deck g) eqn:Hd; [|by rewrite Hd].
  destruct (pop (discardPile g)) as [[rest topCard]|] eqn:Hp; [|by rewrite Hd].
  case_decide; [|by rewrite Hd]. apply pop_Some in Hp. rewrite Hp. simpl.
  by rewrite fisherYates_Permutation.
Qed.

(** What a draw does to the piles: the entry returned leaves them, and
    nothing else does. *)
Lemma drawCard_Permutation random g c g1 :
  drawCard random g = (c, g1) ->
  (c :: deck g1 ++ discardPile g1 ≡ₚ deck g ++ discardPile g) \/
  (c = None /\ deck g1 = [] /\ deck g1 ++ discardPile g1 ≡ₚ deck g ++ discardPile g).
Proof.
  unfold drawCard. intros H. pose proof (refillDeck_Permutation random g) as Hp.
  destruct (pop (deck (refillDeck random g))) as [[rest x]|] eqn:Hpop; simplify_eq.
  - left. apply pop_Some in Hpop. simpl. rewrite Hpop in Hp. rewrite <- Hp.
    rewrite <- (assoc_L (++)). simpl. by rewrite <- Permutation_middle.
  - right. apply pop_None in Hpop. done.
Qed.

(** The fields of a game outside the piles, read off a frame equation. *)
Ltac frame_fields H :=
  let go f := (let Hn := fresh "Hfr" in pose proof (f_equal f H) as Hn; simpl in Hn) in
  go players; go currentPlayerIndex; go drawnCard; go drawnFromDiscard;
  go gameStarted; go roundEnded; go knockerId; go finalRoundActive;
  go playersCompletedFinalTurn; go draw2ChainActive; go draw2CardsRemaining;
  go gameId.

(** ** Round setup *)

Lemma initializeDeck_Permutation random g :
  deck (initializeDeck random g) ≡ₚ map Some freshDeck.
Proof.
  unfold initializeDeck, shuffleDeck. cbn [deck set_tick set_deck].
  apply fisherYates_Permutation.
Qed.

(** While the discard pile is empty a draw pops the deck and nothing else. *)
Lemma drawCard_no_discard random g c g1 :
  discardPile g = [] -> drawCard random g = (c, g1) ->
  discardPile g1 = [] /\
  (deck g = deck g1 ++ [c] \/ (c = None /\ deck g = [] /\ deck g1 = [])).
Proof.
  intros Hd. unfold drawCard. rewrite refillDeck_no_discard by done.
  destruct (pop (deck g)) as [[rest x]|] eqn:Hp; intros [= <- <-]; simpl.
  - apply pop_Some in Hp. auto.
  - apply pop_None in Hp. auto.
Qed.

Lemma dealCards_spec random n p g p' g' :
  discardPile g = [] -> Forall is_Some (deck g) ->
  dealCards random n p g = (p', g') ->
  discardPile g' = [] /\ Forall is_Some (deck g') /\
  players g' = players g /\
  (deck g = [] -> deck g' = []) /\
  exists cs, hand p' = hand p ++ cs /\ length cs = n /\
    knownCards p' = knownCards p ++ replicate n false /\
    (Forall is_Some cs \/ deck g' = []).
Proof.
  revert p g. induction n as [|n IH]; intros p g Hd Hs; simpl.
  - intros [= <- <-]. repeat split; try done. exists []. simpl.
    rewrite !app_nil_r. repeat split; try done. by left.
  - destruct (drawCard random g) as [c g1] eqn:Hdraw. intros Hdeal.
    pose proof (drawCard_frame _ _ _ _ Hdraw) as Hf. frame_fields Hf.
    destruct (drawCard_no_discard _ _ _ _ Hd Hdraw) as [Hd1 Hcase].
    assert (Forall is_Some (deck g1)) as Hs1.
    { destruct Hcase as [Hc|(_ & _ & ->)]; [|done].
      rewrite Hc in Hs. by apply Forall_app in Hs as [? _]. }
    destruct (IH _ _ Hd1 Hs1 Hdeal) as (? & ? & ? & Hemp & cs & Hh & Hlen & Hk & Hsome).
    repeat split; try done; try congruence.
    { intros He. apply Hemp. destruct Hcase as [Hc|(_ & _ & ?)]; [|done].
      rewrite He in Hc. by destruct (deck g1). }
    exists (c :: cs). simpl in *. rewrite <- !(assoc_L (++)) in *. simpl in *.
    repeat split; try done; try lia.
    destruct Hsome as [Hsome|?]; [|by right].
    destruct Hcase as [Hc|(_ & _ & Hg1)]; [|right; by apply Hemp].
    left. constructor; [|done]. rewrite Hc in Hs.
    apply Forall_app in Hs as [_ Hs]. by inversion Hs.
Qed.

Lemma dealPlayers_spec random ps g ps' g' :
  discardPile g = [] -> Forall is_Some (deck g) ->
  dealPlayers random ps g = (ps', g') ->
  discardPile g' = [] /\ Forall is_Some (deck g') /\
  (deck g = [] -> deck g' = []) /\ length ps' = length ps /\
  Forall (fun p => length (hand p) = 4 /\ knownCards p = replicate 4 false) ps' /\
  (Forall (fun p => Forall is_Some (hand p)) ps' \/ deck g' = []).
Proof.
  revert g ps' g'. induction ps as [|p ps IH]; intros g ps' g' Hd Hs;
    cbn [dealPlayers].
  - intros [= <- <-]. repeat split; try done. by left.
  - destruct (dealCards random 4 (set_knownCards [] (set_handProps [] (set_hand [] p))) g)
      as [p1 g1] eqn:Hdeal.
    destruct (dealPlayers random ps g1) as [rest g2] eqn:Hrest.
    intros [= <- <-].
    destruct (dealCards_spec _ _ _ _ _ _ Hd Hs Hdeal)
      as (Hd1 & Hs1 & _ & Hemp1 & cs & Hh & Hlen & Hk & Hsome).
    destruct (IH _ _ _ Hd1 Hs1 Hrest) as (Hd2 & Hs2 & Hemp2 & Hlen2 & Hall & Hsome2).
    simpl in Hh, Hk. subst cs.
    repeat split; try done; [auto|simpl; lia| |].
    + constructor; [|done]. by rewrite Hlen.
    + destruct Hsome2 as [Hsome2|?]; [|by right].
      destruct Hsome as [Hsome|?]; [|right; auto].
      left. by constructor.
Qed.

Lemma firstDiscard_spec random fuel c g card g' :
  discardPile g = [] ->
  firstDiscard random fuel c g = Returns (card, g') ->
  isPowerCard card = false /\ discardPile g' = [] /\ players g' = players g.
Proof.
  revert c g. induction fuel as [|fuel IH]; intros c g Hd; simpl;
    destruct c as [c0|]; try done; destruct (isPowerCard c0) eqn:Hp; try done.
  - by intros [= <- <-].
  - destruct (drawCard random _) as [c' g1] eqn:Hdraw. intros H.
    pose proof (drawCard_frame _ _ _ _ Hdraw) as Hf. frame_fields Hf.
    apply (drawCard_no_discard) in Hdraw as [Hd1 _]; [|done].
    destruct (IH _ _ Hd1 H) as (? & ? & ?). repeat split; try done. congruence.
  - by intros [= <- <-].
Qed.

Lemma isPowerCard_false c : isPowerCard c = false <-> type c = number.
Proof. unfold isPowerCard. by destruct (type c). Qed.

Lemma startRound_false random fuel g g' :
  startRound random fuel g = Returns (false, g') -> g' = g.
Proof.
  unfold startRound. case_decide; [by intros [= <-]|].
  destruct (dealPlayers random _ _) as [ps g3].
  destruct (drawCard random _) as [c g5].
  intros Hrun. by apply bind_Returns in Hrun as ([card g6] & _ & [= ]).
Qed.

Lemma startRound_true random fuel g g' :
  startRound random fuel g = Returns (true, g') ->
  2 <= length (players g') /\
  Forall (fun p => length (hand p) = 4 /\ Forall is_Some (hand p) /\
                   knownCards p = [false; false; false; false]) (players g') /\
  (exists c, discardPile g' = [Some c] /\ type c = number) /\
  currentPlayerIndex g' = Num 0 /\ gameStarted g' = true.
Proof.
  unfold startRound. case_decide as Hn; [done|].
  destruct (dealPlayers random _ _) as [ps g3] eqn:Hdeal.
  destruct (drawCard random _) as [c g5] eqn:Hdraw.
  intros H. apply bind_Returns in H as ([card g6] & Hfirst & [= <-]).
  apply dealPlayers_spec in Hdeal as (Hd3 & Hs3 & _ & Hlen & Hall & Hsome); [|done|].
  2:{ change (Forall is_Some (deck (initializeDeck random g))).
      rewrite initializeDeck_Permutation. apply Forall_fmap, Forall_true.
      intros x. by exists x. }
  pose proof (drawCard_frame _ _ _ _ Hdraw) as Hf. frame_fields Hf.
  assert (discardPile (set_players ps g3) = []) as Hd4 by done.
  destruct (drawCard_no_discard _ _ _ _ Hd4 Hdraw) as [Hd5 Hcase].
  destruct (firstDiscard_spec _ _ _ _ _ _ Hd5 Hfirst) as (Hnum & Hd6 & Hp6).
  simpl. rewrite Hd6, Hp6, Hfr. split_and!; try done.
  - simpl in Hlen. lia.
  - destruct Hsome as [Hsome|Hemp].
    + rewrite Forall_forall in *. intros p Hp.
      destruct (Hall p Hp). split_and!; auto.
    + destruct Hcase as [Hc|(-> & _ & _)].
      * simpl in Hemp, Hc. rewrite Hemp in Hc. by destruct (deck g5).
      * by destruct fuel.
  - exists card. split; [done|]. by apply isPowerCard_false.
Qed.

(** C6. [startRound] returns [false] and changes nothing when fewer than
    two players are present; when it returns [true] every hand holds
    exactly four cards (none of them [null]), every known-mask is four
    times [false], the discard pile is one Number card, the current
    player index is 0 and the game is marked started. *)
Theorem startRound_deal random fuel g :
  (length (players g) < 2 -> startRound random fuel g = Returns (false, g)) /\
  (forall g', startRound random fuel g = Returns (true, g') ->
     2 <= length (players g') /\
     Forall (fun p => length (hand p) = 4 /\ Forall is_Some (hand p) /\
                      knownCards p = [false; false; false; false]) (players g') /\
     (exists c, discardPile g' = [Some c] /\ type c = number) /\
     currentPlayerIndex g' = Num 0 /\ gameStarted g' = true).
Proof.
  split.
  - intros H. unfold startRound. by rewrite decide_True.
  - intros g' H. apply startRound_true in H. naive_solver.
Qed.

(** ** State projection *)

Lemma otherEntry_hidden g h :
  roundEnded g = false ->
  map (otherEntry g) h = replicate (length h) (View.mkHandEntry View.Hidden false false).
Proof.
  intros Hr. induction h as [|c h IH]; [done|]. simpl. rewrite IH.
  unfold otherEntry. by rewrite Hr.
Qed.

Lemma playerView_sameFor playerId g1 g2 p1 p2 :
  roundEnded g1 = false -> roundEnded g2 = false ->
  samePlayerFor playerId p1 p2 ->
  playerView g1 playerId p1 = playerView g2 playerId p2.
Proof.
  intros Hr1 Hr2 (Hid & Hname & Hk & Hs & Ht & Hlen & Hown).
  unfold playerView. rewrite <- Hid, Hr1, Hr2, Hname, Hlen, Ht. f_equal.
  destruct (String.eqb_spec (id p1) playerId) as [Heq|Hne].
  - rewrite <- (Hown Heq). apply imap_ext. intros i c _.
    unfold ownEntry, known. by rewrite Hr1, Hr2, Hk, Hlen.
  - rewrite !otherEntry_hidden by done. by rewrite Hlen.
Qed.

Lemma getCurrentPlayer_sameFor playerId g1 g2 :
  sameFor playerId g1 g2 ->
  id <$> getCurrentPlayer g1 = id <$> getCurrentPlayer g2.
Proof.
  intros (_ & _ & _ & Hidx & _ & _ & _ & _ & _ & _ & _ & _ & Hps & _).
  unfold getCurrentPlayer. rewrite <- Hidx.
  destruct (currentPlayerIndex g1) as [n|]; [|done].
  destruct (players g1 !! n) as [p1|] eqn:H1.
  - destruct (Forall2_lookup_l _ _ _ _ _ Hps H1) as (p2 & -> & Hsame).
    simpl. f_equal. apply Hsame.
  - apply lookup_ge_None in H1. rewrite (Forall2_length _ _ _ Hps) in H1.
    by rewrite (lookup_ge_None_2 _ _ H1).
Qed.

(** C7. While the round has not ended, the projection for a player is the
    same in any two games that differ only in the cards held in other
    players' hands, or in the pending drawn card when that player is not
    the current player. *)
Theorem getGameState_hides playerId g1 g2 :
  roundEnded g1 = false ->
  sameFor playerId g1 g2 ->
  getGameState playerId g1 = getGameState playerId g2.
Proof.
  intros Hr Hsame. pose proof (getCurrentPlayer_sameFor _ _ _ Hsame) as Hcur.
  assert (isCurrent g1 playerId = isCurrent g2 playerId) as Hic.
  { unfold isCurrent. destruct (getCurrentPlayer g1), (getCurrentPlayer g2);
      simpl in Hcur; simplify_eq; [by rewrite Hcur|done]. }
  destruct Hsame as (Hg & Hd & Hp & Hidx & Hdd & Hgs & Hre & Hk & Hf & _ & Hc & Hrem & Hps & Hdrawn).
  unfold getGameState.
  rewrite <- Hic, <- Hcur, Hg, Hd, Hp, Hdd, Hgs, <- Hre, Hk, Hf, Hc, Hrem.
  f_equal.
  - rewrite Hre in Hr. revert Hps. generalize (players g1) (players g2).
    induction 1 as [|p1 p2 l1 l2 Hp12 _ IH]; [done|]. simpl. f_equal; [|done].
    apply playerView_sameFor; [congruence|done|done].
  - destruct (isCurrent g1 playerId); [auto|done].
Qed.

(** ** Turn advancement *)

Lemma advanceTurn_frame fuel final g g' :
  advanceTurn fuel final g = Returns g' ->
  g' = set_currentPlayerIndex (currentPlayerIndex g') g.
Proof.
  revert g. induction fuel as [|fuel IH]; intros g; simpl;
    (destruct final; [|by intros [= <-]]);
    (destruct (getCurrentPlayer _) as [p|]; [|done]);
    (destruct (isKnocker _ p); [|by intros [= <-]]); [done|].
  intros H. apply IH in H. rewrite H. done.
Qed.

(** A turn that does not end the round only clears the pending card,
    counts the final turn and moves the index. *)
Lemma endTurn_frame random g g' :
  endsRound g = false ->
  endTurn random g = Returns g' ->
  g' = set_currentPlayerIndex (currentPlayerIndex g')
         (set_playersCompletedFinalTurn (playersCompletedFinalTurn g')
            (set_drawnFromDiscard false (set_drawnCard None g))).
Proof.
  unfold endsRound, endTurn. simpl. destruct (finalRoundActive g); simpl.
  - intros ->. intros H. apply advanceTurn_frame in H. rewrite H. done.
  - intros _ H. apply advanceTurn_frame in H. rewrite H. by destruct g.
Qed.

Lemma findPlayer_Some playerId ps k p :
  findPlayer playerId ps = Some (k, p) -> ps !! k = Some p /\ id p = playerId.
Proof.
  revert k. induction ps as [|q ps IH]; intros k; simpl; [done|].
  destruct (String.eqb_spec (id q) playerId) as [Heq|Hne].
  - by intros [= <- <-].
  - destruct (findPlayer playerId ps) as [[k' p']|]; [|done].
    intros [= <- <-]. by apply IH.
Qed.

Lemma validIndex_lt (i : Z) h :
  validIndex i h = true -> (0 <= i)%Z /\ Z.to_nat i < length h.
Proof.
  unfold validIndex. simpl. intros H. apply andb_true_iff in H as [? ?]. lia.
Qed.

(** ** Reading and writing a hand at a card index *)

Lemma setHandAt_seat index c p :
  id (setHandAt index c p) = id p /\ name (setHandAt index c p) = name p /\
  score (setHandAt index c p) = score p /\
  totalScore (setHandAt index c p) = totalScore p /\
  knownCards (setHandAt index c p) = knownCards p /\
  length (hand (setHandAt index c p)) = length (hand p).
Proof.
  unfold setHandAt. destruct (indexKey index); simpl; by rewrite ?length_insert.
Qed.

Lemma setKnownAt_seat index b p :
  id (setKnownAt index b p) = id p /\ name (setKnownAt index b p) = name p /\
  score (setKnownAt index b p) = score p /\
  totalScore (setKnownAt index b p) = totalScore p /\
  hand (setKnownAt index b p) = hand p /\
  handProps (setKnownAt index b p) = handProps p.
Proof. unfold setKnownAt. by destruct (indexKey index). Qed.

(** A valid index that names an element names one inside the hand. *)
Lemma validIndex_Element index h n :
  validIndex index h = true -> indexKey index = Element n -> n < length h.
Proof.
  destruct index as [i| | |k key]; try done. intros H [= <-].
  by apply validIndex_lt in H as [_ ?].
Qed.

Lemma setKnownAt_length index b p :
  validIndex index (hand p) = true ->
  length (knownCards p) = length (hand p) ->
  length (knownCards (setKnownAt index b p)) = length (knownCards p).
Proof.
  intros Hv Hl. unfold setKnownAt. destruct (indexKey index) as [n|key] eqn:Hk; [|done].
  simpl. apply js_assign_length. rewrite Hl. by eapply validIndex_Element.
Qed.

(** ** The skip loop stops within one round of the table, or never *)

Lemma advanceTurn_unfold fuel g :
  advanceTurn fuel true g =
  let g1 := set_currentPlayerIndex (nextIndex g) g in
  match getCurrentPlayer g1 with
  | None => TypeError
  | Some p =>
      if isKnocker g p then
        match fuel with
        | 0 => NoReturn
        | S f => advanceTurn f true g1
        end
      else Returns g1
  end.
Proof. by destruct fuel. Qed.

Lemma nextIndex_lookup g i p :
  currentPlayerIndex g = Num i ->
  getCurrentPlayer (set_currentPlayerIndex (nextIndex g) g) = Some p ->
  players g !! ((i + 1) mod length (players g)) = Some p.
Proof.
  unfold getCurrentPlayer, nextIndex. simpl. intros ->.
  by destruct (length (players g)).
Qed.

Lemma advanceTurn_visits n g i :
  advanceTurn n true g = NoReturn -> currentPlayerIndex g = Num i ->
  forall k, k <= n ->
    exists p, players g !! ((i + 1 + k) mod length (players g)) = Some p /\
              isKnocker g p = true.
Proof.
  revert g i. induction n as [|n IH]; intros g i H Hi;
    rewrite advanceTurn_unfold in H; cbn zeta in H;
    destruct (getCurrentPlayer _) as [p|] eqn:Hp; try done;
    destruct (isKnocker g p) eqn:Hk; try done;
    apply (nextIndex_lookup _ _ _ Hi) in Hp.
  - intros k Hle. assert (k = 0) as -> by lia. rewrite Nat.add_0_r. eauto.
  - intros [|k] Hle; [rewrite Nat.add_0_r; eauto|].
    assert (length (players g) <> 0) as Hl
      by (apply lookup_lt_Some in Hp; lia).
    destruct (IH _ ((i + 1) mod length (players g)) H) with (k := k)
      as (q & Hq & Hkq); [|lia|].
    { unfold nextIndex. simpl. rewrite Hi. by destruct (length (players g)). }
    simpl in Hq. exists q. split; [|done].
    rewrite <- Hq. f_equal.
    rewrite <- (Nat.add_assoc (_ mod _)), Nat.Div0.add_mod_idemp_l. f_equal.
Qed.

Lemma advanceTurn_knockers_step m g i :
  currentPlayerIndex g = Num i -> players g <> [] ->
  Forall (fun p => isKnocker g p = true) (players g) ->
  advanceTurn m true g =
  match m with
  | 0 => NoReturn
  | S f => advanceTurn f true
             (set_currentPlayerIndex (Num ((i + 1) mod length (players g))) g)
  end.
Proof.
  intros Hi Hne Hall. rewrite advanceTurn_unfold. cbn zeta.
  assert (length (players g) <> 0) as Hl by (by destruct (players g)).
  destruct (lookup_lt_is_Some_2 (players g) ((i + 1) mod length (players g)))
    as [p Hp]; [apply Nat.mod_upper_bound; lia|].
  assert (nextIndex g = Num ((i + 1) mod length (players g))) as Hn
    by (unfold nextIndex; rewrite Hi; by destruct (length (players g))).
  unfold getCurrentPlayer. simpl. rewrite Hn, Hp.
  by rewrite (proj1 (Forall_lookup _ _) Hall _ _ Hp).
Qed.

Lemma advanceTurn_knockers m g i :
  currentPlayerIndex g = Num i -> players g <> [] ->
  Forall (fun p => isKnocker g p = true) (players g) ->
  advanceTurn m true g = NoReturn.
Proof.
  revert g i. induction m as [|m IH]; intros g i Hi Hne Hall;
    rewrite (advanceTurn_knockers_step _ g i) by done; [done|].
  by apply (IH _ ((i + 1) mod length (players g))).
Qed.

(** The iterations [knock] and [endTurn] give the loop are enough: when
    it has not stopped by then, every player is the knocker and it does
    not stop however long it runs. *)
Lemma advanceTurn_diverges g :
  advanceTurn (length (players g)) true g = NoReturn ->
  forall m, advanceTurn m true g = NoReturn.
Proof.
  intros H m. destruct (currentPlayerIndex g) as [i|] eqn:Hi.
  2:{ revert H. rewrite advanceTurn_unfold.
      unfold getCurrentPlayer, nextIndex; simpl; by rewrite Hi. }
  assert (players g <> []) as Hne.
  { intros Hnil. revert H. rewrite advanceTurn_unfold.
    unfold getCurrentPlayer, nextIndex. simpl. by rewrite Hi, Hnil. }
  apply (advanceTurn_knockers m g i Hi Hne).
  apply Forall_lookup. intros j p Hj.
  pose proof (lookup_lt_Some _ _ _ Hj) as Hlt.
  set (l := length (players g)) in *.
  set (a := (i + 1) mod l).
  assert (a < l) as Ha by (apply Nat.mod_upper_bound; lia).
  destruct (advanceTurn_visits _ _ _ H Hi ((j + l - a) mod l)) as (q & Hq & Hkq).
  { pose proof (Nat.mod_upper_bound (j + l - a) l). lia. }
  fold l in Hq.
  replace ((i + 1 + (j + l - a) mod l) mod l) with j in Hq; [congruence|].
  rewrite Nat.Div0.add_mod_idemp_r.
  rewrite <- Nat.Div0.add_mod_idemp_l. fold a.
  replace (a + (j + l - a)) with (j + 1 * l) by lia.
  rewrite Nat.Div0.mod_add. symmetry. by apply Nat.mod_small.
Qed.

(** ** Swap *)

(** C5, as the code has it: a successful [useSwap] that does not end the
    round exchanges the acting player's slot [i] with the opponent's slot
    [j], leaves both slots unknown to their holders, and changes no other
    hand slot or known-mask entry of any player. *)
Theorem useSwap_exchanges random (i : Z) opponentId (j : Z) g r g' :
  useSwap random i opponentId j g = Returns (Success r, g') ->
  endsRound g = false ->
  exists me opp : nat,
    currentPlayerIndex g = Num me /\
    (fst <$> findPlayer opponentId (players g)) = Some opp /\
    me <> opp /\
    slotAt g' me (Z.to_nat i) = slotAt g opp (Z.to_nat j) /\
    slotAt g' opp (Z.to_nat j) = slotAt g me (Z.to_nat i) /\
    is_Some (slotAt g me (Z.to_nat i)) /\ is_Some (slotAt g opp (Z.to_nat j)) /\
    knownAt g' me (Z.to_nat i) = false /\
    knownAt g' opp (Z.to_nat j) = false /\
    length (players g') = length (players g) /\
    forall k s, (k, s) <> (me, Z.to_nat i) -> (k, s) <> (opp, Z.to_nat j) ->
      slotAt g' k s = slotAt g k s /\ knownAt g' k s = knownAt g k s.
Proof.
  unfold useSwap. destruct (drawnIs swap g); [|done].
  destruct (findPlayer opponentId (players g)) as [[oi opponent]|] eqn:Hfind; [|done].
  destruct (getCurrentPlayer g) as [player|] eqn:Hcur; [|done].
  destruct (String.eqb_spec (id opponent) (id player)) as [|Hne]; [done|].
  destruct (validIndex i (hand player)) eqn:Hi; [|done].
  destruct (validIndex j (hand opponent)) eqn:Hj; [|done].
  unfold handAt, setHandAt, setKnownAt. simpl.
  intros H Hend. apply bind_Returns in H as (g3 & Hturn & [= _ <-]).
  apply validIndex_lt in Hi as [_ Hi], Hj as [_ Hj].
  apply findPlayer_Some in Hfind as [Hopp _].
  unfold getCurrentPlayer in Hcur. unfold setCurrentPlayer in Hturn.
  destruct (currentPlayerIndex g) as [pi|] eqn:Hidx; [|done].
  apply endTurn_frame in Hturn; [|by rewrite <- Hend; unfold endsRound; simpl; rewrite !length_insert].
  apply (f_equal players) in Hturn. simpl in Hturn.
  assert (pi <> oi) as Hpo by (intros ->; congruence).
  pose proof (lookup_lt_Some _ _ _ Hcur) as Hpi.
  pose proof (lookup_lt_Some _ _ _ Hopp) as Hoi.
  exists pi, oi. unfold slotAt, knownAt. rewrite Hturn, Hcur, Hopp. simpl.
  rewrite !length_insert.
  rewrite list_lookup_insert_ne, !list_lookup_insert_eq by (rewrite ?length_insert; done).
  simpl. unfold known. simpl.
  rewrite !list_lookup_insert_eq, !js_assign_lookup by done. simpl.
  destruct (lookup_lt_is_Some_2 (hand player) _ Hi) as [a Ha].
  destruct (lookup_lt_is_Some_2 (hand opponent) _ Hj) as [b Hb].
  rewrite Ha, Hb. simpl. split_and!; try done; try by eexists.
  intros k s Hk1 Hk2.
  destruct (decide (k = oi)) as [->|Hko].
  - rewrite list_lookup_insert_eq by (rewrite length_insert; done). simpl.
    rewrite Hopp. assert (s <> Z.to_nat j) by congruence.
    rewrite list_lookup_insert_ne by done. by rewrite js_assign_lookup_ne.
  - rewrite list_lookup_insert_ne by done.
    destruct (decide (k = pi)) as [->|Hkp].
    + rewrite list_lookup_insert_eq by done. simpl.
      rewrite Hcur. assert (s <> Z.to_nat i) by congruence.
      rewrite list_lookup_insert_ne by done. by rewrite js_assign_lookup_ne.
    + by rewrite list_lookup_insert_ne.
Qed.

(** ** Round end *)

Lemma fisherYates_length {A} random i k (d : list A) :
  length (fisherYates random i k d) = length d.
Proof. apply Permutation_length, fisherYates_Permutation. Qed.

Lemma refillDeck_empty random g :
  deck (refillDeck random g) = [] -> exhausted g /\ refillDeck random g = g.
Proof.
  unfold refillDeck, exhausted. destruct (deck g) as [|x d] eqn:Hdeck.
  - destruct (pop (discardPile g)) as [[rest topCard]|] eqn:Hp.
    + case_decide as Hlen; [|intros _; split; [split; [done|lia]|done]].
      apply pop_Some in Hp. rewrite Hp, length_app in Hlen. simpl.
      intros H. apply (f_equal length) in H. rewrite fisherYates_length in H.
      destruct rest; simpl in *; lia.
    + apply pop_None in Hp. rewrite Hp. simpl. intros _. split; [split; [done|lia]|done].
  - by rewrite Hdeck.
Qed.

(** A draw either finds the piles exhausted and changes nothing, or takes
    one entry out of them. *)
Lemma drawCard_cases random g c g1 :
  drawCard random g = (c, g1) ->
  (exhausted g /\ c = None /\ g1 = g) \/
  c :: deck g1 ++ discardPile g1 ≡ₚ deck g ++ discardPile g.
Proof.
  unfold drawCard. intros H. pose proof (refillDeck_Permutation random g) as Hp.
  destruct (pop (deck (refillDeck random g))) as [[rest x]|] eqn:Hpop; simplify_eq.
  - right. apply pop_Some in Hpop. simpl. rewrite Hpop in Hp. rewrite <- Hp.
    rewrite <- (assoc_L (++)). simpl. by rewrite <- Permutation_middle.
  - left. apply pop_None in Hpop. apply refillDeck_empty in Hpop as [? ->]. done.
Qed.

Lemma withPiles_trans g g1 g2 d1 p1 t1 d2 p2 t2 :
  g1 = withPiles d1 p1 t1 g -> g2 = withPiles d2 p2 t2 g1 ->
  g2 = withPiles (deck g2) (discardPile g2) (tick g2) g.
Proof. by intros -> ->. Qed.

Lemma exhausted_drawCard random g : exhausted g -> drawCard random g = (None, g).
Proof.
  intros [Hd Hlen]. unfold drawCard, refillDeck. rewrite Hd.
  destruct (pop (discardPile g)) as [[rest topCard]|]; [|by rewrite Hd].
  rewrite decide_False by lia. by rewrite Hd.
Qed.

Lemma drawCard_nullFree random g c g1 :
  drawCard random g = (c, g1) -> nullFree g -> nullFree g1 /\ (c = None -> exhausted g1).
Proof.
  unfold nullFree. intros H Hn.
  destruct (drawCard_cases _ _ _ _ H) as [(? & -> & ->)|Hp]; [done|].
  rewrite <- Hp in Hn. inversion Hn as [|? ? Hc Hrest]. split; [done|].
  intros ->. by destruct Hc.
Qed.

Lemma drawCard_measure random g c g1 :
  drawCard random g = (Some c, g1) ->
  length (deck g1) + length (discardPile g1) < length (deck g) + length (discardPile g).
Proof.
  intros H. destruct (drawCard_cases _ _ _ _ H) as [(? & ? & ?)|Hp]; [done|].
  apply Permutation_length in Hp. simpl in Hp. rewrite !length_app in Hp. lia.
Qed.

(** The replacement loop stops within the iterations [replaceSlot] gives
    it, with a Number card or with nothing. *)
Lemma drawReplacement_spec random fuel g :
  length (deck g) + length (discardPile g) <= fuel ->
  exists r g1, drawReplacement random fuel g = Returns (r, g1) /\
    g1 = withPiles (deck g1) (discardPile g1) (tick g1) g /\
    (forall n, r = Some n -> type n = number) /\
    (nullFree g -> nullFree g1) /\
    (r = None -> nullFree g -> exhausted g1) /\
    (exhausted g -> g1 = g /\ r = None).
Proof.
  revert g. induction fuel as [|fuel IH]; intros g Hfuel; simpl;
    destruct (drawCard random g) as [[c|] g1] eqn:Hdraw.
  - apply drawCard_measure in Hdraw. lia.
  - exists None, g1. pose proof (drawCard_frame _ _ _ _ Hdraw) as Hf.
    split_and!; try done.
    + intros Hn. by apply (drawCard_nullFree _ _ _ _ Hdraw).
    + intros _ Hn. by apply (drawCard_nullFree _ _ _ _ Hdraw).
    + intros He. rewrite exhausted_drawCard in Hdraw by done. by simplify_eq.
  - pose proof (drawCard_frame _ _ _ _ Hdraw) as Hf.
    pose proof (drawCard_measure _ _ _ _ Hdraw) as Hm.
    assert (forall n, type c = number -> Some c = Some n -> type n = number) as Hnum
      by (by intros n ? [= <-]).
    assert (exhausted g -> False) as Hex
      by (intros He; rewrite exhausted_drawCard in Hdraw by done; done).
    destruct (type c) eqn:Htype;
      [exists (Some c), g1; split_and!; try done; eauto;
       intros Hn; by apply (drawCard_nullFree _ _ _ _ Hdraw)|..];
      (destruct (IH g1) as (r & g2 & Hr & Hf2 & Hn2 & Hnf & He & Hx); [lia|];
       exists r, g2; split_and!; try done;
       [ eapply withPiles_trans; eauto
       | intros Hn; apply Hnf; by apply (drawCard_nullFree _ _ _ _ Hdraw)
       | intros Hr0 Hn; apply He; [done|]; by apply (drawCard_nullFree _ _ _ _ Hdraw) ]).
  - exists None, g1. pose proof (drawCard_frame _ _ _ _ Hdraw) as Hf.
    split_and!; try done.
    + intros Hn. by apply (drawCard_nullFree _ _ _ _ Hdraw).
    + intros _ Hn. by apply (drawCard_nullFree _ _ _ _ Hdraw).
    + intros He. rewrite exhausted_drawCard in Hdraw by done. by simplify_eq.
Qed.

Lemma drawnFrom_refl g : drawnFrom g g.
Proof. split_and!; try done. by destruct g. Qed.

Lemma drawnFrom_trans g g1 g2 : drawnFrom g g1 -> drawnFrom g1 g2 -> drawnFrom g g2.
Proof.
  intros (Hf1 & Hn1 & He1) (Hf2 & Hn2 & He2). split_and!.
  - eapply withPiles_trans; eauto.
  - auto.
  - intros He. pose proof (He1 He) as ->. auto.
Qed.

Lemma drawnFrom_exhausted g g1 : drawnFrom g g1 -> exhausted g -> exhausted g1.
Proof. intros (_ & _ & He) H. by rewrite (He H). Qed.

Lemma slotResult_later g g1 g' p p1 p' s c :
  slotResult g g1 p p1 s c ->
  hand p' !! s = hand p1 !! s -> known p' s = known p1 s ->
  drawnFrom g1 g' ->
  slotResult g g' p p' s c.
Proof.
  unfold slotResult. intros H Hh Hk Hd. rewrite Hh, Hk.
  destruct (isPowerCard c); [|done].
  destruct H as [?|(? & ? & He)]; [by left|right]. split_and!; try done.
  intros Hn. eapply drawnFrom_exhausted; eauto.
Qed.

Lemma slotResult_earlier g g1 g' p p1 p' s c :
  slotResult g1 g' p1 p' s c ->
  known p1 s = known p s -> drawnFrom g g1 ->
  slotResult g g' p p' s c.
Proof.
  unfold slotResult. intros H Hk (_ & Hn & _). rewrite <- Hk.
  destruct (isPowerCard c); [|done].
  destruct H as [?|(? & ? & He)]; [by left|right]. split_and!; auto.
Qed.

Lemma replaceSlot_spec random i p g c :
  hand p !! i = Some (Some c) ->
  exists p1 g1, replaceSlot random i p g = Returns (p1, g1) /\
    drawnFrom g g1 /\
    id p1 = id p /\ name p1 = name p /\ score p1 = score p /\
    totalScore p1 = totalScore p /\
    length (hand p1) = length (hand p) /\
    (Forall is_Some (hand p) -> Forall is_Some (hand p1)) /\
    (forall s, s <> i -> hand p1 !! s = hand p !! s /\ known p1 s = known p s) /\
    slotResult g g1 p p1 i c.
Proof.
  intros Hi. unfold replaceSlot, slotResult. rewrite Hi.
  destruct (isPowerCard c) eqn:Hpow.
  - destruct (drawReplacement_spec random _ g (reflexivity _))
      as (r & g1 & -> & Hf & Hnum & Hnf & Hex & Hstay). simpl.
    destruct r as [n|].
    + eexists _, g1. split; [done|]. simpl. rewrite length_insert.
      split_and!; try done.
      * split_and!; try done. intros He. by apply Hstay.
      * intros Hall. apply Forall_insert; [done|]. by eexists.
      * intros s Hs. unfold known. simpl.
        rewrite list_lookup_insert_ne by done. by rewrite js_assign_lookup_ne.
      * left. exists n. unfold known. simpl.
        rewrite list_lookup_insert_eq by (by eapply lookup_lt_Some).
        rewrite js_assign_lookup. auto.
    + exists p, g1. split_and!; try done.
      * split_and!; try done. intros He. by apply Hstay.
      * right. auto.
  - exists p, g. split_and!; try done. apply drawnFrom_refl.
Qed.

Lemma replaceSlots_spec random n i p g :
  Forall is_Some (hand p) -> i + n <= length (hand p) ->
  exists p' g', replaceSlots random n i p g = Returns (p', g') /\
    drawnFrom g g' /\
    id p' = id p /\ name p' = name p /\ score p' = score p /\
    totalScore p' = totalScore p /\
    length (hand p') = length (hand p) /\
    Forall is_Some (hand p') /\
    (forall s, s < i \/ i + n <= s -> hand p' !! s = hand p !! s /\ known p' s = known p s) /\
    (forall s c, i <= s < i + n -> hand p !! s = Some (Some c) -> slotResult g g' p p' s c).
Proof.
  revert i p g. induction n as [|n IH]; intros i p g Hall Hlen; simpl.
  - exists p, g. split_and!; try done; [apply drawnFrom_refl|lia].
  - destruct (lookup_lt_is_Some_2 (hand p) i) as [x Hx]; [lia|].
    destruct (proj1 (Forall_lookup _ _) Hall _ _ Hx) as [c ->].
    destruct (replaceSlot_spec random i p g c Hx)
      as (p1 & g1 & -> & Hd1 & Hid1 & Hname1 & Hsc1 & Htot1 & Hlen1 & Hall1 & Hoth1 & Hres1).
    simpl.
    destruct (IH (S i) p1 g1) as
      (p' & g' & -> & Hd2 & Hid2 & Hname2 & Hsc2 & Htot2 & Hlen2 & Hall2 & Hoth2 & Hres2);
      [auto|lia|].
    exists p', g'. split_and!; try congruence; try done.
    + eapply drawnFrom_trans; eauto.
    + intros s Hs. destruct (Hoth2 s) as [-> ->]; [lia|]. apply Hoth1. lia.
    + intros s c0 Hs Hc0. destruct (decide (s = i)) as [->|Hne].
      * simplify_eq. destruct (Hoth2 i) as [Hh Hk]; [lia|].
        eapply slotResult_later; eauto.
      * destruct (Hoth1 s Hne) as [Hh Hk].
        eapply slotResult_earlier; eauto. apply Hres2; [lia|congruence].
Qed.

Lemma sumPoints_Returns h :
  Forall is_Some h -> sumPoints h = Returns (handPoints h).
Proof.
  induction 1 as [|x h [c ->] _ IH]; [done|]. simpl. rewrite IH. done.
Qed.

Lemma roundResult_between g g1 g2 g' p p' :
  drawnFrom g g1 -> roundResult g1 g2 p p' -> drawnFrom g2 g' ->
  roundResult g g' p p'.
Proof.
  intros Hd1 (? & ? & ? & Hres & ? & ?) Hd2. split_and!; try done.
  intros s c Hs. eapply (slotResult_earlier _ g1); [|done|done].
  eapply slotResult_later; eauto.
Qed.

Lemma endRoundPlayer_spec random p g :
  Forall is_Some (hand p) ->
  exists p' g', endRoundPlayer random p g = Returns (p', g') /\
    drawnFrom g g' /\ roundResult g g' p p'.
Proof.
  intros Hall. unfold endRoundPlayer.
  destruct (replaceSlots_spec random (length (hand p)) 0 p g Hall)
    as (p1 & g1 & -> & Hd & Hid & Hname & Hsc & Htot & Hlen & Hall1 & _ & Hres); [done|].
  simpl. unfold calculateScore. rewrite sumPoints_Returns by done. simpl.
  eexists _, g1. split; [done|]. split; [done|].
  unfold roundResult. simpl. split_and!; try done; [|lia].
  intros s c Hs. apply lookup_lt_Some in Hs as Hlt.
  specialize (Hres s c (conj (Nat.le_0_l _) Hlt) Hs).
  revert Hres. unfold slotResult, known. simpl. done.
Qed.

Lemma endRoundPlayers_spec random ps g :
  Forall (fun p => Forall is_Some (hand p)) ps ->
  exists ps' g', endRoundPlayers random ps g = Returns (ps', g') /\
    drawnFrom g g' /\ Forall2 (roundResult g g') ps ps'.
Proof.
  intros Hall. revert g. induction Hall as [|p ps Hp _ IH]; intros g; simpl.
  - exists [], g. split_and!; try done. apply drawnFrom_refl.
  - destruct (endRoundPlayer_spec random p g Hp) as (p' & g1 & -> & Hd1 & Hres1).
    simpl. destruct (IH g1) as (ps' & g' & -> & Hd2 & Hres2). simpl.
    exists (p' :: ps'), g'. split; [done|]. split; [by eapply drawnFrom_trans|].
    constructor.
    + eapply (roundResult_between _ g g1); eauto. apply drawnFrom_refl.
    + eapply Forall2_impl; [exact Hres2|]. intros q q' Hq.
      eapply (roundResult_between _ g1 g'); eauto. apply drawnFrom_refl.
Qed.

(** What [endRound] does when nothing in its way is [null].  When no
    hand holds a [null] entry, [endRound] returns; every slot that held a
    power card then holds a Number card and is marked known, or still
    holds its power card with its mask entry as before, which on piles of
    cards only happens when deck and reshuffle are exhausted; every other
    slot is as before; each player's round score is the sum of
    [getPoints] over the final hand and was added to the cumulative
    score; the round is marked ended. *)
Lemma endRound_replaces_and_scores random g :
  Forall (fun p => Forall is_Some (hand p)) (players g) ->
  exists g', endRound random g = Returns g' /\
    roundEnded g' = true /\
    Forall2 (roundResult g g') (players g) (players g').
Proof.
  intros Hall. unfold endRound.
  destruct (endRoundPlayers_spec random (players g) g Hall) as (ps & g1 & -> & Hd & Hres).
  simpl. eexists. split; [done|]. simpl. split; [done|].
  eapply Forall2_impl; [exact Hres|]. intros p p' (? & ? & ? & Hs & ? & ?).
  unfold roundResult. by split_and!.
Qed.

(** ** What a round end leaves alone *)

Lemma replaceSlot_frame random i p g p1 g1 :
  replaceSlot random i p g = Returns (p1, g1) ->
  id p1 = id p /\ g1 = withPiles (deck g1) (discardPile g1) (tick g1) g.
Proof.
  intros H. destruct (hand p !! i) as [[c|]|] eqn:Hi;
    try (unfold replaceSlot in H; rewrite Hi in H; done).
  destruct (replaceSlot_spec random i p g c Hi) as (p1' & g1' & H' & (Hf & _) & Hid & _).
  rewrite H in H'. by simplify_eq.
Qed.

Lemma replaceSlots_frame random n i p g p1 g1 :
  replaceSlots random n i p g = Returns (p1, g1) ->
  id p1 = id p /\ g1 = withPiles (deck g1) (discardPile g1) (tick g1) g.
Proof.
  revert i p g. induction n as [|n IH]; intros i p g; simpl.
  - intros [= <- <-]. by destruct g.
  - intros H. apply bind_Returns in H as ([p2 g2] & H1 & H2).
    apply replaceSlot_frame in H1 as [Hid1 Hf1]. apply IH in H2 as [Hid2 Hf2].
    split; [congruence|]. eapply withPiles_trans; eauto.
Qed.

Lemma endRoundPlayers_frame random ps g ps' g' :
  endRoundPlayers random ps g = Returns (ps', g') ->
  map id ps' = map id ps /\ g' = withPiles (deck g') (discardPile g') (tick g') g.
Proof.
  revert g ps' g'. induction ps as [|p ps IH]; intros g ps' g'; simpl.
  - intros [= <- <-]. by destruct g.
  - intros H. apply bind_Returns in H as ([p1 g1] & H1 & H).
    apply bind_Returns in H as ([rest g2] & H2 & [= <- <-]).
    apply IH in H2 as [Hids Hf2]. unfold endRoundPlayer in H1.
    apply bind_Returns in H1 as ([p2 g3] & H1 & H).
    apply bind_Returns in H as (p3 & H3 & [= <- <-]).
    apply replaceSlots_frame in H1 as [Hid Hf1].
    unfold calculateScore in H3. apply bind_Returns in H3 as (s & _ & [= <-]).
    simpl. split; [congruence|]. eapply withPiles_trans; eauto.
Qed.

Lemma endRound_frame random g g' :
  endRound random g = Returns g' ->
  map id (players g') = map id (players g) /\
  g' = set_roundEnded true (set_players (players g')
         (withPiles (deck g') (discardPile g') (tick g') g)).
Proof.
  unfold endRound. intros H. apply bind_Returns in H as ([ps g1] & H & [= <-]).
  apply endRoundPlayers_frame in H as [Hids Hf]. simpl. split; [done|].
  rewrite Hf at 1. done.
Qed.

(** ** The current player index stays inside the player list *)

Lemma advanceTurn_index fuel final g g' :
  advanceTurn fuel final g = Returns g' ->
  match currentPlayerIndex g' with
  | Num k => k < length (players g)
  | NaN => players g = [] \/ currentPlayerIndex g = NaN
  end.
Proof.
  assert (forall g, match nextIndex g with
                    | Num k => k < length (players g)
                    | NaN => players g = [] \/ currentPlayerIndex g = NaN
                    end) as Hnext.
  { intros g0. unfold nextIndex. destruct (currentPlayerIndex g0); [|by right].
    destruct (players g0); [by left|]. cbn [length]. apply Nat.mod_upper_bound. lia. }
  revert g. induction fuel as [|fuel IH]; intros g; simpl;
    (destruct final; [|intros [= <-]; apply Hnext]);
    (destruct (getCurrentPlayer _) as [p|]; [|done]);
    (destruct (isKnocker _ p); [|intros [= <-]; apply Hnext]); [done|].
  intros H. apply IH in H. simpl in H. specialize (Hnext g).
  destruct (currentPlayerIndex g'); [done|].
  destruct H as [?|H]; [by left|]. by rewrite H in Hnext.
Qed.

Lemma nil_length {A} (l : list A) : length l = 0 <-> l = [].
Proof. by destruct l. Qed.

Lemma advanceTurn_indexOK fuel final g g' :
  indexOK g -> gameStarted g = true \/ players g <> [] ->
  advanceTurn fuel final g = Returns g' -> indexOK g'.
Proof.
  intros Hok Hst H. pose proof (advanceTurn_index _ _ _ _ H) as Hi.
  apply advanceTurn_frame in H. unfold indexOK in *.
  rewrite H. simpl. destruct (currentPlayerIndex g').
  - by left.
  - destruct Hi as [Hi|Hi].
    + rewrite nil_length. split; [done|]. by destruct Hst.
    + by rewrite Hi in Hok.
Qed.

Lemma endTurn_indexOK random g g' :
  indexOK g -> gameStarted g = true \/ players g <> [] ->
  endTurn random g = Returns g' ->
  indexOK g' /\ gameStarted g' = gameStarted g /\
  length (players g') = length (players g).
Proof.
  intros Hok Hst. unfold endTurn. simpl.
  assert (forall g1 g2, endRound random g1 = Returns g2 -> indexOK g1 ->
            indexOK g2 /\ gameStarted g2 = gameStarted g1 /\
            length (players g2) = length (players g1)) as Hend.
  { intros g1 g2 H Hok1. apply endRound_frame in H as [Hids H].
    apply (f_equal length) in Hids. rewrite !length_map in Hids.
    unfold indexOK in *. rewrite H. simpl. split_and!; try done.
    by rewrite Hids. }
  assert (forall fuel final g1 g2, advanceTurn fuel final g1 = Returns g2 ->
            indexOK g1 -> gameStarted g1 = true \/ players g1 <> [] ->
            indexOK g2 /\ gameStarted g2 = gameStarted g1 /\
            length (players g2) = length (players g1)) as Hadv.
  { intros fuel final g1 g2 H Hok1 Hst1. split; [by eapply advanceTurn_indexOK|].
    apply advanceTurn_frame in H. by rewrite H. }
  destruct (finalRoundActive g); [case_match|]; intros Hrun.
  - by apply Hend in Hrun.
  - by apply Hadv in Hrun.
  - by apply Hadv in Hrun.
Qed.

Lemma lobbyEmpty_started g :
  lobbyEmpty g -> drawnCard g <> None \/ draw2ChainActive g = true ->
  gameStarted g = true.
Proof.
  intros Hl H. destruct (gameStarted g) eqn:Hs; [done|].
  destruct (Hl Hs) as (_ & _ & Hd & Hc). destruct H; congruence.
Qed.

Lemma lobbyEmpty_drawCard random g :
  lobbyEmpty g -> gameStarted g = false -> drawCard random g = (None, g).
Proof.
  intros Hl Hs. destruct (Hl Hs) as (Hd & Hp & _). apply exhausted_drawCard.
  split; [done|]. rewrite Hp. simpl. lia.
Qed.

Lemma indexOK_same g g' :
  indexOK g -> currentPlayerIndex g' = currentPlayerIndex g ->
  length (players g') = length (players g) -> gameStarted g' = gameStarted g ->
  indexOK g'.
Proof. unfold indexOK. by intros H -> -> ->. Qed.

Lemma drawnIs_Some t g : drawnIs t g = true -> drawnCard g <> None.
Proof. unfold drawnIs. by destruct (drawnCard g). Qed.

(** Ending the turn from a state [x] that is [g] up to hands, piles and
    pending card. *)
Lemma finish_turn random g x g1 :
  lobbyEmpty g -> indexOK g ->
  drawnCard g <> None \/ draw2ChainActive g = true ->
  currentPlayerIndex x = currentPlayerIndex g ->
  length (players x) = length (players g) -> gameStarted x = gameStarted g ->
  endTurn random x = Returns g1 ->
  gameStarted g1 = true /\ indexOK g1.
Proof.
  intros Hl Hok Hd Hi Hp Hs Hturn.
  pose proof (lobbyEmpty_started _ Hl Hd) as Hst.
  apply endTurn_indexOK in Hturn as (? & ? & ?).
  - split; [congruence|done].
  - by apply (indexOK_same g).
  - left. congruence.
Qed.

Lemma setCurrentPlayer_shape p g :
  currentPlayerIndex (setCurrentPlayer p g) = currentPlayerIndex g /\
  length (players (setCurrentPlayer p g)) = length (players g) /\
  gameStarted (setCurrentPlayer p g) = gameStarted g.
Proof.
  unfold setCurrentPlayer. destruct (currentPlayerIndex g) eqn:Hi; simpl;
    rewrite ?length_insert; done.
Qed.

Lemma started_invariant g : gameStarted g = true -> indexOK g -> lobbyEmpty g /\ indexOK g.
Proof. intros Hs ?. split; [|done]. intros ?. congruence. Qed.

Ltac shape :=
  simpl; rewrite ?length_insert; try done;
  try (apply setCurrentPlayer_shape); try congruence.

Ltac finish_with g Hturn :=
  apply (finish_turn _ g) in Hturn as [? ?];
  [by apply started_invariant|done|done| |shape|shape|shape].

Lemma replaceCardInHand_invariant random i g r g' :
  lobbyEmpty g -> indexOK g ->
  replaceCardInHand random i g = Returns (r, g') ->
  lobbyEmpty g' /\ indexOK g'.
Proof.
  intros Hl Hok H. unfold replaceCardInHand, fail in H.
  destruct (drawnCard g) eqn:Hd; [|by simplify_eq].
  destruct (getCurrentPlayer g); [|done].
  destruct (validIndex _ _); [|by simplify_eq].
  apply bind_Returns in H as (g4 & Hturn & [= <- <-]).
  finish_with g Hturn. left. congruence.
Qed.

Lemma power_invariant random t g g1 :
  lobbyEmpty g -> indexOK g -> drawnIs t g = true ->
  endTurn random (discardDrawn g) = Returns g1 ->
  lobbyEmpty g1 /\ indexOK g1.
Proof.
  intros Hl Hok Ht Hturn. apply drawnIs_Some in Ht.
  finish_with g Hturn. by left.
Qed.

Lemma chainDraw2_invariant random c g r g' :
  gameStarted g = true -> indexOK g ->
  chainDraw2 random c g = Returns (r, g') ->
  lobbyEmpty g' /\ indexOK g'.
Proof.
  intros Hs Hok. unfold chainDraw2.
  destruct (drawCard random _) as [nextCard g2] eqn:Hd. intros [= <- <-].
  pose proof (drawCard_frame _ _ _ _ Hd) as Hf; frame_fields Hf.
  apply started_invariant; simpl; [congruence|].
  eapply indexOK_same; eauto; simpl; congruence.
Qed.

Lemma drawFromDiscardPile_invariant g r g' :
  lobbyEmpty g -> indexOK g ->
  drawFromDiscardPile g = Returns (r, g') -> lobbyEmpty g' /\ indexOK g'.
Proof.
  intros Hl Hok H.
  unfold drawFromDiscardPile, fail in H. case_bool_decide; [by simplify_eq|].
  destruct (pop (discardPile g)) as [[rest [card|]]|] eqn:Hp; [|done|by simplify_eq].
  assert (gameStarted g = true) as Hs.
  { destruct (gameStarted g) eqn:Hs; [done|]. destruct (Hl Hs) as (_ & Hd & _).
    rewrite Hd in Hp. done. }
  destruct (isPowerCard card); simplify_eq; by apply started_invariant.
Qed.

Lemma drawFromDeck_invariant random g r g' :
  lobbyEmpty g -> indexOK g ->
  drawFromDeck random g = Returns (r, g') -> lobbyEmpty g' /\ indexOK g'.
Proof.
  intros Hl Hok H.
  unfold drawFromDeck, fail in H. case_bool_decide; [by simplify_eq|].
  destruct (gameStarted g) eqn:Hs.
  + destruct (drawCard random g) as [[c|] g1] eqn:Hd;
      pose proof (drawCard_frame _ _ _ _ Hd) as Hf; frame_fields Hf;
      simplify_eq; apply started_invariant; simpl; try congruence;
      eapply indexOK_same; eauto; simpl; congruence.
  + rewrite lobbyEmpty_drawCard in H by done. by simplify_eq.
Qed.

Lemma discardDrawnCard_invariant random g r g' :
  lobbyEmpty g -> indexOK g ->
  discardDrawnCard random g = Returns (r, g') -> lobbyEmpty g' /\ indexOK g'.
Proof.
  intros Hl Hok H.
  unfold discardDrawnCard, fail in H.
  destruct (drawnCard g) eqn:Hd; [|by simplify_eq].
  destruct (drawnFromDiscard g); [by simplify_eq|].
  apply bind_Returns in H as (g1 & Hturn & [= <- <-]).
  finish_with g Hturn. left. congruence.
Qed.

Lemma usePeek_invariant random i g r g' :
  lobbyEmpty g -> indexOK g ->
  usePeek random i g = Returns (r, g') -> lobbyEmpty g' /\ indexOK g'.
Proof.
  intros Hl Hok H.
  unfold usePeek, fail in H. destruct (drawnIs peek g) eqn:Ht; [|by simplify_eq].
  destruct (getCurrentPlayer g); [|done].
  destruct (validIndex _ _); [|by simplify_eq].
  apply bind_Returns in H as (g1 & Hturn & [= <- <-]).
  by eapply power_invariant.
Qed.

Lemma useSwap_invariant random i o j g r g' :
  lobbyEmpty g -> indexOK g ->
  useSwap random i o j g = Returns (r, g') -> lobbyEmpty g' /\ indexOK g'.
Proof.
  intros Hl Hok. unfold useSwap, fail.
  destruct (drawnIs swap g) eqn:Ht; [|by intros [= <- <-]].
  destruct (findPlayer _ _) as [[oi opponent]|]; [|by intros [= <- <-]].
  destruct (getCurrentPlayer g); [|done].
  destruct (String.eqb _ _); [by intros [= <- <-]|].
  destruct (validIndex i _); cbn [negb]; [|by intros [= <- <-]].
  destruct (validIndex j _); cbn [negb]; [|by intros [= <- <-]].
  intros H.
  apply bind_Returns in H as (g1 & Hturn & [= <- <-]).
  apply drawnIs_Some in Ht.
  apply (finish_turn _ g) in Hturn as [? ?];
    [by apply started_invariant|done|done|by left|..].
  - cbn. apply setCurrentPlayer_shape.
  - cbn. rewrite length_insert. apply setCurrentPlayer_shape.
  - cbn. apply setCurrentPlayer_shape.
Qed.

Lemma declineSwap_invariant random g r g' :
  lobbyEmpty g -> indexOK g ->
  declineSwap random g = Returns (r, g') -> lobbyEmpty g' /\ indexOK g'.
Proof.
  intros Hl Hok H.
  unfold declineSwap, fail in H. destruct (drawnIs swap g) eqn:Ht; [|by simplify_eq].
  apply bind_Returns in H as (g1 & Hturn & [= <- <-]).
  by eapply power_invariant.
Qed.

Lemma useDraw2_invariant random g r g' :
  lobbyEmpty g -> indexOK g ->
  useDraw2 random g = Returns (r, g') -> lobbyEmpty g' /\ indexOK g'.
Proof.
  intros Hl Hok H.
  unfold useDraw2, fail in H. destruct (drawnIs draw2 g) eqn:Ht; [|by simplify_eq].
  apply drawnIs_Some in Ht.
  assert (gameStarted g = true) as Hs by (apply lobbyEmpty_started; auto).
  destruct (drawCard random _) as [[firstCard|] g2] eqn:Hd;
    pose proof (drawCard_frame _ _ _ _ Hd) as Hf; frame_fields Hf.
  + case_bool_decide.
    * eapply chainDraw2_invariant; [| |exact H]; simpl; [congruence|].
      eapply indexOK_same; eauto; simpl; congruence.
    * simplify_eq. apply started_invariant; simpl; [congruence|].
      eapply indexOK_same; eauto; simpl; congruence.
  + apply bind_Returns in H as (g3 & Hturn & [= <- <-]).
    finish_with g Hturn. by left.
Qed.

Lemma discardDraw2Card_invariant random g r g' :
  lobbyEmpty g -> indexOK g -> draw2ChainActive g = true ->
  discardDraw2Card random g = Returns (r, g') -> lobbyEmpty g' /\ indexOK g'.
Proof.
  intros Hl Hok Hc H.
  assert (gameStarted g = true) as Hs by (apply lobbyEmpty_started; auto).
  unfold discardDraw2Card in H. cbn zeta in H. destruct (0 <? _)%Z.
  - destruct (drawCard random _) as [[nextCard|] g2] eqn:Hd;
      pose proof (drawCard_frame _ _ _ _ Hd) as Hf; frame_fields Hf.
    + case_bool_decide.
      * eapply chainDraw2_invariant; [| |exact H]; simpl; [congruence|].
        eapply indexOK_same; eauto; simpl; congruence.
      * simplify_eq. apply started_invariant; simpl; [congruence|].
        eapply indexOK_same; eauto; simpl; congruence.
    + apply bind_Returns in H as (g3 & Hturn & [= <- <-]).
      finish_with g Hturn. by right.
  - apply bind_Returns in H as (g3 & Hturn & [= <- <-]).
    finish_with g Hturn. by right.
Qed.

Lemma handleDraw2Card_invariant random action cardIndex g r g' :
  lobbyEmpty g -> indexOK g ->
  handleDraw2Card random action cardIndex g = Returns (r, g') ->
  lobbyEmpty g' /\ indexOK g'.
Proof.
  intros Hl Hok H.
  unfold handleDraw2Card, fail in H.
  destruct (draw2ChainActive g) eqn:Hc; cbn [negb] in H; [|by simplify_eq].
  assert ((if String.eqb action "discard" then discardDraw2Card random g
           else Returns (Failure "Invalid action", g)) = Returns (r, g') ->
          lobbyEmpty g' /\ indexOK g') as Hdiscard.
  { clear H. intros H. destruct (String.eqb action "discard"); [|by simplify_eq].
    by eapply discardDraw2Card_invariant. }
  destruct (String.eqb action "use" && notNull cardIndex); [|by apply Hdiscard].
  apply bind_Returns in H as ([result g1] & H1 & H).
  apply replaceCardInHand_invariant in H1 as [Hl1 Hok1]; [|done..].
  destruct (success result); simplify_eq; [|done].
  split; [|done]. intros Hs1. by destruct (Hl1 Hs1) as (? & ? & ? & ?).
Qed.

Lemma useAddCard_invariant random g r g' :
  lobbyEmpty g -> indexOK g ->
  useAddCard random g = Returns (r, g') -> lobbyEmpty g' /\ indexOK g'.
Proof.
  intros Hl Hok H.
  unfold useAddCard, fail in H. destruct (drawnIs addcard g) eqn:Ht; [|by simplify_eq].
  apply drawnIs_Some in Ht.
  destruct (drawCard random g) as [newCard g1] eqn:Hd.
  pose proof (drawCard_frame _ _ _ _ Hd) as Hf; frame_fields Hf.
  apply bind_Returns in H as (g2 & H2 & H).
  apply bind_Returns in H as (g3 & Hturn & [= <- <-]).
  assert (currentPlayerIndex g2 = currentPlayerIndex g /\
          length (players g2) = length (players g) /\
          gameStarted g2 = gameStarted g) as (? & ? & ?).
  { destruct newCard as [c|]; [|simplify_eq; split_and!; congruence].
    destruct (getCurrentPlayer g1) as [p|]; [|done]. simplify_eq.
    destruct (setCurrentPlayer_shape (addCard (Some c) p) g1) as (? & ? & ?).
    split_and!; congruence. }
  finish_with g Hturn. by left.
Qed.

Lemma knock_invariant g r g' :
  lobbyEmpty g -> indexOK g ->
  knock g = Returns (r, g') -> lobbyEmpty g' /\ indexOK g'.
Proof.
  intros Hl Hok H.
  unfold knock, fail in H. destruct (truthyId _); [by simplify_eq|].
  destruct (getCurrentPlayer g) as [player|] eqn:Hcur; [|done].
  apply bind_Returns in H as (g2 & Hadv & [= <- <-]).
  split.
  + apply advanceTurn_frame in Hadv. rewrite Hadv. intros Hs. cbn in *.
    by destruct (Hl Hs) as (? & ? & ? & ?).
  + eapply advanceTurn_indexOK; [| |exact Hadv]; [done|]. right. cbn.
    unfold getCurrentPlayer in Hcur. destruct (currentPlayerIndex g); [|done].
    by destruct (players g).
Qed.

Lemma act_invariant random a g r g' :
  lobbyEmpty g -> indexOK g ->
  act random a g = Returns (r, g') ->
  lobbyEmpty g' /\ indexOK g'.
Proof.
  intros Hl Hok H. destruct a; cbn [act] in H.
  - by eapply drawFromDiscardPile_invariant.
  - by eapply drawFromDeck_invariant.
  - by eapply replaceCardInHand_invariant.
  - by eapply discardDrawnCard_invariant.
  - by eapply usePeek_invariant.
  - by eapply useSwap_invariant.
  - by eapply declineSwap_invariant.
  - by eapply useDraw2_invariant.
  - by eapply handleDraw2Card_invariant.
  - by eapply useAddCard_invariant.
  - by eapply knock_invariant.
Qed.

Lemma addPlayer_invariant playerId playerName g :
  lobbyEmpty g -> indexOK g ->
  lobbyEmpty (addPlayer playerId playerName g).2 /\
  indexOK (addPlayer playerId playerName g).2.
Proof.
  intros Hl Hok. unfold addPlayer. case_decide; [done|].
  destruct (gameStarted g) eqn:Hs; [done|]. simpl. split.
  - intros _. by apply Hl.
  - unfold indexOK in *. simpl. rewrite length_app, Hs in *. simpl.
    destruct (currentPlayerIndex g); [left; lia|]. by destruct Hok.
Qed.

Lemma removePlayer_invariant playerId g :
  lobbyEmpty g -> indexOK g ->
  lobbyEmpty (removePlayer playerId g).2 /\ indexOK (removePlayer playerId g).2.
Proof.
  intros Hl Hok. unfold removePlayer. simpl.
  set (ps := List.filter _ _).
  assert (length ps <= length (players g)) as Hle by apply List.filter_length_le.
  unfold indexOK in *.
  destruct (currentPlayerIndex g) as [n|] eqn:Hi; simpl.
  - destruct (Nat.leb_spec (length ps) n); simpl.
    + split; [done|]. destruct (length ps); [by right|left; lia].
    + rewrite Hi. split; [done|]. by left.
  - rewrite Hi. split; [done|]. destruct Hok. split; [lia|done].
Qed.

Lemma startRound_invariant random fuel g b g' :
  lobbyEmpty g -> indexOK g ->
  startRound random fuel g = Returns (b, g') ->
  lobbyEmpty g' /\ indexOK g'.
Proof.
  intros Hl Hok H. destruct b.
  - apply startRound_true in H as (Hlen & _ & _ & Hi & Hs).
    apply started_invariant; [done|]. unfold indexOK. rewrite Hi. left. lia.
  - by apply startRound_false in H as ->.
Qed.

Lemma reachable_invariant random g :
  reachable random g -> lobbyEmpty g /\ indexOK g.
Proof.
  induction 1 as [gid|g pid nm _ [Hl Hok]|g pid _ [Hl Hok]
                 |g fuel b g' _ [Hl Hok] Hrun|g a r g' _ [Hl Hok] Hrun].
  - split; [done|]. unfold indexOK. simpl. by right.
  - by apply addPlayer_invariant.
  - by apply removePlayer_invariant.
  - by eapply startRound_invariant.
  - by eapply act_invariant.
Qed.

(** C10. In every state the public operations can reach, a non-empty
    player list contains the current player index, so that
    [getCurrentPlayer] finds a player. *)
Theorem currentPlayerIndex_in_bounds random g :
  reachable random g -> players g <> [] ->
  exists n p, currentPlayerIndex g = Num n /\ n < length (players g) /\
              getCurrentPlayer g = Some p.
Proof.
  intros Hr Hne. apply reachable_invariant in Hr as [_ Hok].
  unfold indexOK, getCurrentPlayer in *.
  destruct (currentPlayerIndex g) as [n|].
  - destruct Hok as [Hlt|[_ Hnil]]; [|by apply nil_length in Hnil].
    destruct (lookup_lt_is_Some_2 _ _ Hlt) as [p Hp]. by exists n, p.
  - destruct Hok as [Hnil _]. by apply nil_length in Hnil.
Qed.

(** ** Failed calls *)

Lemma replaceCardInHand_Failure random i g e g' :
  replaceCardInHand random i g = Returns (Failure e, g') -> g' = g.
Proof.
  unfold replaceCardInHand, fail. intros H.
  destruct (drawnCard g); [|by simplify_eq].
  destruct (getCurrentPlayer g); [|done].
  destruct (validIndex _ _); [|by simplify_eq].
  by apply bind_Returns in H as (? & _ & [=]).
Qed.

Lemma chainDraw2_Success random c g r g' :
  chainDraw2 random c g = Returns (r, g') -> success r = true.
Proof. unfold chainDraw2. destruct (drawCard _ _). by intros [= <- _]. Qed.

(** The failures that change nothing: a call that reports a failure other
    than the "Deck empty" of the Draw-Two chain leaves the whole game as
    it was; for [drawFromDeck] this needs piles that hold cards only. *)
Lemma failure_leaves_state random a g e g' :
  act random a g = Returns (Failure e, g') ->
  e <> "Deck empty"%string ->
  (a = DrawFromDeck -> nullFree g) ->
  g' = g.
Proof.
  intros H He Hnull. destruct a; simpl in H.
  - unfold drawFromDiscardPile, fail in H. case_bool_decide; [by simplify_eq|].
    destruct (pop (discardPile g)) as [[rest [card|]]|] eqn:Hp; [|done|by simplify_eq].
    destruct (isPowerCard card); [|done]. simplify_eq.
    apply pop_Some in Hp. unfold pushDiscard, set_discardPile.
    destruct g; simpl in *. by subst.
  - unfold drawFromDeck, fail in H. case_bool_decide; [by simplify_eq|].
    destruct (drawCard random g) as [[c|] g1] eqn:Hd; [done|]. simplify_eq.
    destruct (drawCard_cases _ _ _ _ Hd) as [(_ & _ & ?)|Hp]; [done|].
    specialize (Hnull eq_refl). unfold nullFree in Hnull. rewrite <- Hp in Hnull.
    inversion Hnull as [|? ? Hc _]. by destruct Hc.
  - by eapply replaceCardInHand_Failure.
  - unfold discardDrawnCard, fail in H. destruct (drawnCard g); [|by simplify_eq].
    destruct (drawnFromDiscard g); [by simplify_eq|].
    by apply bind_Returns in H as (? & _ & [=]).
  - unfold usePeek, fail in H. destruct (drawnIs peek g); [|by simplify_eq].
    destruct (getCurrentPlayer g); [|done].
    destruct (validIndex _ _); [|by simplify_eq].
    by apply bind_Returns in H as (? & _ & [=]).
  - revert H. unfold useSwap, fail.
    destruct (drawnIs swap g); [|by intros [= <- <-]].
    destruct (findPlayer _ _) as [[oi opponent]|]; [|by intros [= <- <-]].
    destruct (getCurrentPlayer g); [|done].
    destruct (String.eqb _ _); [by intros [= <- <-]|].
    destruct (validIndex myCardIndex _); cbn [negb]; [|by intros [= <- <-]].
    destruct (validIndex opponentCardIndex _); cbn [negb]; [|by intros [= <- <-]].
    intros H. by apply bind_Returns in H as (? & _ & [=]).
  - unfold declineSwap, fail in H. destruct (drawnIs swap g); [|by simplify_eq].
    by apply bind_Returns in H as (? & _ & [=]).
  - unfold useDraw2, fail in H. destruct (drawnIs draw2 g); [|by simplify_eq].
    destruct (drawCard random _) as [[firstCard|] g2].
    + case_bool_decide; [|done]. by apply chainDraw2_Success in H.
    + by apply bind_Returns in H as (? & _ & [=]).
  - unfold handleDraw2Card, fail in H.
    destruct (draw2ChainActive g); cbn [negb] in H; [|by simplify_eq].
    assert ((if String.eqb action "discard" then discardDraw2Card random g
             else Returns (Failure "Invalid action", g)) = Returns (Failure e, g') ->
            g' = g) as Hdiscard.
    { clear H. intros H. destruct (String.eqb action "discard"); [|by simplify_eq].
      unfold discardDraw2Card in H. cbn zeta in H. destruct (0 <? _)%Z.
      - destruct (drawCard random _) as [[nextCard|] g2].
        + case_bool_decide; [|done]. by apply chainDraw2_Success in H.
        + by apply bind_Returns in H as (? & _ & [=]).
      - by apply bind_Returns in H as (? & _ & [=]). }
    destruct (String.eqb action "use" && notNull cardIndex); [|by apply Hdiscard].
    apply bind_Returns in H as ([result g1] & H1 & H).
    destruct result as [|e1]; cbn in H; [done|]. simplify_eq.
    by eapply replaceCardInHand_Failure.
  - unfold useAddCard, fail in H. destruct (drawnIs addcard g); [|by simplify_eq].
    destruct (drawCard random g) as [newCard g1].
    apply bind_Returns in H as (? & _ & H).
    by apply bind_Returns in H as (? & _ & [=]).
  - unfold knock, fail in H. destruct (truthyId _); [by simplify_eq|].
    destruct (getCurrentPlayer g); [|done].
    by apply bind_Returns in H as (? & _ & [=]).
Qed.

(** ** Card conservation *)

Lemma bag_nil : bag [] = ∅.
Proof. done. Qed.

Lemma bag_app l1 l2 : bag (l1 ++ l2) = bag l1 ⊎ bag l2.
Proof. unfold bag, cardsOf. by rewrite omap_app, list_to_set_disj_app. Qed.

Lemma bag_cons x l : bag (x :: l) = slotBag x ⊎ bag l.
Proof.
  destruct x; unfold bag, cardsOf; simpl; [done|].
  symmetry. apply (left_id ∅ (⊎)).
Qed.

Lemma bag_snoc l x : bag (l ++ [x]) = bag l ⊎ slotBag x.
Proof. rewrite bag_app, bag_cons, bag_nil. multiset_solver. Qed.

Lemma bag_Permutation l1 l2 : l1 ≡ₚ l2 -> bag l1 = bag l2.
Proof. intros H. unfold bag, cardsOf. by rewrite H. Qed.

Lemma bag_insert l i x y :
  l !! i = Some x -> bag (<[i:=y]> l) ⊎ slotBag x = slotBag y ⊎ bag l.
Proof.
  revert i. induction l as [|z l IH]; intros [|i] H; simplify_eq/=.
  - rewrite !bag_cons. multiset_solver.
  - rewrite !bag_cons. specialize (IH _ H). multiset_solver.
Qed.

Lemma handsBag_insert ps n p p' :
  ps !! n = Some p ->
  handsBag (<[n:=p']> ps) ⊎ bag (hand p) = bag (hand p') ⊎ handsBag ps.
Proof.
  revert n. induction ps as [|q ps IH]; intros [|n] H; simplify_eq/=.
  - multiset_solver.
  - specialize (IH _ H). multiset_solver.
Qed.

Lemma handsBag_app ps qs : handsBag (ps ++ qs) = handsBag ps ⊎ handsBag qs.
Proof. induction ps as [|p ps IH]; simpl; [|rewrite IH]; multiset_solver. Qed.

Lemma drawCard_bag random g c g1 :
  drawCard random g = (c, g1) ->
  bag (deck g1) ⊎ bag (discardPile g1) ⊎ slotBag c = bag (deck g) ⊎ bag (discardPile g).
Proof.
  intros H. destruct (drawCard_cases _ _ _ _ H) as [(_ & -> & ->)|Hp].
  - simpl. multiset_solver.
  - apply bag_Permutation in Hp. rewrite bag_cons, !bag_app in Hp.
    rewrite <- Hp. multiset_solver.
Qed.

Lemma endRound_roundEnded random g g' : endRound random g = Returns g' -> roundEnded g' = true.
Proof. intros H. apply endRound_frame in H as [_ ->]. done. Qed.

(** A turn end that leaves the round running keeps every card where it
    is and clears the pending one. *)
Lemma endTurn_cards random x g' :
  endTurn random x = Returns g' -> roundEnded g' = false ->
  deck g' = deck x /\ discardPile g' = discardPile x /\
  players g' = players x /\ drawnCard g' = None.
Proof.
  intros H Hr. destruct (endsRound x) eqn:He.
  - revert H. unfold endTurn, endsRound in *. cbn in *.
    apply andb_true_iff in He as [-> ->]. intros H.
    apply endRound_roundEnded in H. congruence.
  - apply endTurn_frame in H; [|done]. rewrite H. done.
Qed.

Lemma endTurn_cardBag random x g' :
  endTurn random x = Returns g' -> roundEnded g' = false ->
  drawnCard x = None -> cardBag g' = cardBag x.
Proof.
  intros H Hr Hd. apply endTurn_cards in H as (Hk & Hp & Hh & Hn); [|done].
  unfold cardBag. by rewrite Hk, Hp, Hh, Hn, Hd.
Qed.

Lemma getCurrentPlayer_Some g p :
  getCurrentPlayer g = Some p ->
  exists n, currentPlayerIndex g = Num n /\ players g !! n = Some p.
Proof.
  unfold getCurrentPlayer. destruct (currentPlayerIndex g) as [n|]; [|done].
  intros H. by exists n.
Qed.

Lemma isInteger_Integer cardIndex :
  isInteger cardIndex = true -> exists i, cardIndex = Integer i.
Proof. destruct cardIndex as [i| | |]; try done. by exists i. Qed.

(** With ['use'], [handleDraw2Card] passes on an index that is not [null]. *)
Lemma use_integer action cardIndex :
  isInteger cardIndex || negb (notNull cardIndex) = true ->
  String.eqb action "use" && notNull cardIndex = true ->
  exists i, cardIndex = Integer i.
Proof.
  intros Hint Huse. apply andb_true_iff in Huse as [_ Hn].
  rewrite Hn, orb_false_r in Hint. by apply isInteger_Integer.
Qed.

Lemma replaceCardInHand_cardBag random (i : Z) g r g' :
  replaceCardInHand random i g = Returns (r, g') -> roundEnded g' = false ->
  cardBag g' = cardBag g.
Proof.
  unfold replaceCardInHand, fail, handAt, replaceCard, setHandAt. cbn [indexKey].
  destruct (drawnCard g) as [drawn|] eqn:Hd; [|by intros [= <- <-]].
  destruct (getCurrentPlayer g) as [player|] eqn:Hcur; [|done].
  destruct (validIndex _ _) eqn:Hi; [|by intros [= <- <-]].
  intros H Hr. apply bind_Returns in H as (g4 & Hturn & [= <- <-]).
  apply endTurn_cardBag in Hturn as ->; [|done..].
  apply getCurrentPlayer_Some in Hcur as (n & Hn & Hp).
  apply validIndex_lt in Hi as [_ Hi].
  destruct (lookup_lt_is_Some_2 _ _ Hi) as [e He].
  unfold cardBag, setCurrentPlayer, pushDiscard. rewrite Hn, Hd, He. cbn.
  rewrite bag_snoc.
  pose proof (handsBag_insert _ _ _
                (set_hand (<[Z.to_nat i:=Some drawn]> (hand player)) player) Hp) as H1.
  pose proof (bag_insert _ _ _ (Some drawn) He) as H2.
  cbn [slotBag hand set_hand] in H1, H2.
  multiset_solver.
Qed.

Lemma discardDrawn_cardBag g : cardBag (discardDrawn g) = cardBag g.
Proof.
  unfold cardBag, discardDrawn, pushDiscard. cbn. rewrite bag_snoc. multiset_solver.
Qed.

Lemma power_cardBag random g g' :
  endTurn random (discardDrawn g) = Returns g' -> roundEnded g' = false ->
  cardBag g' = cardBag g.
Proof.
  intros H Hr. apply endTurn_cardBag in H as ->; [|done..].
  apply discardDrawn_cardBag.
Qed.

Lemma drawFromDiscardPile_cardBag g r g' :
  drawFromDiscardPile g = Returns (r, g') -> cardBag g' = cardBag g.
Proof.
  unfold drawFromDiscardPile, fail. case_bool_decide as Hd; [by intros [= <- <-]|].
  assert (drawnCard g = None) as Hnone by (by destruct (drawnCard g); [destruct Hd|]).
  destruct (pop (discardPile g)) as [[rest [card|]]|] eqn:Hp;
    [|done|by intros [= <- <-]].
  apply pop_Some in Hp.
  destruct (isPowerCard card); intros [= <- <-];
    unfold cardBag, pushDiscard; cbn; rewrite Hp, ?Hnone, ?bag_snoc; cbn;
    multiset_solver.
Qed.

Lemma drawFromDeck_cardBag random g r g' :
  drawFromDeck random g = Returns (r, g') -> cardBag g' = cardBag g.
Proof.
  unfold drawFromDeck, fail. case_bool_decide as Hd; [by intros [= <- <-]|].
  assert (drawnCard g = None) as Hnone by (by destruct (drawnCard g); [destruct Hd|]).
  destruct (drawCard random g) as [c g1] eqn:Hdraw.
  pose proof (drawCard_frame _ _ _ _ Hdraw) as Hf. frame_fields Hf.
  pose proof (drawCard_bag _ _ _ _ Hdraw) as Hb.
  destruct c as [card|]; intros [= <- <-]; unfold cardBag; cbn;
    rewrite ?Hfr, ?Hfr1, ?Hnone; cbn in *; multiset_solver.
Qed.

Lemma discardDrawnCard_cardBag random g r g' :
  discardDrawnCard random g = Returns (r, g') -> roundEnded g' = false ->
  cardBag g' = cardBag g.
Proof.
  unfold discardDrawnCard, fail.
  destruct (drawnCard g) as [drawn|] eqn:Hd; [|by intros [= <- <-]].
  destruct (drawnFromDiscard g); [by intros [= <- <-]|].
  intros H Hr. apply bind_Returns in H as (g1 & Hturn & [= <- <-]).
  apply endTurn_cardBag in Hturn as ->; [|done..].
  unfold cardBag, pushDiscard. cbn. rewrite Hd, bag_snoc. cbn. multiset_solver.
Qed.

Lemma usePeek_cardBag random i g r g' :
  usePeek random i g = Returns (r, g') -> roundEnded g' = false ->
  cardBag g' = cardBag g.
Proof.
  unfold usePeek, fail. destruct (drawnIs peek g); [|by intros [= <- <-]].
  destruct (getCurrentPlayer g); [|done].
  destruct (validIndex _ _); [|by intros [= <- <-]].
  intros H Hr. apply bind_Returns in H as (g1 & Hturn & [= <- <-]).
  by eapply power_cardBag.
Qed.

Lemma declineSwap_cardBag random g r g' :
  declineSwap random g = Returns (r, g') -> roundEnded g' = false ->
  cardBag g' = cardBag g.
Proof.
  unfold declineSwap, fail. destruct (drawnIs swap g); [|by intros [= <- <-]].
  intros H Hr. apply bind_Returns in H as (g1 & Hturn & [= <- <-]).
  by eapply power_cardBag.
Qed.

Lemma useSwap_cardBag random (i : Z) o (j : Z) g r g' :
  useSwap random i o j g = Returns (r, g') -> roundEnded g' = false ->
  cardBag g' = cardBag g.
Proof.
  unfold useSwap, fail, handAt, setHandAt, setKnownAt. cbn [indexKey]. destruct (drawnIs swap g); [|by intros [= <- <-]].
  destruct (findPlayer _ _) as [[oi opponent]|] eqn:Hfind; [|by intros [= <- <-]].
  destruct (getCurrentPlayer g) as [player|] eqn:Hcur; [|done].
  destruct (String.eqb_spec (id opponent) (id player)) as [|Hne]; [by intros [= <- <-]|].
  destruct (validIndex i _) eqn:Hi; cbn [negb]; [|by intros [= <- <-]].
  destruct (validIndex j _) eqn:Hj; cbn [negb]; [|by intros [= <- <-]].
  intros H Hr. apply bind_Returns in H as (g1 & Hturn & [= <- <-]).
  apply power_cardBag in Hturn as ->; [|done].
  apply getCurrentPlayer_Some in Hcur as (n & Hn & Hp).
  apply findPlayer_Some in Hfind as [Ho _].
  apply validIndex_lt in Hi as [_ Hi], Hj as [_ Hj].
  destruct (lookup_lt_is_Some_2 _ _ Hi) as [a Ha].
  destruct (lookup_lt_is_Some_2 _ _ Hj) as [b Hb].
  assert (n <> oi) as Hno by (intros ->; congruence).
  unfold cardBag, setCurrentPlayer. rewrite Hn, Ha, Hb. cbn.
  match goal with
  | |- context [handsBag (<[oi:=?o']> (<[n:=?p']> _))] =>
      pose proof (handsBag_insert _ _ _ p' Hp) as H1;
      pose proof (handsBag_insert (<[n:=p']> (players g)) oi opponent o') as H2
  end.
  rewrite list_lookup_insert_ne in H2 by done. specialize (H2 Ho).
  pose proof (bag_insert _ _ _ b Ha) as H3.
  pose proof (bag_insert _ _ _ a Hb) as H4.
  cbn [hand set_hand set_knownCards] in H1, H2. multiset_solver.
Qed.

Lemma chainDraw2_cardBag random c g r g' :
  drawnCard g = Some c ->
  chainDraw2 random c g = Returns (r, g') -> cardBag g' = cardBag g.
Proof.
  intros Hd. unfold chainDraw2. destruct (drawCard random _) as [nextCard g2] eqn:Hdraw.
  pose proof (drawCard_frame _ _ _ _ Hdraw) as Hf. frame_fields Hf.
  pose proof (drawCard_bag _ _ _ _ Hdraw) as Hb.
  intros [= <- <-]. unfold cardBag, pushDiscard in *. cbn in *.
  rewrite Hfr, Hd. rewrite bag_snoc in Hb. cbn in *. multiset_solver.
Qed.

Lemma useDraw2_cardBag random g r g' :
  useDraw2 random g = Returns (r, g') -> roundEnded g' = false ->
  cardBag g' = cardBag g.
Proof.
  unfold useDraw2, fail. destruct (drawnIs draw2 g); [|by intros [= <- <-]].
  destruct (drawCard random _) as [[firstCard|] g2] eqn:Hdraw;
    pose proof (drawCard_frame _ _ _ _ Hdraw) as Hf; frame_fields Hf;
    pose proof (drawCard_bag _ _ _ _ Hdraw) as Hb;
    unfold pushDiscard in Hb; cbn in Hb; rewrite bag_snoc in Hb.
  - case_bool_decide as Hty.
    + intros H Hr. apply chainDraw2_cardBag in H as ->; [|done].
      unfold cardBag. cbn. rewrite Hfr. multiset_solver.
    + intros [= <- <-] _. unfold cardBag. cbn. rewrite Hfr. multiset_solver.
  - intros H Hr. apply bind_Returns in H as (g3 & Hturn & [= <- <-]).
    apply endTurn_cardBag in Hturn as ->; [|done..].
    unfold cardBag. cbn. rewrite Hfr, Hfr1. cbn in *. multiset_solver.
Qed.

Lemma discardDraw2Card_cardBag random g r g' :
  discardDraw2Card random g = Returns (r, g') -> roundEnded g' = false ->
  cardBag g' = cardBag g.
Proof.
  unfold discardDraw2Card. cbn zeta. destruct (0 <? _)%Z.
  - destruct (drawCard random _) as [[nextCard|] g2] eqn:Hdraw;
      pose proof (drawCard_frame _ _ _ _ Hdraw) as Hf; frame_fields Hf;
      pose proof (drawCard_bag _ _ _ _ Hdraw) as Hb;
      unfold pushDiscard in Hb; cbn in Hb; rewrite bag_snoc in Hb.
    + case_bool_decide as Hty.
      * intros H Hr. apply chainDraw2_cardBag in H as ->; [|done].
        unfold cardBag. cbn. rewrite Hfr. multiset_solver.
      * intros [= <- <-] _. unfold cardBag. cbn. rewrite Hfr. multiset_solver.
    + intros H Hr. apply bind_Returns in H as (g3 & Hturn & [= <- <-]).
      apply endTurn_cardBag in Hturn as ->; [|done..].
      unfold cardBag. cbn. rewrite Hfr, Hfr1. cbn in *. multiset_solver.
  - intros H Hr. apply bind_Returns in H as (g3 & Hturn & [= <- <-]).
    apply endTurn_cardBag in Hturn as ->; [|done..].
    unfold cardBag, pushDiscard. cbn. rewrite bag_snoc. multiset_solver.
Qed.

Lemma handleDraw2Card_cardBag random action cardIndex g r g' :
  isInteger cardIndex || negb (notNull cardIndex) = true ->
  handleDraw2Card random action cardIndex g = Returns (r, g') ->
  roundEnded g' = false -> cardBag g' = cardBag g.
Proof.
  intros Hint. unfold handleDraw2Card, fail.
  destruct (draw2ChainActive g); cbn [negb]; [|by intros [= <- <-]].
  assert ((if String.eqb action "discard" then discardDraw2Card random g
           else Returns (Failure "Invalid action", g)) = Returns (r, g') ->
          roundEnded g' = false -> cardBag g' = cardBag g) as Hdiscard.
  { destruct (String.eqb action "discard"); [|by intros [= <- <-]].
    apply discardDraw2Card_cardBag. }
  destruct (String.eqb action "use" && notNull cardIndex) eqn:Huse; [|by apply Hdiscard].
  destruct (use_integer _ _ Hint Huse) as [i ->].
  intros H Hr. apply bind_Returns in H as ([result g1] & H1 & H).
  destruct (success result); simplify_eq;
    by apply replaceCardInHand_cardBag in H1 as <-.
Qed.

Lemma useAddCard_cardBag random g r g' :
  useAddCard random g = Returns (r, g') -> roundEnded g' = false ->
  cardBag g' = cardBag g.
Proof.
  unfold useAddCard, fail. destruct (drawnIs addcard g); [|by intros [= <- <-]].
  destruct (drawCard random g) as [newCard g1] eqn:Hdraw.
  pose proof (drawCard_frame _ _ _ _ Hdraw) as Hf. frame_fields Hf.
  pose proof (drawCard_bag _ _ _ _ Hdraw) as Hb.
  intros H Hr. apply bind_Returns in H as (g2 & H2 & H).
  apply bind_Returns in H as (g3 & Hturn & [= <- <-]).
  apply power_cardBag in Hturn as ->; [|done].
  destruct newCard as [c|].
  - destruct (getCurrentPlayer g1) as [p|] eqn:Hcur; [|done]. simplify_eq.
    apply getCurrentPlayer_Some in Hcur as (n & Hn & Hp).
    pose proof (handsBag_insert _ _ _ (addCard (Some c) p) Hp) as H1.
    unfold cardBag, setCurrentPlayer. rewrite Hn. cbn in *. rewrite bag_snoc in H1.
    rewrite <- Hfr, Hfr1. cbn in *. multiset_solver.
  - simplify_eq. unfold cardBag. rewrite Hfr, Hfr1. cbn in *. multiset_solver.
Qed.

Lemma knock_cardBag g r g' :
  drawnCard g = None -> knock g = Returns (r, g') -> cardBag g' = cardBag g.
Proof.
  intros Hd. unfold knock, fail. destruct (truthyId _); [by intros [= <- <-]|].
  destruct (getCurrentPlayer g); [|done].
  intros H. apply bind_Returns in H as (g2 & Hadv & [= <- <-]).
  apply advanceTurn_frame in Hadv. rewrite Hadv. unfold cardBag. cbn. by rewrite Hd.
Qed.

(** Between the start and the end of a round no action with integer
    card indices moves a card out of deck, discard pile, hands and
    pending card, or into them. *)
Lemma act_cardBag random a g r g' :
  integerIndices a = true ->
  (a = Knock -> drawnCard g = None) ->
  act random a g = Returns (r, g') -> roundEnded g' = false ->
  cardBag g' = cardBag g.
Proof.
  intros Hint Hk H Hr. destruct a; cbn [act integerIndices] in H, Hint.
  - by eapply drawFromDiscardPile_cardBag.
  - by eapply drawFromDeck_cardBag.
  - apply isInteger_Integer in Hint as [i ->]. by eapply replaceCardInHand_cardBag.
  - by eapply discardDrawnCard_cardBag.
  - by eapply usePeek_cardBag.
  - apply andb_true_iff in Hint as [[i ->]%isInteger_Integer [j ->]%isInteger_Integer].
    by eapply useSwap_cardBag.
  - by eapply declineSwap_cardBag.
  - by eapply useDraw2_cardBag.
  - by eapply handleDraw2Card_cardBag.
  - by eapply useAddCard_cardBag.
  - eapply knock_cardBag; [|done]. by apply Hk.
Qed.

Lemma bag_map_Some l : bag (map Some l) = list_to_set_disj l.
Proof.
  unfold bag, cardsOf. f_equal. induction l as [|c l IH]; [done|].
  cbn. by f_equal.
Qed.

Lemma dealCards_bag random n p g p' g' :
  dealCards random n p g = (p', g') ->
  g' = withPiles (deck g') (discardPile g') (tick g') g /\
  bag (deck g') ⊎ bag (discardPile g') ⊎ bag (hand p')
  = bag (deck g) ⊎ bag (discardPile g) ⊎ bag (hand p).
Proof.
  revert p g. induction n as [|n IH]; intros p g; simpl.
  - intros [= <- <-]. split; [by destruct g|done].
  - destruct (drawCard random g) as [c g1] eqn:Hdraw. intros H.
    pose proof (drawCard_frame _ _ _ _ Hdraw) as Hf.
    pose proof (drawCard_bag _ _ _ _ Hdraw) as Hb.
    destruct (IH _ _ H) as [Hf2 H']. split; [eapply withPiles_trans; eauto|].
    rewrite H'. cbn. rewrite bag_snoc. clear -Hb. multiset_solver.
Qed.

Lemma dealPlayers_bag random ps g ps' g' :
  dealPlayers random ps g = (ps', g') ->
  g' = withPiles (deck g') (discardPile g') (tick g') g /\
  bag (deck g') ⊎ bag (discardPile g') ⊎ handsBag ps'
  = bag (deck g) ⊎ bag (discardPile g).
Proof.
  revert g ps' g'. induction ps as [|p ps IH]; intros g ps' g'; cbn [dealPlayers].
  - intros [= <- <-]. split; [by destruct g|]. cbn. multiset_solver.
  - destruct (dealCards random 4 (set_knownCards [] (set_handProps [] (set_hand [] p))) g)
      as [p1 g1] eqn:Hdeal.
    destruct (dealPlayers random ps g1) as [rest g2] eqn:Hrest.
    intros [= <- <-]. apply dealCards_bag in Hdeal as [Hf1 H1].
    destruct (IH _ _ _ Hrest) as [Hf2 H2]. split; [eapply withPiles_trans; eauto|].
    cbn in *. rewrite bag_nil in H1. clear -H1 H2. multiset_solver.
Qed.

Lemma firstDiscard_bag random fuel c g card g' :
  firstDiscard random fuel c g = Returns (card, g') ->
  g' = withPiles (deck g') (discardPile g') (tick g') g /\
  bag (deck g') ⊎ bag (discardPile g') ⊎ {[+ card +]}
  = bag (deck g) ⊎ bag (discardPile g) ⊎ slotBag c.
Proof.
  revert c g. induction fuel as [|fuel IH]; intros c g; simpl;
    destruct c as [c0|]; try done; destruct (isPowerCard c0); try done;
    try (intros [= <- <-]; split; [by destruct g|done]).
  destruct (drawCard random _) as [c' g1] eqn:Hdraw. intros H.
  pose proof (drawCard_frame _ _ _ _ Hdraw) as Hf.
  pose proof (drawCard_bag _ _ _ _ Hdraw) as Hb.
  destruct (IH _ _ H) as [Hf2 H']. split.
  - eapply (withPiles_trans g g1); [|exact Hf2].
    eapply (withPiles_trans g _ g1); [|exact Hf].
    instantiate (1 := tick (shuffleDeck random (set_deck (Some c0 :: deck g) g))).
    instantiate (1 := discardPile g).
    instantiate (1 := deck (shuffleDeck random (set_deck (Some c0 :: deck g) g))).
    by destruct g.
  - rewrite H'. cbn in Hb.
    rewrite (bag_Permutation _ _ (fisherYates_Permutation _ _ _ _)), bag_cons in Hb.
    rewrite Hb. clear. multiset_solver.
Qed.

Lemma initializeDeck_frame random g :
  initializeDeck random g =
  withPiles (deck (initializeDeck random g)) (discardPile g)
    (tick (initializeDeck random g)) g.
Proof.
  unfold initializeDeck. generalize (map Some freshDeck). intros d. by destruct g.
Qed.

Lemma startRound_cardBag random fuel g0 g :
  drawnCard g0 = None ->
  startRound random fuel g0 = Returns (true, g) ->
  cardBag g = deckBag.
Proof.
  intros Hnone. unfold startRound. case_decide as Hn; [done|].
  pose proof (bag_Permutation _ _ (initializeDeck_Permutation random g0)) as Hdeck.
  rewrite bag_map_Some in Hdeck. fold deckBag in Hdeck.
  pose proof (f_equal drawnCard (initializeDeck_frame random g0)) as Hd1.
  cbn [drawnCard withPiles set_tick set_discardPile set_deck] in Hd1.
  rewrite Hnone in Hd1. revert Hdeck Hd1.
  generalize (initializeDeck random g0). generalize deckBag. clear.
  intros D g1 Hdeck Hd1.
  destruct (dealPlayers random _ _) as [ps g3] eqn:Hdeal.
  destruct (drawCard random _) as [c g5] eqn:Hdraw.
  intros H. apply bind_Returns in H as ([card g6] & Hfirst & [= <-]).
  apply dealPlayers_bag in Hdeal as [Hf3 H3].
  pose proof (drawCard_frame _ _ _ _ Hdraw) as Hf5.
  pose proof (drawCard_bag _ _ _ _ Hdraw) as H5.
  apply firstDiscard_bag in Hfirst as [Hf6 H6].
  assert (players g6 = ps) as Hps.
  { rewrite (f_equal players Hf6). cbn. by rewrite (f_equal players Hf5). }
  assert (drawnCard g6 = None) as Hd6.
  { rewrite (f_equal drawnCard Hf6). cbn. rewrite (f_equal drawnCard Hf5). cbn.
    by rewrite (f_equal drawnCard Hf3). }
  unfold cardBag, pushDiscard. cbn in *.
  rewrite bag_snoc, Hps, Hd6. rewrite Hdeck, bag_nil in H3.
  revert H3 H5 H6. clear. intros. multiset_solver.
Qed.

Lemma size_list_to_set_disj (l : list Card) :
  size (list_to_set_disj l : gmultiset Card) = length l.
Proof.
  induction l as [|c l IH]; [done|]. cbn [list_to_set_disj foldr length].
  change (size ({[+ c +]} ⊎ (list_to_set_disj l : gmultiset Card)) = S (length l)).
  by rewrite gmultiset_size_disj_union, gmultiset_size_singleton, IH.
Qed.

Lemma size_handsBag ps :
  size (handsBag ps) = sum_list (map (fun p => length (cardsOf (hand p))) ps).
Proof.
  induction ps as [|p ps IH]; [done|]. cbn [handsBag map sum_list].
  rewrite gmultiset_size_disj_union, IH. unfold bag.
  by rewrite size_list_to_set_disj.
Qed.

Lemma cardCount_size g : cardCount g = size (cardBag g).
Proof.
  unfold cardCount, cardBag. rewrite !gmultiset_size_disj_union, size_handsBag.
  unfold bag. rewrite !size_list_to_set_disj.
  destruct (drawnCard g); cbn [slotBag cardsOf omap list_omap length];
    by rewrite ?gmultiset_size_singleton, ?gmultiset_size_empty.
Qed.

Lemma size_deckBag : size deckBag = 56.
Proof. unfold deckBag. by rewrite size_list_to_set_disj. Qed.

(** C1, as the code has it: in every state of a round played with integer
    card indices the cards in the deck, in the discard pile, in the hands
    and the pending drawn card together are exactly the 56 cards
    [initializeDeck] builds. *)
Theorem cards_conserved random g :
  inRound random g -> cardBag g = deckBag /\ cardCount g = 56.
Proof.
  intros H. assert (cardBag g = deckBag) as Hbag.
  { induction H as [g0 fuel g Hnone Hstart|g a r g' _ IH Hint Hk Hact Hr].
    - by eapply startRound_cardBag.
    - rewrite <- IH. by eapply act_cardBag. }
  split; [done|]. by rewrite cardCount_size, Hbag, size_deckBag.
Qed.

(** ** The scripted game *)

Lemma run_reachable random acts g g' :
  reachable random g -> run random acts g = Returns g' -> reachable random g'.
Proof.
  revert g. induction acts as [|a acts IH]; intros g Hr; simpl.
  - by intros [= <-].
  - intros H. apply bind_Returns in H as ([r g1] & Ha & H).
    eapply IH; [|exact H]. by eapply reach_act.
Qed.

Lemma lobby3_reachable : reachable scripted lobby3.
Proof. do 3 apply reach_addPlayer. apply reach_new. Qed.

Lemma gameA_started : startRound scripted 0 lobby3 = Returns (true, gameA).
Proof. vm_compute. reflexivity. Qed.

Lemma gameA_reachable : reachable scripted gameA.
Proof. eapply reach_startRound; [apply lobby3_reachable|apply gameA_started]. Qed.

Lemma gameA_inRound : inRound scripted gameA.
Proof. eapply round_start; [|apply gameA_started]. reflexivity. Qed.

Lemma gameA1_inRound : inRound scripted gameA1.
Proof.
  apply (round_step scripted gameA DrawFromDeck (Success (Drew (powerCard draw2) false)));
    [apply gameA_inRound|done|discriminate|vm_compute; reflexivity..].
Qed.

(** C1, counterexample: right after [startRound] deck, discard pile and
    hands hold 56 entries, not 72, and 55 once a card is drawn and
    pending. *)
Lemma zone_count_counterexample :
  inRound scripted gameA /\ zoneSize gameA = 56 /\
  inRound scripted gameA1 /\ zoneSize gameA1 = 55.
Proof.
  split_and!; [apply gameA_inRound|vm_compute; reflexivity
              |apply gameA1_inRound|vm_compute; reflexivity].
Qed.

Lemma cards_conserved_witness :
  inRound scripted gameA1 /\ cardBag gameA1 = deckBag /\ cardCount gameA1 = 56.
Proof.
  assert (inRound scripted gameA1) as H.
  { apply (round_step scripted gameA DrawFromDeck (Success (Drew (powerCard draw2) false))).
    - apply (round_start scripted lobby3 0); [reflexivity|vm_compute; reflexivity].
    - reflexivity.
    - discriminate.
    - vm_compute; reflexivity.
    - vm_compute; reflexivity. }
  split; [exact H|]. exact (cards_conserved scripted gameA1 H).
Defined.

(** An index that is no integer takes a card out of the count: Alice has
    drawn a card and "replaces slot 1.5" with it.  The call succeeds and
    the round goes on; [undefined] is pushed on the discard pile, and the
    card she drew is in no pile, in no hand slot and not pending: 55
    cards are left. *)
Lemma card_leaves_with_fraction :
  inRound scripted gameA1 /\ cardCount gameA1 = 56 /\
  exists g', act scripted (ReplaceCardInHand (Other (Some 1%Z) "1.5")) gameA1
             = Returns (Success Plain, g') /\
    roundEnded g' = false /\ drawnCard g' = None /\
    discardPile g' = discardPile gameA1 ++ [None] /\ cardCount g' = 55.
Proof.
  split; [apply gameA1_inRound|]. split; [vm_compute; reflexivity|].
  eexists. split; [vm_compute; reflexivity|]. by vm_compute.
Qed.

Lemma gameReshuffled_reachable : reachable scripted gameReshuffled.
Proof.
  apply (run_reachable scripted staleChain gameA); [apply gameA_reachable|].
  vm_compute. reflexivity.
Qed.

Lemma gameNullOnTop_reachable : reachable scripted gameNullOnTop.
Proof.
  apply (run_reachable scripted [DiscardDrawnCard; DrawFromDeck; DiscardDrawnCard]
           gameReshuffled); [apply gameReshuffled_reachable|].
  vm_compute. reflexivity.
Qed.

Lemma gameDraw2OverNull_reachable : reachable scripted gameDraw2OverNull.
Proof.
  apply (run_reachable scripted [DiscardDrawnCard; DrawFromDeck] gameReshuffled);
    [apply gameReshuffled_reachable|].
  vm_compute. reflexivity.
Qed.

(** C2, at the failing input: the reshuffle has brought a [null] entry
    into the deck and Alice has drawn the Draw-Two that lay on it.  Her
    [useDraw2] discards the Draw-Two, pops the [null], ends her turn and
    then reports the failure "Deck empty": the discard pile, the deck,
    the pending card, the turn and the chain counter have all changed,
    with 41 entries left in the deck.  One turn later [drawFromDeck] meets
    the same entry in the same way: it reports "Deck is empty" after it
    has popped it. *)
Theorem failed_call_changes_state :
  reachable scripted gameDraw2OverNull /\
  drawnCard gameDraw2OverNull = Some (powerCard draw2) /\
  last (deck gameDraw2OverNull) = Some None /\
  (exists g', act scripted UseDraw2 gameDraw2OverNull
              = Returns (Failure "Deck empty", g') /\
     discardPile g' = discardPile gameDraw2OverNull ++ [Some (powerCard draw2)] /\
     length (deck gameDraw2OverNull) = 42 /\ length (deck g') = 41 /\
     drawnCard g' = None /\
     currentPlayerIndex gameDraw2OverNull = Num 0 /\ currentPlayerIndex g' = Num 1 /\
     draw2CardsRemaining gameDraw2OverNull = 0%Z /\ draw2CardsRemaining g' = 2%Z) /\
  reachable scripted gameNullOnTop /\
  drawnCard gameNullOnTop = None /\
  (exists g', act scripted DrawFromDeck gameNullOnTop
              = Returns (Failure "Deck is empty", g') /\
     length (deck gameNullOnTop) = 42 /\ length (deck g') = 41).
Proof.
  split_and!.
  - apply gameDraw2OverNull_reachable.
  - vm_compute. reflexivity.
  - vm_compute. reflexivity.
  - eexists. split; [vm_compute; reflexivity|]. by vm_compute.
  - apply gameNullOnTop_reachable.
  - vm_compute. reflexivity.
  - eexists. split; [vm_compute; reflexivity|]. by vm_compute.
Qed.

(** C3, at the failing input: the three Draw-Two cards are on top of the
    deck; Alice has drawn the first and plays it; the second is discarded
    as a chained Draw-Two, and the third becomes the pending card of the
    open chain. *)
Theorem chained_draw2_stays_pending :
  reachable scripted gameA1 /\
  drawnCard gameA1 = Some (powerCard draw2) /\
  act scripted UseDraw2 gameA1
  = Returns (Success (Chain (Some (powerCard draw2)) (Some true) 2), gameA2) /\
  drawnCard gameA2 = Some (powerCard draw2) /\
  draw2ChainActive gameA2 = true /\ draw2CardsRemaining gameA2 = 2%Z /\
  discardPile gameA2
  = [Some (numberCard 2); Some (powerCard draw2); Some (powerCard draw2)].
Proof.
  split_and!; try (vm_compute; reflexivity).
  eapply reach_act; [apply gameA_reachable|].
  instantiate (1 := Success (Drew (powerCard draw2) false)). instantiate (1 := DrawFromDeck).
  vm_compute. reflexivity.
Qed.

(** C4, at the failing input: after a reshuffle that brought a [null]
    entry into the deck, Bob draws a Draw-Two and plays it; the next
    card is a Draw-Two too, and the draw that follows it pops the [null]:
    the call reports success, the chain stays active, no card is
    pending and the turn has not passed. *)
Theorem chain_left_without_card :
  reachable scripted gameReshuffled /\
  drawnCard gameReshuffled = Some (powerCard draw2) /\
  drop 40 (deck gameReshuffled) = [Some (powerCard addcard); None; Some (powerCard draw2)] /\
  exists g', act scripted UseDraw2 gameReshuffled
             = Returns (Success (Chain None (Some true) 2), g') /\
    draw2ChainActive g' = true /\ drawnCard g' = None /\
    currentPlayerIndex g' = currentPlayerIndex gameReshuffled.
Proof.
  split_and!; [apply gameReshuffled_reachable|vm_compute; reflexivity..|].
  eexists. split; [vm_compute; reflexivity|]. by vm_compute.
Qed.

Lemma gameLastSwap_reachable : reachable scripted gameLastSwap.
Proof.
  apply (run_reachable scripted lastSwapMoves gameA); [apply gameA_reachable|].
  vm_compute. reflexivity.
Qed.

(** C5, counterexample: Kim has knocked and Alice is the last to play;
    she swaps her slot 0 with Kim's slot 0, which holds a Peek.  The call
    succeeds and ends the round, and the end of the round replaces the
    Peek she received by a 4 and marks it known. *)
Lemma swap_at_round_end_counterexample :
  reachable scripted gameLastSwap /\
  slotAt gameLastSwap 1 0 = Some (Some (powerCard peek)) /\
  exists g', act scripted (UseSwap 0 "k" 0) gameLastSwap
             = Returns (Success (SwappedWith "Kim"), g') /\
    slotAt g' 0 0 = Some (Some (numberCard 4)) /\ knownAt g' 0 0 = true.
Proof.
  split_and!; [apply gameLastSwap_reachable|vm_compute; reflexivity|].
  eexists. split; [vm_compute; reflexivity|]. by vm_compute.
Qed.

Lemma useSwap_exchanges_witness :
  endsRound gameSwap = false /\
  exists me opp : nat,
    currentPlayerIndex gameSwap = Num me /\
    (fst <$> findPlayer "a" (players gameSwap)) = Some opp /\
    me <> opp /\
    slotAt (stateOf (useSwap scripted 1 "a" 2 gameSwap) gameSwap) me 1
    = slotAt gameSwap opp 2 /\
    slotAt (stateOf (useSwap scripted 1 "a" 2 gameSwap) gameSwap) opp 2
    = slotAt gameSwap me 1.
Proof.
  assert (endsRound gameSwap = false) as He by (vm_compute; reflexivity).
  split; [exact He|].
  destruct (useSwap_exchanges scripted 1 "a" 2 gameSwap (SwappedWith "Alice")
              (stateOf (useSwap scripted 1 "a" 2 gameSwap) gameSwap))
    as (me & opp & H1 & H2 & H3 & H4 & H5 & _);
    [vm_compute; reflexivity|exact He|].
  exists me, opp. repeat split; assumption.
Defined.

Lemma startRound_deal_witness :
  startRound scripted 0 (newGame "G") = Returns (false, newGame "G") /\
  2 <= length (players gameA) /\
  Forall (fun p => length (hand p) = 4 /\ Forall is_Some (hand p) /\
                   knownCards p = [false; false; false; false]) (players gameA) /\
  (exists c, discardPile gameA = [Some c] /\ type c = number) /\
  currentPlayerIndex gameA = Num 0 /\ gameStarted gameA = true.
Proof.
  split.
  - apply (proj1 (startRound_deal scripted 0 (newGame "G"))). simpl. lia.
  - apply (proj2 (startRound_deal scripted 0 lobby3)). vm_compute. reflexivity.
Defined.

Lemma getGameState_hides_witness :
  roundEnded gameA1 = false /\ sameFor "k" gameA1 gameA1' /\
  slotAt gameA1 0 1 <> slotAt gameA1' 0 1 /\
  drawnCard gameA1 <> drawnCard gameA1' /\
  getGameState "k" gameA1 = getGameState "k" gameA1'.
Proof.
  assert (roundEnded gameA1 = false) as Hr by (vm_compute; reflexivity).
  assert (sameFor "k" gameA1 gameA1') as Hs.
  { unfold sameFor. split_and!.
    13: vm_compute; repeat constructor; discriminate.
    13: vm_compute; discriminate.
    all: vm_compute; reflexivity. }
  split; [exact Hr|]. split; [exact Hs|].
  split; [vm_compute; discriminate|]. split; [vm_compute; discriminate|].
  exact (getGameState_hides "k" gameA1 gameA1' Hr Hs).
Defined.

Lemma gameKnocked_reachable : reachable scripted gameKnocked.
Proof.
  apply (run_reachable scripted knockMoves gameA); [apply gameA_reachable|].
  vm_compute. reflexivity.
Qed.

(** C8, at the failing input: Alice, Kim and Bob play; Alice draws and
    discards, Kim knocks and the turn passes to Bob; then Alice leaves.
    The index 2 no longer exists, [removePlayer] puts it back to 0, and
    the current player is Kim, the knocker, in the running final round. *)
Theorem removal_gives_turn_to_knocker :
  reachable scripted gameKnocked /\
  knockerId gameKnocked = Some "k"%string /\
  id <$> getCurrentPlayer gameKnocked = Some "b"%string /\
  reachable scripted gameRemoved /\
  roundEnded gameRemoved = false /\ finalRoundActive gameRemoved = true /\
  knockerId gameRemoved = Some "k"%string /\
  id <$> getCurrentPlayer gameRemoved = Some "k"%string.
Proof.
  split_and!; try (vm_compute; reflexivity).
  - apply gameKnocked_reachable.
  - apply reach_removePlayer, gameKnocked_reachable.
Qed.

(** C9, at the failing input: a [null] entry is on top of a deck of 42
    entries, Alice holds a Draw-Two in slot 0 and Kim a Peek in slot 0.
    [endRound] starts with Alice's Draw-Two: the draw pops the [null] and
    the loop takes the [break] meant for an empty deck.  The slot keeps
    the Draw-Two, unknown, although the deck is far from exhausted: the
    next draw replaces Kim's Peek by a 9, and 35 cards are left in the
    deck when the round has ended. *)
Theorem power_card_kept_with_cards_left :
  reachable scripted gameNullOnTop /\
  slotAt gameNullOnTop 0 0 = Some (Some (powerCard draw2)) /\
  slotAt gameNullOnTop 1 0 = Some (Some (powerCard peek)) /\
  length (deck gameNullOnTop) = 42 /\ last (deck gameNullOnTop) = Some None /\
  exists g', endRound scripted gameNullOnTop = Returns g' /\
    roundEnded g' = true /\
    slotAt g' 0 0 = Some (Some (powerCard draw2)) /\ knownAt g' 0 0 = false /\
    slotAt g' 1 0 = Some (Some (numberCard 9)) /\ knownAt g' 1 0 = true /\
    length (cardsOf (deck g')) = 35.
Proof.
  split_and!; [apply gameNullOnTop_reachable|vm_compute; reflexivity..|].
  eexists. split; [vm_compute; reflexivity|]. by vm_compute.
Qed.

Lemma currentPlayerIndex_in_bounds_witness :
  reachable scripted gameA /\ players gameA <> [] /\
  exists n p, currentPlayerIndex gameA = Num n /\ n < length (players gameA) /\
              getCurrentPlayer gameA = Some p.
Proof.
  assert (reachable scripted gameA) as Hr.
  { apply (reach_startRound scripted lobby3 0 true).
    - do 3 apply reach_addPlayer. apply reach_new.
    - vm_compute. reflexivity. }
  assert (players gameA <> []) as Hne by (vm_compute; discriminate).
  split; [exact Hr|]. split; [exact Hne|].
  exact (currentPlayerIndex_in_bounds scripted gameA Hr Hne).
Defined.

(** ** Shuffling and drawing *)

(** X1 (shuffleDeck): for every random stream the shuffle only reorders
    the deck, and touches nothing else of the game; it asks for one random
    value per deck position but the first. *)
Theorem shuffleDeck_permutes random g :
  deck (shuffleDeck random g) ≡ₚ deck g /\
  shuffleDeck random g =
    withPiles (deck (shuffleDeck random g)) (discardPile g)
      (tick g + (length (deck g) - 1)) g.
Proof. split; [apply fisherYates_Permutation|by destruct g]. Qed.

Lemma copies_Permutation c l1 l2 : l1 ≡ₚ l2 -> copies c l1 = copies c l2.
Proof. intros H. unfold copies. by rewrite H. Qed.

(** X2 (initializeDeck): whatever the random stream and the game it is
    called on, the new deck has 56 entries: four copies of each Number
    card 0..8, nine 9s, three Peek, three Swap, three Draw-Two and two
    Add-Card cards. *)
Theorem initializeDeck_composition random g :
  let d := deck (initializeDeck random g) in
  length d = 56 /\
  (forall v, v <= 8 -> copies (numberCard v) d = 4) /\
  copies (numberCard 9) d = 9 /\
  copies (powerCard peek) d = 3 /\ copies (powerCard swap) d = 3 /\
  copies (powerCard draw2) d = 3 /\ copies (powerCard addcard) d = 2.
Proof.
  intros d. pose proof (initializeDeck_Permutation random g) as HP.
  fold d in HP. clearbody d.
  split; [by rewrite HP|].
  split.
  { intros v Hv. rewrite (copies_Permutation _ _ _ HP).
    do 9 (destruct v as [|v]; [by vm_compute|]). lia. }
  rewrite !(copies_Permutation _ _ _ HP). by vm_compute.
Qed.

(** X3 (drawCard): on piles that hold cards only, [drawCard] returns
    [null] exactly when the deck is empty and the discard pile has at most
    one card, and then changes nothing; otherwise it returns a card and
    takes exactly that card out of the piles; a non-empty deck loses its
    last entry and the discard pile is left alone, an empty one is refilled
    from the discard pile, which keeps its top card only. *)
Theorem drawCard_spec random g c g1 :
  nullFree g ->
  drawCard random g = (c, g1) ->
  (c = None <-> exhausted g) /\
  (c = None -> g1 = g) /\
  nullFree g1 /\
  g1 = withPiles (deck g1) (discardPile g1) (tick g1) g /\
  slotBag c ⊎ bag (deck g1) ⊎ bag (discardPile g1) = bag (deck g) ⊎ bag (discardPile g) /\
  (deck g <> [] -> deck g = deck g1 ++ [c] /\ discardPile g1 = discardPile g) /\
  (deck g = [] -> c <> None ->
   exists top, last (discardPile g) = Some top /\ discardPile g1 = [top]).
Proof.
  intros Hnf H.
  pose proof (drawCard_cases _ _ _ _ H) as Hc.
  pose proof (drawCard_nullFree _ _ _ _ H Hnf) as [Hnf1 Hex].
  pose proof (drawCard_bag _ _ _ _ H) as Hb.
  split_and!.
  - split.
    + intros ->. destruct Hc as [(? & _)|HP]; [done|].
      exfalso. apply Permutation_sym in HP.
      unfold nullFree in Hnf. rewrite HP in Hnf. by inversion Hnf as [|? ? []].
    + intros He. rewrite (exhausted_drawCard _ _ He) in H. congruence.
  - intros ->. destruct Hc as [(? & _ & ?)|HP]; [done|].
    exfalso. apply Permutation_sym in HP.
    unfold nullFree in Hnf. rewrite HP in Hnf. by inversion Hnf as [|? ? []].
  - done.
  - by eapply drawCard_frame.
  - clear -Hb. multiset_solver.
  - intros Hne. unfold drawCard in H. rewrite refillDeck_nonempty in H by done.
    destruct (pop (deck g)) as [[rest x]|] eqn:Hp.
    + apply pop_Some in Hp. injection H as <- <-. by simpl.
    + by apply pop_None in Hp.
  - intros He Hcn. unfold drawCard, refillDeck in H. rewrite He in H.
    destruct (pop (discardPile g)) as [[rest top]|] eqn:Hp.
    + destruct (decide (1 < length (discardPile g))).
      * exists top. split; [by apply pop_Some in Hp as ->; rewrite last_snoc|].
        destruct (pop (deck _)) as [[r x]|]; injection H as <- <-; done.
      * simpl in H. rewrite He in H. simpl in H. injection H as <- <-. done.
    + simpl in H. rewrite He in H. simpl in H. injection H as <- <-. done.
Qed.

Lemma drawCard_spec_witness :
  nullFree gameA /\
  exists c g1, drawCard scripted gameA = (c, g1) /\ (c = None <-> exhausted gameA).
Proof.
  assert (Hnf : nullFree gameA).
  { unfold nullFree. vm_compute. repeat (constructor; [eexists; reflexivity|]). constructor. }
  split; [exact Hnf|].
  destruct (drawCard scripted gameA) as [c g1] eqn:H.
  exists c, g1. split; [done|].
  exact (proj1 (drawCard_spec scripted gameA c g1 Hnf H)).
Defined.

(** ** What the turn actions do *)

Lemma endTurn_keeps random x g' :
  endsRound x = false -> endTurn random x = Returns g' ->
  players g' = players x /\ deck g' = deck x /\ discardPile g' = discardPile x /\
  drawnCard g' = None /\ drawnFromDiscard g' = false /\
  roundEnded g' = roundEnded x /\ knockerId g' = knockerId x /\
  finalRoundActive g' = finalRoundActive x /\
  draw2ChainActive g' = draw2ChainActive x /\
  draw2CardsRemaining g' = draw2CardsRemaining x /\
  gameStarted g' = gameStarted x /\ tick g' = tick x.
Proof. intros He H. apply endTurn_frame in H; [|done]. by rewrite H. Qed.





(** X6 (declineSwap): a successful call that does not end the round only
    discards the Swap card: hands, known masks and the deck are as
    before. *)
Theorem declineSwap_effect random g r g' :
  declineSwap random g = Returns (Success r, g') ->
  endsRound g = false ->
  drawnIs swap g = true /\
  players g' = players g /\ deck g' = deck g /\
  discardPile g' = discardPile g ++ [drawnCard g] /\ drawnCard g' = None.
Proof.
  unfold declineSwap. destruct (drawnIs swap g) eqn:Hsw; [|done].
  intros H Hend. apply bind_Returns in H as (g1 & Hturn & [= _ <-]).
  apply endTurn_keeps in Hturn as (Hps & Hdk & Hdp & Hdc & _); [|done].
  by rewrite Hps, Hdk, Hdp, Hdc.
Qed.

Lemma declineSwap_effect_witness :
  endsRound gameSwap = false /\
  players (stateOf (declineSwap scripted gameSwap) gameSwap) = players gameSwap.
Proof.
  assert (endsRound gameSwap = false) as He by (vm_compute; reflexivity).
  split; [exact He|].
  apply (declineSwap_effect scripted gameSwap Plain
           (stateOf (declineSwap scripted gameSwap) gameSwap));
    [vm_compute; reflexivity|exact He].
Defined.

(** X7 (useAddCard): a successful call draws one card; when the draw gives
    a card it is appended, unknown, to the current player's hand, and when
    the piles can give none the call still succeeds and every hand stays as
    it is.  Either way the Add-Card card goes on the discard pile (turn not
    ending the round). *)
Theorem useAddCard_effect random g r g' :
  useAddCard random g = Returns (Success r, g') ->
  endsRound g = false ->
  exists newCard g1,
    drawnIs addcard g = true /\
    drawCard random g = (newCard, g1) /\ r = Added newCard /\
    deck g' = deck g1 /\ discardPile g' = discardPile g1 ++ [drawnCard g] /\
    drawnCard g' = None /\
    match newCard with
    | Some c =>
        exists me p, currentPlayerIndex g = Num me /\ players g !! me = Some p /\
          players g' = <[me := addCard (Some c) p]> (players g)
    | None => players g' = players g
    end.
Proof.
  unfold useAddCard. destruct (drawnIs addcard g) eqn:Hadd; [|done].
  destruct (drawCard random g) as [newCard g1] eqn:Hdraw.
  intros H Hend.
  apply bind_Returns in H as (g2 & Hg2 & H).
  apply bind_Returns in H as (g3 & Hturn & [= <- <-]).
  pose proof (drawCard_frame _ _ _ _ Hdraw) as Hfr. frame_fields Hfr.
  exists newCard, g1. destruct newCard as [c|].
  - destruct (getCurrentPlayer g1) as [p|] eqn:Hcur; [|done].
    injection Hg2 as <-.
    apply getCurrentPlayer_Some in Hcur as (me & Hidx & Hp).
    unfold setCurrentPlayer in Hturn. rewrite Hidx in Hturn.
    apply endTurn_keeps in Hturn as (Hps & Hdk & Hdp & Hdc & _);
      [|by rewrite <- Hend; unfold endsRound; simpl; rewrite !length_insert; congruence].
    rewrite Hps, Hdk, Hdp, Hdc. simpl. split_and!; try done; try congruence.
    exists me, p. split_and!; congruence.
  - injection Hg2 as <-.
    apply endTurn_keeps in Hturn as (Hps & Hdk & Hdp & Hdc & _);
      [|by rewrite <- Hend; unfold endsRound; simpl; congruence].
    rewrite Hps, Hdk, Hdp, Hdc. simpl. split_and!; try done; congruence.
Qed.

Lemma useAddCard_effect_witness :
  let g := set_drawnCard (Some (powerCard addcard)) gameA in
  endsRound g = false /\
  exists newCard g1,
    drawCard scripted g = (newCard, g1) /\
    deck (stateOf (useAddCard scripted g) g) = deck g1 /\
    drawnCard (stateOf (useAddCard scripted g) g) = None.
Proof.
  intros g.
  assert (endsRound g = false) as He by (vm_compute; reflexivity).
  split; [exact He|].
  destruct (useAddCard_effect scripted g (Added (Some (powerCard draw2)))
              (stateOf (useAddCard scripted g) g))
    as (newCard & g1 & _ & Hdraw & _ & Hdk & _ & Hdc & _);
    [vm_compute; reflexivity|exact He|].
  exists newCard, g1. exact (conj Hdraw (conj Hdk Hdc)).
Defined.

(** ** Knocking *)

Lemma advanceTurn_lands fuel g g' :
  advanceTurn fuel true g = Returns g' ->
  exists q, getCurrentPlayer g' = Some q /\ isKnocker g' q = false.
Proof.
  revert g. induction fuel as [|fuel IH]; intros g; simpl;
    (destruct (getCurrentPlayer (set_currentPlayerIndex _ g)) as [p|] eqn:Hcur;
       [|intros [=]]);
    (destruct (isKnocker _ p) eqn:Hk; [|intros [= <-]; by exists p]); [intros [=]|].
  apply IH.
Qed.

(** X8 (knock): a successful knock records the current player as knocker,
    starts the final round with no turn counted, and hands the turn to a
    player with another id.  Deck, discard pile and hands stay as they
    are, and the pending card is cleared without being discarded: a card
    drawn before knocking is in no pile and no hand afterwards. *)
Theorem knock_effect g r g' :
  knock g = Returns (Success r, g') ->
  exists p q,
    getCurrentPlayer g = Some p /\ truthyId (knockerId g) = false /\
    knockerId g' = Some (id p) /\ finalRoundActive g' = true /\
    playersCompletedFinalTurn g' = 0 /\
    getCurrentPlayer g' = Some q /\ id q <> id p /\
    players g' = players g /\ deck g' = deck g /\ discardPile g' = discardPile g /\
    drawnCard g' = None /\
    cardBag g = cardBag g' ⊎ slotBag (drawnCard g).
Proof.
  unfold knock. destruct (truthyId (knockerId g)) eqn:Hk; [done|].
  destruct (getCurrentPlayer g) as [p|] eqn:Hcur; [|done].
  intros H. apply bind_Returns in H as (g2 & Hadv & [= _ <-]).
  destruct (advanceTurn_lands _ _ _ Hadv) as (q & Hq & Hnk).
  apply advanceTurn_frame in Hadv. frame_fields Hadv.
  pose proof (f_equal deck Hadv) as Hdk. pose proof (f_equal discardPile Hadv) as Hdp.
  simpl in Hdk, Hdp.
  exists p, q. split_and!; try done.
  - unfold isKnocker in Hnk. rewrite Hfr5 in Hnk.
    intros Heq. rewrite Heq, String.eqb_refl in Hnk. done.
  - unfold cardBag. rewrite Hfr, Hfr1, Hdk, Hdp. simpl. multiset_solver.
Qed.

Lemma knock_effect_witness :
  drawnCard gameA1 = Some (powerCard draw2) /\
  exists p q,
    getCurrentPlayer gameA1 = Some p /\
    knockerId (stateOf (knock gameA1) gameA1) = Some (id p) /\
    getCurrentPlayer (stateOf (knock gameA1) gameA1) = Some q /\ id q <> id p /\
    cardBag gameA1 = cardBag (stateOf (knock gameA1) gameA1) ⊎ {[+ powerCard draw2 +]}.
Proof.
  split; [vm_compute; reflexivity|].
  destruct (knock_effect gameA1 Plain (stateOf (knock gameA1) gameA1))
    as (p & q & H1 & _ & H3 & _ & _ & H6 & H7 & _ & _ & _ & _ & H12);
    [vm_compute; reflexivity|].
  exists p, q. exact (conj H1 (conj H3 (conj H6 (conj H7 H12)))).
Defined.

(** X9 (knock): when every player of the game carries the current
    player's id -- a player alone in the game, or one who joined twice --
    the loop of [knock] that looks for a player who is not the knocker
    never stops: no number of iterations lets it return. *)
Theorem knock_never_returns g p :
  truthyId (knockerId g) = false ->
  getCurrentPlayer g = Some p ->
  Forall (fun q => id q = id p) (players g) ->
  knock g = NoReturn /\
  forall fuel, advanceTurn fuel true (knocked p g) = NoReturn.
Proof.
  intros Hk Hcur Hall.
  assert (forall fuel, advanceTurn fuel true (knocked p g) = NoReturn) as Hloop.
  { intros fuel.
    destruct (getCurrentPlayer_Some _ _ Hcur) as (n & Hidx & Hp).
    apply (advanceTurn_knockers fuel (knocked p g) n); simpl; [done| |].
    - intros Hnil. by rewrite Hnil in Hp.
    - eapply Forall_impl; [exact Hall|]. intros q Hq. unfold isKnocker. simpl.
      rewrite Hq. apply String.eqb_refl. }
  split; [|exact Hloop].
  unfold knock. rewrite Hk, Hcur. fold (knocked p g).
  by rewrite (Hloop (length (players (knocked p g)))).
Qed.

Lemma lobby1_reachable random : reachable random lobby1.
Proof. apply reach_addPlayer, reach_new. Qed.

Lemma knock_never_returns_witness :
  reachable scripted lobby1 /\ knock lobby1 = NoReturn.
Proof.
  split; [apply lobby1_reachable|].
  apply (knock_never_returns lobby1 (mkPlayer "a" "Alice" [] [] [] 0 0)).
  - reflexivity.
  - reflexivity.
  - repeat constructor.
Defined.

(** ** Swapping with oneself, and taking from the discard pile *)

Lemma findPlayer_lookup ps n p :
  ps !! n = Some p ->
  exists k q, findPlayer (id p) ps = Some (k, q) /\ id q = id p.
Proof.
  revert n. induction ps as [|a ps IH]; intros n; [done|]. simpl.
  destruct (String.eqb_spec (id a) (id p)) as [Heq|Hne].
  - intros _. by exists 0, a.
  - destruct n as [|n]; simpl; [intros [= ->]; done|].
    intros H. destruct (IH _ H) as (k & q & -> & Hq). by exists (S k), q.
Qed.

(** [useSwap] with whatever indices pass the bounds tests: what the
    acting player's hand reads at [i] and what the opponent's hand reads
    at [j] change places, in slots or in properties that are no slots,
    and the known mask is cleared where the index names a slot. *)
Lemma useSwap_any_index random i opponentId j g r g' :
  useSwap random i opponentId j g = Returns (Success r, g') ->
  endsRound g = false ->
  exists me opp p q,
    currentPlayerIndex g = Num me /\ players g !! me = Some p /\
    findPlayer opponentId (players g) = Some (opp, q) /\ me <> opp /\
    players g'
    = <[opp := setKnownAt j false (setHandAt j (handAt i p) q)]>
        (<[me := setKnownAt i false (setHandAt i (handAt j q) p)]> (players g)).
Proof.
  unfold useSwap. destruct (drawnIs swap g); [|done].
  destruct (findPlayer opponentId (players g)) as [[oi opponent]|] eqn:Hfind; [|done].
  destruct (getCurrentPlayer g) as [player|] eqn:Hcur; [|done].
  destruct (String.eqb_spec (id opponent) (id player)) as [|Hne]; [done|].
  destruct (validIndex i (hand player)); [|done].
  destruct (validIndex j (hand opponent)); [|done]. cbn [negb].
  intros H Hend. apply bind_Returns in H as (g3 & Hturn & [= _ <-]).
  apply getCurrentPlayer_Some in Hcur as (me & Hidx & Hp).
  pose proof (findPlayer_Some _ _ _ _ Hfind) as [Hopp _].
  unfold setCurrentPlayer in Hturn. rewrite Hidx in Hturn.
  apply endTurn_keeps in Hturn as (Hps & _);
    [|by rewrite <- Hend; unfold endsRound; simpl; rewrite !length_insert].
  exists me, oi, player, opponent. split_and!; try done.
  intros ->. congruence.
Qed.

(** X10 (useSwap): with a Swap card pending, naming one's own id as the
    opponent is refused with 'Cannot swap with yourself', whatever the two
    indices are, and nothing changes. *)
Theorem useSwap_self random i j g p :
  drawnIs swap g = true -> getCurrentPlayer g = Some p ->
  useSwap random i (id p) j g = Returns (Failure "Cannot swap with yourself", g).
Proof.
  intros Hsw Hcur. unfold useSwap. rewrite Hsw.
  destruct (getCurrentPlayer_Some _ _ Hcur) as (n & _ & Hp).
  destruct (findPlayer_lookup _ _ _ Hp) as (k & q & -> & Hq).
  rewrite Hcur, Hq, String.eqb_refl. done.
Qed.

Lemma useSwap_self_witness :
  useSwap scripted 0 "b" 0 gameSwap
  = Returns (Failure "Cannot swap with yourself", gameSwap).
Proof.
  apply (useSwap_self scripted 0 0 gameSwap
           (mkPlayer "b" "Bob" [Some (numberCard 7); Some (numberCard 8);
                                Some (numberCard 0); Some (numberCard 1)]
              [] [false; false; false; false] 0 0));
    vm_compute; reflexivity.
Defined.

(** X11 (drawFromDiscardPile, discardDrawnCard): a successful draw from
    the discard pile takes its top card, which is a Number card, as the
    pending card and reports that it must be used; a [discardDrawnCard]
    that follows is refused and changes nothing. *)
Theorem drawn_from_discard_must_be_used random g r g1 :
  drawFromDiscardPile g = Returns (Success r, g1) ->
  exists c, r = Drew c true /\ type c = number /\
    discardPile g = discardPile g1 ++ [Some c] /\ drawnCard g1 = Some c /\
    deck g1 = deck g /\ players g1 = players g /\
    discardDrawnCard random g1
    = Returns (Failure "Cannot discard card from discard pile", g1).
Proof.
  unfold drawFromDiscardPile. case_bool_decide; [done|].
  destruct (pop (discardPile g)) as [[rest [card|]]|] eqn:Hp; [|done..].
  destruct (isPowerCard card) eqn:Hpw; [done|].
  intros [= <- <-]. apply pop_Some in Hp. apply isPowerCard_false in Hpw.
  exists card. by rewrite Hp.
Qed.

Lemma drawn_from_discard_must_be_used_witness :
  exists c, type c = number /\
    drawnCard (stateOf (drawFromDiscardPile gameA) gameA) = Some c /\
    discardDrawnCard scripted (stateOf (drawFromDiscardPile gameA) gameA)
    = Returns (Failure "Cannot discard card from discard pile",
               stateOf (drawFromDiscardPile gameA) gameA).
Proof.
  destruct (drawn_from_discard_must_be_used scripted gameA (Drew (numberCard 2) true)
              (stateOf (drawFromDiscardPile gameA) gameA))
    as (c & _ & H2 & _ & H4 & _ & _ & H7); [vm_compute; reflexivity|].
  exists c. exact (conj H2 (conj H4 H7)).
Defined.

(** ** Passing the turn *)

(** X12 (endTurn): outside a final round, ending a turn always returns;
    it clears the pending card and hands the turn to the next player in
    list order, the first player following the last; nothing else
    changes. *)
Theorem endTurn_passes_turn random g n :
  finalRoundActive g = false ->
  currentPlayerIndex g = Num n -> players g <> [] ->
  endTurn random g =
  Returns (set_currentPlayerIndex (Num ((n + 1) mod length (players g)))
             (set_drawnFromDiscard false (set_drawnCard None g))).
Proof.
  intros Hf Hidx Hne. unfold endTurn. simpl. rewrite Hf.
  destruct (length (players g)) as [|m] eqn:Hlen.
  - by destruct (players g).
  - simpl. unfold nextIndex. simpl. rewrite Hidx, Hlen. done.
Qed.

Lemma endTurn_passes_turn_witness :
  endTurn scripted gameA1 =
  Returns (set_currentPlayerIndex (Num ((0 + 1) mod length (players gameA1)))
             (set_drawnFromDiscard false (set_drawnCard None gameA1))).
Proof.
  apply (endTurn_passes_turn scripted gameA1 0).
  - vm_compute; reflexivity.
  - vm_compute; reflexivity.
  - vm_compute. discriminate.
Defined.

(** X13 (endTurn): in a final round every turn that ends is counted.  The
    round ends with the turn that brings the count to the number of
    players less one, and the index then stays where it is; before that
    the turn goes to a player who is not the knocker, and hands and piles
    are left alone. *)
Theorem endTurn_final_round random g g' :
  finalRoundActive g = true -> roundEnded g = false ->
  endTurn random g = Returns g' ->
  playersCompletedFinalTurn g' = S (playersCompletedFinalTurn g) /\
  (roundEnded g' = true <-> length (players g) <= playersCompletedFinalTurn g + 2) /\
  (roundEnded g' = true -> currentPlayerIndex g' = currentPlayerIndex g) /\
  (roundEnded g' = false ->
   players g' = players g /\ deck g' = deck g /\ discardPile g' = discardPile g /\
   exists q, getCurrentPlayer g' = Some q /\ isKnocker g' q = false).
Proof.
  intros Hf Hre. unfold endTurn. simpl. rewrite Hf.
  destruct (Z.leb_spec (Z.of_nat (length (players g)) - 1)
              (Z.of_nat (S (playersCompletedFinalTurn g)))) as [Hle|Hgt].
  - intros H. pose proof (endRound_roundEnded _ _ _ H) as Hre'.
    apply endRound_frame in H as [_ H]. frame_fields H.
    rewrite Hre'. split_and!; try done. split; [lia|done].
  - intros H. destruct (advanceTurn_lands _ _ _ H) as (q & Hq & Hk).
    apply advanceTurn_frame in H. frame_fields H.
    pose proof (f_equal deck H) as Hdk. pose proof (f_equal discardPile H) as Hdp.
    simpl in Hdk, Hdp.
    split_and!; try done.
    + split; [congruence|lia].
    + congruence.
    + intros _. split_and!; try done. by exists q.
Qed.

Lemma endTurn_final_round_witness :
  exists g', endTurn scripted gameLastSwap = Returns g' /\
    playersCompletedFinalTurn g' = S (playersCompletedFinalTurn gameLastSwap) /\
    roundEnded g' = true.
Proof.
  assert (exists g', endTurn scripted gameLastSwap = Returns g') as [g' H]
    by (vm_compute; eexists; reflexivity).
  exists g'. split; [exact H|].
  destruct (endTurn_final_round scripted gameLastSwap g') as (H1 & H2 & _);
    [vm_compute; reflexivity|vm_compute; reflexivity|exact H|].
  split; [exact H1|]. apply H2. vm_compute. lia.
Defined.

(** ** Leaving the game *)

(** X14 (removePlayer): every player with the given id is taken out, the
    others stay in their order; the result tells whether nobody is left;
    removing the same id again changes nothing more.  Piles, pending card,
    knocker and chain state are not touched, so the cards of the removed
    hands leave the game and a card the leaver had drawn stays pending. *)
Theorem removePlayer_spec playerId g :
  let r := removePlayer playerId g in
  (forall p, p ∈ players r.2 <-> p ∈ players g /\ id p <> playerId) /\
  sublist (players r.2) (players g) /\
  (r.1 = true <-> players r.2 = []) /\
  removePlayer playerId r.2 = r /\
  deck r.2 = deck g /\ discardPile r.2 = discardPile g /\
  drawnCard r.2 = drawnCard g /\ knockerId r.2 = knockerId g /\
  finalRoundActive r.2 = finalRoundActive g /\
  draw2ChainActive r.2 = draw2ChainActive g.
Proof.
  unfold removePlayer. simpl.
  set (keep := fun p : Player => negb (String.eqb (id p) playerId)).
  set (ps := List.filter keep (players g)).
  assert (List.filter keep ps = ps) as Hidem.
  { unfold ps. generalize (players g). intros l. induction l as [|a l IH]; [done|].
    simpl. destruct (keep a) eqn:Ha; [|done]. simpl. by rewrite Ha, IH. }
  split_and!.
  - intros p. assert (p ∈ players (if index_ge (currentPlayerIndex g) (length ps)
                                    then set_currentPlayerIndex (Num 0) (set_players ps g)
                                    else set_players ps g) <-> p ∈ ps) as ->.
    { by destruct (index_ge _ _). }
    unfold ps. rewrite !list_elem_of_In, List.filter_In. unfold keep.
    destruct (String.eqb_spec (id p) playerId) as [Heq|Hne]; simpl.
    + split; [by intros [_ [=]]|by intros [_ ?]].
    + split; intros [? _]; done.
  - assert (players (if index_ge (currentPlayerIndex g) (length ps)
                     then set_currentPlayerIndex (Num 0) (set_players ps g)
                     else set_players ps g) = ps) as -> by (by destruct (index_ge _ _)).
    unfold ps. generalize (players g). intros l. induction l as [|a l IH]; [done|].
    simpl. destruct (keep a); by constructor.
  - rewrite bool_decide_eq_true.
    assert (players (if index_ge (currentPlayerIndex g) (length ps)
                     then set_currentPlayerIndex (Num 0) (set_players ps g)
                     else set_players ps g) = ps) as -> by (by destruct (index_ge _ _)).
    apply nil_length.
  - destruct (index_ge (currentPlayerIndex g) (length ps)) eqn:Hge; simpl;
      fold keep; rewrite Hidem; simpl.
    + destruct (length ps); done.
    + rewrite Hge. done.
  - by destruct (index_ge _ _).
  - by destruct (index_ge _ _).
  - by destruct (index_ge _ _).
  - by destruct (index_ge _ _).
  - by destruct (index_ge _ _).
  - by destruct (index_ge _ _).
Qed.

(** ** Marking cards known *)

(** X15 (Player.peekAtCard): the call never changes the hand; it marks
    the given position as known when the position is inside the hand and
    does nothing otherwise; the other positions read as before, whatever
    the length of the known mask was. *)
Theorem peekAtCard_known index p s :
  hand (peekAtCard index p) = hand p /\
  known (peekAtCard index p) s
  = known p s || (validIndex index (hand p) && bool_decide (index = Z.of_nat s)).
Proof.
  unfold peekAtCard. destruct (validIndex index (hand p)) eqn:Hv; simpl.
  - split; [done|]. apply validIndex_lt in Hv as [Hv _]. unfold known. simpl.
    case_bool_decide as Hs.
    + subst index. rewrite Nat2Z.id, js_assign_lookup. simpl. by rewrite orb_true_r.
    + rewrite js_assign_lookup_ne by lia. by rewrite orb_false_r.
  - by rewrite orb_false_r.
Qed.

(** X16 (Player.revealOuterCards): the call never changes the hand; on a
    hand of two cards or more it marks the first and the last position as
    known and leaves the other positions as they read before; on a shorter
    hand it does nothing. *)
Theorem revealOuterCards_known p s :
  hand (revealOuterCards p) = hand p /\
  known (revealOuterCards p) s
  = known p s ||
    (bool_decide (2 <= length (hand p)) &&
     (bool_decide (s = 0) || bool_decide (s = length (hand p) - 1))).
Proof.
  unfold revealOuterCards. destruct (decide (2 <= length (hand p))) as [Hl|Hl].
  - rewrite (bool_decide_eq_true_2 _ Hl). simpl. split; [done|]. unfold known. simpl.
    destruct (decide (s = length (hand p) - 1)) as [->|Hs1].
    + rewrite js_assign_lookup. simpl. rewrite (bool_decide_eq_true_2 (_ - 1 = _ - 1)) by done.
      by rewrite !orb_true_r.
    + rewrite js_assign_lookup_ne by done.
      rewrite (bool_decide_eq_false_2 _ Hs1), orb_false_r.
      case_bool_decide as Hs0.
      * subst s. rewrite js_assign_lookup. simpl. by rewrite orb_true_r.
      * rewrite js_assign_lookup_ne by done. by rewrite orb_false_r.
  - rewrite (bool_decide_eq_false_2 _ Hl). simpl. by rewrite orb_false_r.
Qed.

(** ** Hands, known masks and the Draw-Two counter in reachable states *)

Lemma sound_same {full} g g' :
  sound full g -> players g' = players g ->
  draw2ChainActive g' = draw2ChainActive g ->
  draw2CardsRemaining g' = draw2CardsRemaining g -> sound full g'.
Proof. unfold sound, draw2OK. intros (? & ? & ?) -> -> ->. done. Qed.

Lemma replaceSlot_handOK {full} random i p g p1 g1 :
  replaceSlot random i p g = Returns (p1, g1) -> handOK full p -> handOK full p1.
Proof.
  unfold replaceSlot. destruct (hand p !! i) as [[c|]|] eqn:Hc; [|done..].
  destruct (isPowerCard c); [|by intros [= <- <-]].
  intros H Hok. apply bind_Returns in H as ([r g2] & _ & H).
  destruct r as [n|]; injection H as <- <-; [|done].
  destruct Hok as [Hl Hs]. split; simpl.
  - rewrite js_assign_length, length_insert; [done|].
    rewrite Hl. by eapply lookup_lt_Some.
  - intros Hfull. apply Forall_insert; [by apply Hs|done].
Qed.

Lemma replaceSlots_handOK {full} random n i p g p1 g1 :
  replaceSlots random n i p g = Returns (p1, g1) -> handOK full p -> handOK full p1.
Proof.
  revert i p g. induction n as [|n IH]; intros i p g; simpl.
  - by intros [= <- <-].
  - intros H Hok. apply bind_Returns in H as ([p2 g2] & H1 & H2).
    eapply IH; [exact H2|]. by eapply replaceSlot_handOK.
Qed.

Lemma endRoundPlayers_handOK {full} random ps g ps' g' :
  endRoundPlayers random ps g = Returns (ps', g') ->
  Forall (handOK full) ps -> Forall (handOK full) ps'.
Proof.
  revert g ps' g'. induction ps as [|p ps IH]; intros g ps' g'; simpl.
  - by intros [= <- <-].
  - intros H Hall. apply Forall_cons in Hall as [Hp Hall].
    apply bind_Returns in H as ([p1 g1] & H1 & H).
    apply bind_Returns in H as ([rest g2] & H2 & [= <- <-]).
    constructor; [|by eapply IH].
    unfold endRoundPlayer in H1.
    apply bind_Returns in H1 as ([p2 g3] & Hs & H1).
    apply bind_Returns in H1 as (p3 & Hc & [= <- <-]).
    unfold calculateScore in Hc. apply bind_Returns in Hc as (s & _ & [= <-]).
    assert (handOK full p2) as [? ?] by (by eapply replaceSlots_handOK).
    by split.
Qed.

Lemma endRound_sound {full} random g g' :
  sound full g -> endRound random g = Returns g' -> sound full g'.
Proof.
  intros (Hh & Hd & Hn) H.
  pose proof (endRound_frame _ _ _ H) as [Hids Hfr]. frame_fields Hfr.
  unfold endRound in H. apply bind_Returns in H as ([ps g1] & H1 & [= <-]).
  split_and!.
  - simpl. by eapply endRoundPlayers_handOK.
  - unfold draw2OK in *. simpl in *. by rewrite Hfr9, Hfr10.
  - apply (f_equal length) in Hids. rewrite !length_map in Hids. lia.
Qed.

Lemma endTurn_sound {full} random x g' :
  sound full x -> endTurn random x = Returns g' -> sound full g'.
Proof.
  intros Hs. unfold endTurn. simpl.
  destruct (finalRoundActive x); [destruct (_ <=? _)%Z|].
  - by apply endRound_sound.
  - intros H. apply advanceTurn_frame in H. rewrite H. done.
  - intros H. apply advanceTurn_frame in H. rewrite H. done.
Qed.

Lemma sound_setCurrentPlayer {full} p g :
  sound full g -> handOK full p -> sound full (setCurrentPlayer p g).
Proof.
  intros (Hh & Hd & Hn) Hp. unfold setCurrentPlayer.
  destruct (currentPlayerIndex g); [|done].
  split_and!; simpl; [by apply Forall_insert|done|by rewrite length_insert].
Qed.

Lemma sound_lookup {full} g n p : sound full g -> players g !! n = Some p -> handOK full p.
Proof. intros (Hh & _) Hp. by eapply Forall_lookup_1 in Hh. Qed.

Lemma sound_draw2 {full} g g' :
  sound full g -> players g' = players g -> draw2OK g' -> sound full g'.
Proof. unfold sound. intros (? & ? & ?) -> ?. done. Qed.

(** Writing a card at an index leaves the hand [handOK]. *)
Lemma setHandAt_handOK {full} cardIndex c p :
  handOK full p -> handOK full (setHandAt cardIndex (Some c) p).
Proof.
  intros [Hl Hf]. unfold setHandAt. destruct (indexKey cardIndex) as [n|key]; [|done].
  split; simpl.
  - by rewrite length_insert.
  - intros Hfull. apply Forall_insert; [by apply Hf|done].
Qed.

Lemma replaceCardInHand_sound {full} random cardIndex g r g' :
  sound full g -> replaceCardInHand random cardIndex g = Returns (r, g') -> sound full g'.
Proof.
  intros Hs. unfold replaceCardInHand, fail.
  destruct (drawnCard g) as [d|]; [|by intros [= <- <-]].
  destruct (getCurrentPlayer g) as [p|] eqn:Hcur; [|done].
  destruct (validIndex cardIndex (hand p)) eqn:Hi; [|by intros [= <- <-]].
  intros H. apply bind_Returns in H as (g4 & Hturn & [= _ <-]).
  apply getCurrentPlayer_Some in Hcur as (n & Hidx & Hp).
  assert (handOK full (replaceCard cardIndex (Some d) p)) as Hok
    by (apply setHandAt_handOK; exact (sound_lookup _ _ _ Hs Hp)).
  pose proof (sound_setCurrentPlayer _ _ Hs Hok) as Hs1.
  eapply endTurn_sound; [|exact Hturn]. by apply (sound_same _ _ Hs1).
Qed.

Lemma power_sound {full} random g g' :
  sound full g -> endTurn random (discardDrawn g) = Returns g' -> sound full g'.
Proof. intros Hs H. eapply endTurn_sound; [|exact H]. by apply (sound_same _ _ Hs). Qed.

Lemma drawFromDiscardPile_sound {full} g r g' :
  sound full g -> drawFromDiscardPile g = Returns (r, g') -> sound full g'.
Proof.
  intros Hs. unfold drawFromDiscardPile, fail. case_bool_decide; [by intros [= <- <-]|].
  destruct (pop (discardPile g)) as [[rest [card|]]|]; [|done|by intros [= <- <-]].
  destruct (isPowerCard card); intros [= <- <-]; by apply (sound_same _ _ Hs).
Qed.

Lemma drawFromDeck_sound {full} random g r g' :
  sound full g -> drawFromDeck random g = Returns (r, g') -> sound full g'.
Proof.
  intros Hs. unfold drawFromDeck, fail. case_bool_decide; [by intros [= <- <-]|].
  destruct (drawCard random g) as [[c|] g1] eqn:Hd;
    pose proof (drawCard_frame _ _ _ _ Hd) as Hf; frame_fields Hf;
    intros [= <- <-]; by apply (sound_same _ _ Hs).
Qed.

Lemma discardDrawnCard_sound {full} random g r g' :
  sound full g -> discardDrawnCard random g = Returns (r, g') -> sound full g'.
Proof.
  intros Hs. unfold discardDrawnCard, fail.
  destruct (drawnCard g) as [d|]; [|by intros [= <- <-]].
  destruct (drawnFromDiscard g); [by intros [= <- <-]|].
  intros H. apply bind_Returns in H as (g1 & Hturn & [= _ <-]).
  eapply endTurn_sound; [|exact Hturn]. by apply (sound_same _ _ Hs).
Qed.

Lemma usePeek_sound {full} random i g r g' :
  sound full g -> usePeek random i g = Returns (r, g') -> sound full g'.
Proof.
  intros Hs. unfold usePeek, fail. destruct (drawnIs peek g); [|by intros [= <- <-]].
  destruct (getCurrentPlayer g); [|done].
  destruct (validIndex _ _); [|by intros [= <- <-]].
  intros H. apply bind_Returns in H as (g1 & Hturn & [= _ <-]).
  by eapply power_sound.
Qed.

Lemma declineSwap_sound {full} random g r g' :
  sound full g -> declineSwap random g = Returns (r, g') -> sound full g'.
Proof.
  intros Hs. unfold declineSwap, fail. destruct (drawnIs swap g); [|by intros [= <- <-]].
  intros H. apply bind_Returns in H as (g1 & Hturn & [= _ <-]).
  by eapply power_sound.
Qed.

(** What [useSwap] writes into a hand: what an index reads in another
    hand, which is a card when the hands are full and the indices are
    integers. *)
Lemma swapped_handOK {full} p q i j :
  handOK full p -> handOK full q ->
  validIndex i (hand p) = true -> validIndex j (hand q) = true ->
  (full = true -> isInteger i && isInteger j = true) ->
  handOK full (setKnownAt i false (setHandAt i (handAt j q) p)).
Proof.
  intros [Hl Hf] [_ Hfq] Hi Hj Hint. unfold setKnownAt, setHandAt, handAt.
  destruct (indexKey i) as [n|key] eqn:Hk; [|done].
  apply (validIndex_Element _ _ _ Hi) in Hk.
  split; simpl.
  - rewrite js_assign_length, length_insert by lia. done.
  - intros Hfull. apply Forall_insert; [by apply Hf|].
    destruct (proj1 (andb_true_iff _ _) (Hint Hfull)) as [_ [z ->]%isInteger_Integer].
    apply validIndex_lt in Hj as [_ Hj]. cbn [indexKey].
    destruct (lookup_lt_is_Some_2 _ _ Hj) as [c Hc]. rewrite Hc. simpl.
    apply Hfq in Hfull. by eapply Forall_lookup_1 in Hfull.
Qed.

Lemma useSwap_sound {full} random i o j g r g' :
  (full = true -> isInteger i && isInteger j = true) ->
  sound full g -> useSwap random i o j g = Returns (r, g') -> sound full g'.
Proof.
  intros Hint Hs. unfold useSwap, fail.
  destruct (drawnIs swap g); [|by intros [= <- <-]].
  destruct (findPlayer _ _) as [[oi opponent]|] eqn:Hfind; [|by intros [= <- <-]].
  destruct (getCurrentPlayer g) as [player|] eqn:Hcur; [|done].
  destruct (String.eqb _ _); [by intros [= <- <-]|].
  destruct (validIndex i _) eqn:Hi; cbn [negb]; [|by intros [= <- <-]].
  destruct (validIndex j _) eqn:Hj; cbn [negb]; [|by intros [= <- <-]].
  intros H. apply bind_Returns in H as (g1 & Hturn & [= _ <-]).
  apply getCurrentPlayer_Some in Hcur as (n & Hn & Hp).
  apply findPlayer_Some in Hfind as [Ho _].
  pose proof (sound_lookup _ _ _ Hs Hp) as Hokp.
  pose proof (sound_lookup _ _ _ Hs Ho) as Hoko.
  assert (full = true -> isInteger j && isInteger i = true) as Hint'
    by (intros Hfull; rewrite andb_comm; by apply Hint).
  eapply power_sound; [|exact Hturn].
  pose proof (sound_setCurrentPlayer _ _ Hs
                (swapped_handOK _ _ _ _ Hokp Hoko Hi Hj Hint)) as (Hh1 & Hd1 & Hn1).
  split_and!; simpl.
  - apply Forall_insert; [done|]. by apply swapped_handOK.
  - done.
  - by rewrite length_insert.
Qed.

Lemma chainDraw2_sound {full} random c g r g' :
  sound full g -> chainDraw2 random c g = Returns (r, g') -> sound full g'.
Proof.
  intros Hs. unfold chainDraw2.
  destruct (drawCard random _) as [nextCard g2] eqn:Hd. intros [= _ <-].
  pose proof (drawCard_frame _ _ _ _ Hd) as Hf; frame_fields Hf.
  apply (sound_draw2 _ _ Hs); [done|].
  unfold draw2OK. simpl. rewrite ?Hfr8, ?Hfr9. simpl. lia.
Qed.

Lemma useDraw2_sound {full} random g r g' :
  sound full g -> useDraw2 random g = Returns (r, g') -> sound full g'.
Proof.
  intros Hs. unfold useDraw2, fail. destruct (drawnIs draw2 g); [|by intros [= <- <-]].
  destruct (drawCard random _) as [[firstCard|] g2] eqn:Hd;
    pose proof (drawCard_frame _ _ _ _ Hd) as Hf; frame_fields Hf.
  - assert (sound full (set_drawnCard (Some firstCard) g2)) as Hs2.
    { apply (sound_draw2 _ _ Hs); [done|].
      unfold draw2OK. simpl. rewrite ?Hfr8, ?Hfr9. simpl. lia. }
    case_bool_decide.
    + by apply chainDraw2_sound.
    + by intros [= _ <-].
  - intros H. apply bind_Returns in H as (g3 & Hturn & [= _ <-]).
    eapply endTurn_sound; [|exact Hturn].
    apply (sound_draw2 _ _ Hs); [done|].
    unfold draw2OK. simpl. rewrite ?Hfr8, ?Hfr9. simpl. split; [lia|done].
Qed.

Lemma discardDraw2Card_sound {full} random g r g' :
  sound full g -> draw2ChainActive g = true ->
  discardDraw2Card random g = Returns (r, g') -> sound full g'.
Proof.
  intros Hs Hact. unfold discardDraw2Card. cbn zeta.
  pose proof Hs as (_ & [Hrange Hpos] & _). specialize (Hpos Hact).
  destruct (Z.ltb_spec 0 (draw2CardsRemaining
              (set_draw2CardsRemaining (draw2CardsRemaining g - 1)
                 (set_drawnCard None (pushDiscard (drawnCard g) g))))) as [Hlt|Hlt];
    simpl in Hlt.
  - destruct (drawCard random _) as [[nextCard|] g2] eqn:Hd;
      pose proof (drawCard_frame _ _ _ _ Hd) as Hf; frame_fields Hf.
    + assert (sound full (set_drawnCard (Some nextCard) g2)) as Hs2.
      { apply (sound_draw2 _ _ Hs); [done|].
        unfold draw2OK. simpl. rewrite ?Hfr8, ?Hfr9. simpl. lia. }
      case_bool_decide.
      * by apply chainDraw2_sound.
      * by intros [= _ <-].
    + intros H. apply bind_Returns in H as (g3 & Hturn & [= _ <-]).
      eapply endTurn_sound; [|exact Hturn].
      apply (sound_draw2 _ _ Hs); [done|].
      unfold draw2OK. simpl. rewrite ?Hfr8, ?Hfr9. simpl. split; [lia|done].
  - intros H. apply bind_Returns in H as (g3 & Hturn & [= _ <-]).
    eapply endTurn_sound; [|exact Hturn].
    apply (sound_draw2 _ _ Hs); [done|].
    unfold draw2OK. simpl. split; [lia|done].
Qed.

Lemma handleDraw2Card_sound {full} random action cardIndex g r g' :
  sound full g -> handleDraw2Card random action cardIndex g = Returns (r, g') -> sound full g'.
Proof.
  intros Hs. unfold handleDraw2Card, fail.
  destruct (draw2ChainActive g) eqn:Hc; cbn [negb]; [|by intros [= <- <-]].
  assert ((if String.eqb action "discard" then discardDraw2Card random g
           else Returns (Failure "Invalid action", g)) = Returns (r, g') ->
          sound full g') as Hdiscard.
  { destruct (String.eqb action "discard"); [|by intros [= <- <-]].
    by apply discardDraw2Card_sound. }
  destruct (String.eqb action "use" && notNull cardIndex); [|by apply Hdiscard].
  intros H. apply bind_Returns in H as ([result g1] & H1 & H).
  apply (replaceCardInHand_sound (full:=full)) in H1; [|done].
  destruct (success result); injection H as _ <-; [|done].
  apply (sound_draw2 _ _ H1); [done|]. unfold draw2OK. simpl. split; [lia|done].
Qed.

Lemma useAddCard_sound {full} random g r g' :
  sound full g -> useAddCard random g = Returns (r, g') -> sound full g'.
Proof.
  intros Hs. unfold useAddCard, fail. destruct (drawnIs addcard g); [|by intros [= <- <-]].
  destruct (drawCard random g) as [newCard g1] eqn:Hd.
  pose proof (drawCard_frame _ _ _ _ Hd) as Hf; frame_fields Hf.
  assert (sound full g1) as Hs1 by (by apply (sound_same _ _ Hs)).
  intros H. apply bind_Returns in H as (g2 & H2 & H).
  apply bind_Returns in H as (g3 & Hturn & [= _ <-]).
  eapply power_sound; [|exact Hturn].
  destruct newCard as [c|]; [|by injection H2 as <-].
  destruct (getCurrentPlayer g1) as [p|] eqn:Hcur; [|done]. injection H2 as <-.
  apply getCurrentPlayer_Some in Hcur as (n & Hn & Hp).
  apply sound_setCurrentPlayer; [done|].
  destruct (sound_lookup _ _ _ Hs1 Hp) as [Hl Hf']. split; simpl.
  - rewrite !length_app. simpl. lia.
  - intros Hfull. apply Forall_app. split; [by apply Hf'|]. by repeat constructor.
Qed.

Lemma knock_sound {full} g r g' : sound full g -> knock g = Returns (r, g') -> sound full g'.
Proof.
  intros Hs. unfold knock, fail. destruct (truthyId _); [by intros [= <- <-]|].
  destruct (getCurrentPlayer g); [|done].
  intros H. apply bind_Returns in H as (g2 & Hadv & [= _ <-]).
  apply advanceTurn_frame in Hadv. rewrite Hadv. by apply (sound_same _ _ Hs).
Qed.

Lemma act_sound {full} random a g r g' :
  (full = true -> integerIndices a = true) ->
  sound full g -> act random a g = Returns (r, g') -> sound full g'.
Proof.
  intros Hint Hs H. destruct a; cbn [act integerIndices] in H, Hint.
  - by eapply drawFromDiscardPile_sound.
  - by eapply drawFromDeck_sound.
  - by eapply replaceCardInHand_sound.
  - by eapply discardDrawnCard_sound.
  - by eapply usePeek_sound.
  - by eapply useSwap_sound.
  - by eapply declineSwap_sound.
  - by eapply useDraw2_sound.
  - by eapply handleDraw2Card_sound.
  - by eapply useAddCard_sound.
  - by eapply knock_sound.
Qed.

Lemma filter_Forall {A} (P : A -> Prop) (f : A -> bool) l :
  Forall P l -> Forall P (List.filter f l).
Proof.
  induction 1 as [|a l Ha _ IH]; simpl; [done|]. destruct (f a); [by constructor|done].
Qed.

Lemma addPlayer_sound {full} playerId playerName g :
  sound full g -> sound full (addPlayer playerId playerName g).2.
Proof.
  intros (Hh & Hd & Hn). unfold addPlayer. case_decide as H6; [done|].
  destruct (gameStarted g); [done|]. split_and!; simpl.
  - apply Forall_app. split; [done|]. constructor; [|done]. by split.
  - done.
  - rewrite length_app. simpl. lia.
Qed.

Lemma removePlayer_sound {full} playerId g : sound full g -> sound full (removePlayer playerId g).2.
Proof.
  intros (Hh & Hd & Hn). unfold removePlayer. simpl.
  set (ps := List.filter _ _).
  assert (sound full (set_players ps g)) as Hs.
  { split_and!; simpl; [by apply filter_Forall|done|].
    pose proof (List.filter_length_le (fun p => negb (String.eqb (id p) playerId))
                  (players g)). fold ps in H. lia. }
  destruct (index_ge _ _); [|done]. by apply (sound_same _ _ Hs).
Qed.

(** What a successful [startRound] does not touch. *)
Lemma startRound_keeps random fuel g g' :
  startRound random fuel g = Returns (true, g') ->
  draw2ChainActive g' = draw2ChainActive g /\
  draw2CardsRemaining g' = draw2CardsRemaining g /\
  drawnCard g' = drawnCard g /\ drawnFromDiscard g' = drawnFromDiscard g /\
  map seat (players g') = map seat (players g).
Proof.
  unfold startRound. case_decide as Hn; [done|].
  pose proof (initializeDeck_frame random g) as Hf1. revert Hf1.
  generalize (initializeDeck random g). intros g1 Hf1.
  destruct (dealPlayers random _ _) as [ps g3] eqn:Hdeal.
  destruct (drawCard random _) as [c g5] eqn:Hdraw.
  intros H. apply bind_Returns in H as ([card g6] & Hfirst & [= <-]).
  assert (map seat ps = map seat (players g1)) as Hids.
  { clear -Hdeal. simpl in Hdeal. revert Hdeal.
    generalize (set_playersCompletedFinalTurn 0
                  (set_finalRoundActive false
                     (set_knockerId None
                        (set_roundEnded false (set_discardPile [] g1))))).
    generalize (players g1). clear. intros l. revert ps g3.
    induction l as [|p l IH]; intros ps g3 g; cbn [dealPlayers].
    - by intros [= <- _].
    - destruct (dealCards random 4 _ g) as [p1 g1] eqn:Hd.
      destruct (dealPlayers random l g1) as [rest g2] eqn:Hr. intros [= <- _].
      simpl. f_equal; [|by eapply IH].
      clear -Hd. revert Hd. generalize 4. intros n.
      assert (seat (set_knownCards [] (set_handProps [] (set_hand [] p))) = seat p) as <- by done.
      generalize (set_knownCards [] (set_handProps [] (set_hand [] p))). clear. intros p. revert p g.
      induction n as [|n IH]; intros p g; simpl; [by intros [= <- _]|].
      destruct (drawCard random g) as [c g2]. intros H. by apply IH in H. }
  apply dealPlayers_bag in Hdeal as [Hf3 _].
  pose proof (drawCard_frame _ _ _ _ Hdraw) as Hf5.
  apply firstDiscard_bag in Hfirst as [Hf6 _].
  simpl. rewrite Hf6. simpl. rewrite Hf5. simpl. rewrite Hf3. simpl.
  rewrite Hids, Hf1. done.
Qed.

Lemma startRound_sound {full} random fuel g b g' :
  sound full g -> startRound random fuel g = Returns (b, g') -> sound full g'.
Proof.
  intros (Hh & Hd & Hn) H. destruct b; [|by apply startRound_false in H as ->].
  pose proof (startRound_keeps _ _ _ _ H) as (Hc & Hr & _ & _ & Hids).
  apply startRound_true in H as (_ & Hall & _).
  split_and!.
  - eapply Forall_impl; [exact Hall|]. intros p (Hl & Hf & Hk). split; [by rewrite Hk, Hl|done].
  - unfold draw2OK. by rewrite Hc, Hr.
  - apply (f_equal length) in Hids. rewrite !length_map in Hids. lia.
Qed.

Lemma newGame_sound {full} gid : sound full (newGame gid).
Proof. split_and!; simpl; [done| |lia]. unfold draw2OK. simpl. split; [lia|done]. Qed.

(** Whatever indices the calls are given. *)
Lemma reachable_sound random g : reachable random g -> sound false g.
Proof.
  induction 1 as [gid|g pid nm _ IH|g pid _ IH|g fuel b g' _ IH Hrun|g a r g' _ IH Hrun].
  - apply newGame_sound.
  - by apply addPlayer_sound.
  - by apply removePlayer_sound.
  - by eapply startRound_sound.
  - by eapply act_sound.
Qed.

Lemma reachableWithIntegers_sound random g :
  reachableWithIntegers random g -> sound true g.
Proof.
  induction 1 as [gid|g pid nm _ IH|g pid _ IH|g fuel b g' _ IH Hrun
                 |g a r g' _ IH Hint Hrun].
  - apply newGame_sound.
  - by apply addPlayer_sound.
  - by apply removePlayer_sound.
  - by eapply startRound_sound.
  - by eapply (act_sound _ a).
Qed.



Lemma run_reachableWithIntegers random acts g g' :
  forallb integerIndices acts = true ->
  reachableWithIntegers random g -> run random acts g = Returns g' ->
  reachableWithIntegers random g'.
Proof.
  revert g. induction acts as [|a acts IH]; intros g Hint Hr; simpl.
  - by intros [= <-].
  - simpl in Hint. apply andb_true_iff in Hint as [Ha Hint].
    intros H. apply bind_Returns in H as ([r g1] & Hact & H).
    eapply IH; [done| |exact H]. by eapply int_act.
Qed.

Lemma gameA_withIntegers : reachableWithIntegers scripted gameA.
Proof.
  apply (int_startRound scripted lobby3 0 true); [|apply gameA_started].
  do 3 apply int_addPlayer. apply int_new.
Qed.

Lemma gameReshuffled_withIntegers : reachableWithIntegers scripted gameReshuffled.
Proof.
  apply (run_reachableWithIntegers scripted staleChain gameA);
    [vm_compute; reflexivity|apply gameA_withIntegers|vm_compute; reflexivity].
Qed.

Lemma gameSwap_reachable : reachable scripted gameSwap.
Proof.
  apply (run_reachable scripted swapMoves gameA); [apply gameA_reachable|].
  vm_compute. reflexivity.
Qed.

(** An index that is no integer empties a slot: Bob has drawn the Swap
    and swaps his slot 0 with "slot 1.5" of Kim.  The call succeeds,
    Bob's slot 0 holds [undefined] afterwards, and [endRound] throws on
    it. *)
Lemma swap_with_fraction_empties_slot :
  reachable scripted gameSwap /\
  exists g', act scripted (UseSwap 0 "k" (Other (Some 1%Z) "1.5")) gameSwap
             = Returns (Success (SwappedWith "Kim"), g') /\
    slotAt g' 2 0 = Some None /\ endRound scripted g' = TypeError.
Proof.
  split; [apply gameSwap_reachable|].
  eexists. split; [vm_compute; reflexivity|]. by vm_compute.
Qed.

(** X18 (endRound, Player.calculateScore): in every state reached by
    calls whose card indices are integers, no hand holds a [null] or
    [undefined] entry; so [endRound] and the score computation, which
    read a property of every hand entry, return in every such state
    instead of throwing. *)
Theorem hands_hold_cards random g :
  reachableWithIntegers random g ->
  Forall (fun p => Forall is_Some (hand p)) (players g) /\
  exists g', endRound random g = Returns g'.
Proof.
  intros H. apply reachableWithIntegers_sound in H as (Hh & _).
  assert (Forall (fun p => Forall is_Some (hand p)) (players g)) as Hs.
  { eapply Forall_impl; [exact Hh|]. intros p [_ Hf]. by apply Hf. }
  split; [done|].
  destruct (endRoundPlayers_spec random _ g Hs) as (ps' & g1 & Hrun & _).
  unfold endRound. rewrite Hrun. by eexists.
Qed.

Lemma hands_hold_cards_witness :
  exists g', endRound scripted gameReshuffled = Returns g'.
Proof.
  apply (hands_hold_cards scripted gameReshuffled).
  apply gameReshuffled_withIntegers.
Defined.

(** X19 (useDraw2, handleDraw2Card): in every reachable state the
    Draw-Two counter is 0, 1 or 2, and it is 1 or 2 while a chain is
    active. *)
Theorem draw2_counter_bounds random g :
  reachable random g ->
  (0 <= draw2CardsRemaining g <= 2)%Z /\
  (draw2ChainActive g = true -> (1 <= draw2CardsRemaining g)%Z).
Proof. intros H. by apply reachable_sound in H as (_ & ? & _). Qed.

Lemma draw2_counter_bounds_witness :
  draw2ChainActive gameA2 = true /\ (1 <= draw2CardsRemaining gameA2 <= 2)%Z.
Proof.
  assert (draw2ChainActive gameA2 = true) as Hc by (vm_compute; reflexivity).
  split; [exact Hc|].
  destruct (draw2_counter_bounds scripted gameA2) as [[_ H2] H3].
  - apply (run_reachable scripted [DrawFromDeck; UseDraw2] gameA);
      [apply gameA_reachable|vm_compute; reflexivity].
  - split; [exact (H3 Hc)|exact H2].
Defined.

(** ** Starting a round never runs out of cards *)

Lemma dealCards_length random n p g p' g' :
  discardPile g = [] -> dealCards random n p g = (p', g') ->
  discardPile g' = [] /\ length (deck g') = length (deck g) - n.
Proof.
  revert p g. induction n as [|n IH]; intros p g Hd; simpl.
  - intros [= _ <-]. split; [done|lia].
  - destruct (drawCard random g) as [c g1] eqn:Hdraw. intros H.
    destruct (drawCard_no_discard _ _ _ _ Hd Hdraw) as [Hd1 Hcase].
    destruct (IH _ _ Hd1 H) as [Hd2 Hl]. split; [done|]. rewrite Hl.
    destruct Hcase as [->|(_ & -> & ->)]; [rewrite length_app|]; simpl; lia.
Qed.

Lemma dealPlayers_length random ps g ps' g' :
  discardPile g = [] -> dealPlayers random ps g = (ps', g') ->
  length (deck g') = length (deck g) - 4 * length ps.
Proof.
  revert g ps' g'. induction ps as [|p ps IH]; intros g ps' g' Hd; cbn [dealPlayers].
  - intros [= _ <-]. simpl. lia.
  - destruct (dealCards random 4 (set_knownCards [] (set_handProps [] (set_hand [] p))) g)
      as [p1 g1] eqn:Hdeal.
    destruct (dealPlayers random ps g1) as [rest g2] eqn:Hrest. intros [= _ <-].
    apply dealCards_length in Hdeal as [Hd1 Hl1]; [|done].
    rewrite (IH _ _ _ Hd1 Hrest), Hl1. cbn [length]. lia.
Qed.

Lemma firstDiscard_no_TypeError random fuel c g :
  discardPile g = [] -> Forall is_Some (deck g) -> is_Some c ->
  firstDiscard random fuel c g <> TypeError.
Proof.
  revert c g. induction fuel as [|fuel IH]; intros c g Hd Hs [card ->]; simpl;
    destruct (isPowerCard card); try done.
  destruct (drawCard random _) as [c' g1] eqn:Hdraw.
  assert (Forall is_Some (deck (shuffleDeck random (set_deck (Some card :: deck g) g))))
    as Hs'.
  { unfold shuffleDeck. simpl. rewrite fisherYates_Permutation. by constructor. }
  apply drawCard_no_discard in Hdraw as [Hd1 Hcase]; [|done].
  destruct Hcase as [Hc|(_ & Hnil & _)].
  - rewrite Hc in Hs'. apply Forall_app in Hs' as [Hs1 Hc'].
    apply IH; [done..|]. by inversion Hc'.
  - exfalso. unfold shuffleDeck in Hnil. simpl in Hnil.
    apply (f_equal length) in Hnil. rewrite fisherYates_length in Hnil. done.
Qed.

Lemma initializeDeck_length random g : length (deck (initializeDeck random g)) = 56.
Proof. by rewrite initializeDeck_Permutation. Qed.

(** X20 (addPlayer, startRound): no reachable game has more than six
    players, and with at most six players [startRound] never throws: the
    deal leaves at least 32 cards, so the card drawn for the first discard
    is never [null]. *)
Theorem startRound_never_throws random fuel g :
  reachable random g ->
  length (players g) <= 6 /\ startRound random fuel g <> TypeError.
Proof.
  intros H. apply reachable_sound in H as (_ & _ & Hn). split; [done|].
  unfold startRound. case_decide as H2; [done|].
  pose proof (initializeDeck_length random g) as Hlen.
  pose proof (initializeDeck_Permutation random g) as Hperm.
  pose proof (f_equal players (initializeDeck_frame random g)) as Hps.
  cbn [players withPiles set_tick set_discardPile set_deck] in Hps.
  revert Hlen Hperm Hps. generalize (initializeDeck random g). intros g1 Hlen Hperm Hps.
  destruct (dealPlayers random _ _) as [ps g3] eqn:Hdeal.
  destruct (drawCard random _) as [c g5] eqn:Hdraw.
  pose proof Hdeal as Hl3. apply dealPlayers_length in Hl3; [|done].
  apply dealPlayers_spec in Hdeal as (Hd3 & Hs3 & _); [|done|].
  2:{ simpl. rewrite Hperm. apply Forall_fmap, Forall_true. intros x. by exists x. }
  simpl in Hl3. rewrite Hlen, Hps in Hl3.
  apply drawCard_no_discard in Hdraw as [Hd5 Hcase]; [|done].
  simpl in Hcase.
  assert (Forall is_Some (deck g5) /\ is_Some c) as [Hs5 Hc].
  { destruct Hcase as [Hc|(_ & Hnil & _)].
    - rewrite Hc in Hs3. apply Forall_app in Hs3 as [? Hc']. split; [done|].
      by inversion Hc'.
    - rewrite Hnil in Hl3. simpl in Hl3. lia. }
  pose proof (firstDiscard_no_TypeError random fuel c g5 Hd5 Hs5 Hc) as Hno.
  by destruct (firstDiscard random fuel c g5) as [[card g6]| |].
Qed.

Lemma startRound_never_throws_witness :
  length (players lobby3) <= 6 /\ startRound scripted 0 lobby3 <> TypeError.
Proof. apply (startRound_never_throws scripted 0 lobby3), lobby3_reachable. Defined.

(** ** The knocker is skipped for as long as nobody leaves *)

Lemma knockerWaits_same g g' :
  knockerWaits g ->
  currentPlayerIndex g' = currentPlayerIndex g ->
  map id (players g') = map id (players g) ->
  knockerId g' = knockerId g -> finalRoundActive g' = finalRoundActive g ->
  knockerWaits g'.
Proof.
  intros Hk Hi Hids Hkn Hf Hfin. rewrite Hf in Hfin.
  destruct (Hk Hfin) as (p & Hp & Hnk).
  apply getCurrentPlayer_Some in Hp as (n & Hn & Hp).
  assert (map id (players g') !! n = Some (id p)) as Hl.
  { rewrite Hids, list_lookup_fmap, Hp. done. }
  rewrite list_lookup_fmap in Hl.
  destruct (players g' !! n) as [q|] eqn:Hq; [|done]. injection Hl as Hl.
  exists q. unfold getCurrentPlayer, isKnocker in *. rewrite Hi, Hn, Hkn, Hl. done.
Qed.

Lemma ids_insert ps n p p' :
  ps !! n = Some p -> id p' = id p -> map id (<[n:=p']> ps) = map id ps.
Proof.
  intros Hp Hid. rewrite list_fmap_insert. apply list_insert_id.
  rewrite list_lookup_fmap, Hp. simpl. congruence.
Qed.

Lemma endTurn_knockerWaits random x g' :
  knockerWaits x -> endTurn random x = Returns g' -> knockerWaits g'.
Proof.
  intros Hk. unfold endTurn. simpl.
  destruct (finalRoundActive x) eqn:Hf; [destruct (_ <=? _)%Z|].
  - intros H. apply endRound_frame in H as [Hids Hfr]. frame_fields Hfr.
    simpl in Hids. by apply (knockerWaits_same x).
  - intros H _. by apply advanceTurn_lands in H.
  - intros H. apply advanceTurn_frame in H. intros Hfin. rewrite H in Hfin.
    simpl in Hfin. congruence.
Qed.

(** The state a turn action hands to [endTurn] seats the same players. *)
Lemma finish_knockerWaits random g x g' :
  knockerWaits g ->
  currentPlayerIndex x = currentPlayerIndex g ->
  map id (players x) = map id (players g) ->
  knockerId x = knockerId g -> finalRoundActive x = finalRoundActive g ->
  endTurn random x = Returns g' -> knockerWaits g'.
Proof.
  intros Hk ? ? ? ? H. eapply endTurn_knockerWaits; [|exact H].
  by apply (knockerWaits_same g).
Qed.

Lemma ids_setCurrentPlayer g p p' :
  getCurrentPlayer g = Some p -> id p' = id p ->
  map id (players (setCurrentPlayer p' g)) = map id (players g).
Proof.
  intros Hcur Hid. apply getCurrentPlayer_Some in Hcur as (n & Hn & Hp).
  unfold setCurrentPlayer. rewrite Hn. simpl. by eapply ids_insert.
Qed.

Lemma index_setCurrentPlayer p g :
  currentPlayerIndex (setCurrentPlayer p g) = currentPlayerIndex g /\
  knockerId (setCurrentPlayer p g) = knockerId g /\
  finalRoundActive (setCurrentPlayer p g) = finalRoundActive g.
Proof. unfold setCurrentPlayer. by destruct (currentPlayerIndex g) eqn:H; simpl; rewrite ?H. Qed.

Lemma replaceCardInHand_knockerWaits random i g r g' :
  knockerWaits g -> replaceCardInHand random i g = Returns (r, g') -> knockerWaits g'.
Proof.
  intros Hk. unfold replaceCardInHand, fail.
  destruct (drawnCard g) as [d|]; [|by intros [= <- <-]].
  destruct (getCurrentPlayer g) as [p|] eqn:Hcur; [|done].
  destruct (validIndex i (hand p)) eqn:Hi; [|by intros [= <- <-]].
  intros H. apply bind_Returns in H as (g4 & Hturn & [= _ <-]).
  destruct (index_setCurrentPlayer (replaceCard i (Some d) p) g) as (? & ? & ?).
  eapply (finish_knockerWaits _ g); [done| | | | |exact Hturn]; simpl; try done.
  eapply ids_setCurrentPlayer; [done|]. apply setHandAt_seat.
Qed.

Lemma power_knockerWaits random g g' :
  knockerWaits g -> endTurn random (discardDrawn g) = Returns g' -> knockerWaits g'.
Proof. intros Hk H. by eapply (finish_knockerWaits _ g); [done| | | | |exact H]. Qed.

Lemma drawFromDiscardPile_knockerWaits g r g' :
  knockerWaits g -> drawFromDiscardPile g = Returns (r, g') -> knockerWaits g'.
Proof.
  intros Hk. unfold drawFromDiscardPile, fail. case_bool_decide; [by intros [= <- <-]|].
  destruct (pop (discardPile g)) as [[rest [card|]]|]; [|done|by intros [= <- <-]].
  destruct (isPowerCard card); intros [= <- <-]; by apply (knockerWaits_same g).
Qed.

Lemma drawFromDeck_knockerWaits random g r g' :
  knockerWaits g -> drawFromDeck random g = Returns (r, g') -> knockerWaits g'.
Proof.
  intros Hk. unfold drawFromDeck, fail. case_bool_decide; [by intros [= <- <-]|].
  destruct (drawCard random g) as [[c|] g1] eqn:Hd;
    pose proof (drawCard_frame _ _ _ _ Hd) as Hf; frame_fields Hf;
    intros [= <- <-]; apply (knockerWaits_same g); simpl; try done; congruence.
Qed.

Lemma discardDrawnCard_knockerWaits random g r g' :
  knockerWaits g -> discardDrawnCard random g = Returns (r, g') -> knockerWaits g'.
Proof.
  intros Hk. unfold discardDrawnCard, fail.
  destruct (drawnCard g) as [d|]; [|by intros [= <- <-]].
  destruct (drawnFromDiscard g); [by intros [= <- <-]|].
  intros H. apply bind_Returns in H as (g1 & Hturn & [= _ <-]).
  by eapply (finish_knockerWaits _ g); [done| | | | |exact Hturn].
Qed.

Lemma usePeek_knockerWaits random i g r g' :
  knockerWaits g -> usePeek random i g = Returns (r, g') -> knockerWaits g'.
Proof.
  intros Hk. unfold usePeek, fail. destruct (drawnIs peek g); [|by intros [= <- <-]].
  destruct (getCurrentPlayer g); [|done].
  destruct (validIndex _ _); [|by intros [= <- <-]].
  intros H. apply bind_Returns in H as (g1 & Hturn & [= _ <-]).
  by eapply power_knockerWaits.
Qed.

Lemma declineSwap_knockerWaits random g r g' :
  knockerWaits g -> declineSwap random g = Returns (r, g') -> knockerWaits g'.
Proof.
  intros Hk. unfold declineSwap, fail. destruct (drawnIs swap g); [|by intros [= <- <-]].
  intros H. apply bind_Returns in H as (g1 & Hturn & [= _ <-]).
  by eapply power_knockerWaits.
Qed.

Lemma useSwap_knockerWaits random i o j g r g' :
  knockerWaits g -> useSwap random i o j g = Returns (r, g') -> knockerWaits g'.
Proof.
  intros Hk. unfold useSwap, fail.
  destruct (drawnIs swap g); [|by intros [= <- <-]].
  destruct (findPlayer _ _) as [[oi opponent]|] eqn:Hfind; [|by intros [= <- <-]].
  destruct (getCurrentPlayer g) as [player|] eqn:Hcur; [|done].
  destruct (String.eqb_spec (id opponent) (id player)) as [|Hne]; [by intros [= <- <-]|].
  destruct (validIndex i _); cbn [negb]; [|by intros [= <- <-]].
  destruct (validIndex j _); cbn [negb]; [|by intros [= <- <-]].
  intros H. apply bind_Returns in H as (g1 & Hturn & [= _ <-]).
  apply findPlayer_Some in Hfind as [Ho _].
  pose proof Hcur as Hcur'. apply getCurrentPlayer_Some in Hcur' as (n & Hn & Hp).
  assert (n <> oi) as Hno by (intros ->; congruence).
  eapply (finish_knockerWaits _ g); [done| | | | |exact Hturn]; simpl;
    try apply index_setCurrentPlayer.
  unfold setCurrentPlayer. rewrite Hn. simpl.
  rewrite (ids_insert _ oi opponent);
    [eapply ids_insert; [done|]|by rewrite list_lookup_insert_ne|].
  all: by rewrite (proj1 (setKnownAt_seat _ _ _)), (proj1 (setHandAt_seat _ _ _)).
Qed.

Lemma chainDraw2_knockerWaits random c g r g' :
  knockerWaits g -> chainDraw2 random c g = Returns (r, g') -> knockerWaits g'.
Proof.
  intros Hk. unfold chainDraw2.
  destruct (drawCard random _) as [nextCard g2] eqn:Hd. intros [= _ <-].
  pose proof (drawCard_frame _ _ _ _ Hd) as Hf; frame_fields Hf.
  apply (knockerWaits_same g); simpl; try done; congruence.
Qed.

Lemma useDraw2_knockerWaits random g r g' :
  knockerWaits g -> useDraw2 random g = Returns (r, g') -> knockerWaits g'.
Proof.
  intros Hk. unfold useDraw2, fail. destruct (drawnIs draw2 g); [|by intros [= <- <-]].
  destruct (drawCard random _) as [[firstCard|] g2] eqn:Hd;
    pose proof (drawCard_frame _ _ _ _ Hd) as Hf; frame_fields Hf.
  - assert (knockerWaits (set_drawnCard (Some firstCard) g2)) as Hk2
      by (apply (knockerWaits_same g); simpl; try done; congruence).
    case_bool_decide.
    + by apply chainDraw2_knockerWaits.
    + by intros [= _ <-].
  - intros H. apply bind_Returns in H as (g3 & Hturn & [= _ <-]).
    eapply (finish_knockerWaits _ g); [done| | | | |exact Hturn]; simpl; try done; congruence.
Qed.

Lemma discardDraw2Card_knockerWaits random g r g' :
  knockerWaits g -> discardDraw2Card random g = Returns (r, g') -> knockerWaits g'.
Proof.
  intros Hk. unfold discardDraw2Card. cbn zeta. destruct (0 <? _)%Z.
  - destruct (drawCard random _) as [[nextCard|] g2] eqn:Hd;
      pose proof (drawCard_frame _ _ _ _ Hd) as Hf; frame_fields Hf.
    + assert (knockerWaits (set_drawnCard (Some nextCard) g2)) as Hk2
        by (apply (knockerWaits_same g); simpl; try done; congruence).
      case_bool_decide.
      * by apply chainDraw2_knockerWaits.
      * by intros [= _ <-].
    + intros H. apply bind_Returns in H as (g3 & Hturn & [= _ <-]).
      eapply (finish_knockerWaits _ g); [done| | | | |exact Hturn]; simpl; try done; congruence.
  - intros H. apply bind_Returns in H as (g3 & Hturn & [= _ <-]).
    by eapply (finish_knockerWaits _ g); [done| | | | |exact Hturn].
Qed.

Lemma handleDraw2Card_knockerWaits random action cardIndex g r g' :
  knockerWaits g -> handleDraw2Card random action cardIndex g = Returns (r, g') ->
  knockerWaits g'.
Proof.
  intros Hk. unfold handleDraw2Card, fail.
  destruct (draw2ChainActive g); cbn [negb]; [|by intros [= <- <-]].
  assert ((if String.eqb action "discard" then discardDraw2Card random g
           else Returns (Failure "Invalid action", g)) = Returns (r, g') ->
          knockerWaits g') as Hdiscard.
  { destruct (String.eqb action "discard"); [|by intros [= <- <-]].
    by apply discardDraw2Card_knockerWaits. }
  destruct (String.eqb action "use" && notNull cardIndex); [|by apply Hdiscard].
  intros H. apply bind_Returns in H as ([result g1] & H1 & H).
  apply replaceCardInHand_knockerWaits in H1; [|done].
  destruct (success result); injection H as _ <-; [|done].
  by apply (knockerWaits_same g1).
Qed.

Lemma useAddCard_knockerWaits random g r g' :
  knockerWaits g -> useAddCard random g = Returns (r, g') -> knockerWaits g'.
Proof.
  intros Hk. unfold useAddCard, fail. destruct (drawnIs addcard g); [|by intros [= <- <-]].
  destruct (drawCard random g) as [newCard g1] eqn:Hd.
  pose proof (drawCard_frame _ _ _ _ Hd) as Hf; frame_fields Hf.
  intros H. apply bind_Returns in H as (g2 & H2 & H).
  apply bind_Returns in H as (g3 & Hturn & [= _ <-]).
  assert (knockerWaits g1) as Hk1 by (apply (knockerWaits_same g); try done; congruence).
  eapply power_knockerWaits; [|exact Hturn].
  destruct newCard as [c|]; [|by injection H2 as <-].
  destruct (getCurrentPlayer g1) as [p|] eqn:Hcur; [|done]. injection H2 as <-.
  apply (knockerWaits_same g1); [done|apply index_setCurrentPlayer| |
    apply index_setCurrentPlayer..].
  by eapply ids_setCurrentPlayer.
Qed.

Lemma knock_knockerWaits g r g' :
  knockerWaits g -> knock g = Returns (r, g') -> knockerWaits g'.
Proof.
  intros Hk. unfold knock, fail. destruct (truthyId _); [by intros [= <- <-]|].
  destruct (getCurrentPlayer g); [|done].
  intros H. apply bind_Returns in H as (g2 & Hadv & [= _ <-]).
  intros _. by apply advanceTurn_lands in Hadv.
Qed.

Lemma act_knockerWaits random a g r g' :
  knockerWaits g -> act random a g = Returns (r, g') -> knockerWaits g'.
Proof.
  intros Hk H. destruct a; cbn [act] in H.
  - by eapply drawFromDiscardPile_knockerWaits.
  - by eapply drawFromDeck_knockerWaits.
  - by eapply replaceCardInHand_knockerWaits.
  - by eapply discardDrawnCard_knockerWaits.
  - by eapply usePeek_knockerWaits.
  - by eapply useSwap_knockerWaits.
  - by eapply declineSwap_knockerWaits.
  - by eapply useDraw2_knockerWaits.
  - by eapply handleDraw2Card_knockerWaits.
  - by eapply useAddCard_knockerWaits.
  - by eapply knock_knockerWaits.
Qed.

(** X21 (knock, endTurn): as long as no player is removed, the turn is
    never with the knocker while the final round is active: in every
    state reached by [addPlayer], [startRound] and the action methods, an
    active final round has a current player, and that player's id is not
    the knocker's. *)
Theorem knocker_skipped_while_all_stay random g :
  reachableStaying random g -> finalRoundActive g = true ->
  exists p, getCurrentPlayer g = Some p /\ isKnocker g p = false.
Proof.
  intros H. change (knockerWaits g).
  induction H as [gid|g pid nm _ IH|g fuel b g' _ IH Hrun|g a r g' _ IH Hrun].
  - intros [=].
  - unfold addPlayer. case_decide; [done|]. destruct (gameStarted g); [done|].
    simpl. intros Hfin. destruct (IH Hfin) as (p & Hp & Hnk).
    exists p. split; [|done].
    apply getCurrentPlayer_Some in Hp as (n & Hn & Hp).
    unfold getCurrentPlayer. simpl. rewrite Hn. by apply lookup_app_l_Some.
  - destruct b; [|by apply startRound_false in Hrun as ->].
    intros Hfin. exfalso. revert Hrun Hfin. unfold startRound. case_decide; [done|].
    destruct (dealPlayers random _ _) as [ps g3] eqn:Hdeal.
    destruct (drawCard random _) as [c g5] eqn:Hdraw.
    intros Hrun. apply bind_Returns in Hrun as ([card g6] & Hfirst & [= <-]).
    apply dealPlayers_bag in Hdeal as [Hf3 _].
    pose proof (drawCard_frame _ _ _ _ Hdraw) as Hf5.
    apply firstDiscard_bag in Hfirst as [Hf6 _].
    simpl. rewrite Hf6. simpl. rewrite Hf5. simpl. rewrite Hf3. simpl. done.
  - by eapply act_knockerWaits.
Qed.

Lemma knocker_skipped_while_all_stay_witness :
  finalRoundActive gameKnocked = true /\
  exists p, getCurrentPlayer gameKnocked = Some p /\ isKnocker gameKnocked p = false.
Proof.
  assert (finalRoundActive gameKnocked = true) as Hf by (vm_compute; reflexivity).
  split; [exact Hf|].
  apply (knocker_skipped_while_all_stay scripted gameKnocked); [|exact Hf].
  assert (reachableStaying scripted gameA) as HA.
  { apply (stay_startRound scripted lobby3 0 true);
      [do 3 apply stay_addPlayer; apply stay_new|apply gameA_started]. }
  eapply (stay_act scripted _ Knock (Success Plain));
    [eapply (stay_act scripted _ DiscardDrawnCard (Success Plain));
       [eapply (stay_act scripted gameA DrawFromDeck
                  (Success (Drew (powerCard draw2) false)) gameA1);
          [exact HA|vm_compute; reflexivity]
       |vm_compute; reflexivity]
    |vm_compute; reflexivity].
Defined.

(** ** No call makes a card *)

Lemma drawReplacement_bag random fuel g r g1 :
  drawReplacement random fuel g = Returns (r, g1) ->
  bag (deck g1) ⊎ bag (discardPile g1) ⊎ slotBag r
  ⊆ bag (deck g) ⊎ bag (discardPile g).
Proof.
  revert g. induction fuel as [|fuel IH]; intros g; simpl;
    destruct (drawCard random g) as [[c|] g2] eqn:Hd;
    pose proof (drawCard_bag _ _ _ _ Hd) as Hb; simpl in Hb;
    try (intros [= <- <-]; simpl; clear -Hb; multiset_solver).
  - destruct (type c); try done. intros [= <- <-]. simpl. clear -Hb. multiset_solver.
  - destruct (type c);
      try (intros [= <- <-]; simpl; clear -Hb; multiset_solver);
      intros H; apply IH in H; clear -Hb H; multiset_solver.
Qed.

Lemma replaceSlot_bag random i p g p1 g1 :
  replaceSlot random i p g = Returns (p1, g1) ->
  bag (hand p1) ⊎ bag (deck g1) ⊎ bag (discardPile g1)
  ⊆ bag (hand p) ⊎ bag (deck g) ⊎ bag (discardPile g).
Proof.
  unfold replaceSlot. destruct (hand p !! i) as [[c|]|] eqn:Hc; [|done..].
  destruct (isPowerCard c); [|by intros [= <- <-]].
  intros H. apply bind_Returns in H as ([r g2] & Hr & H).
  apply drawReplacement_bag in Hr.
  destruct r as [n|]; injection H as <- <-; simpl in *.
  - pose proof (bag_insert _ _ _ (Some n) Hc) as Hi. simpl in Hi.
    clear -Hr Hi. multiset_solver.
  - clear -Hr. multiset_solver.
Qed.

Lemma replaceSlots_bag random n i p g p1 g1 :
  replaceSlots random n i p g = Returns (p1, g1) ->
  bag (hand p1) ⊎ bag (deck g1) ⊎ bag (discardPile g1)
  ⊆ bag (hand p) ⊎ bag (deck g) ⊎ bag (discardPile g).
Proof.
  revert i p g. induction n as [|n IH]; intros i p g; simpl.
  - by intros [= <- <-].
  - intros H. apply bind_Returns in H as ([p2 g2] & H1 & H2).
    apply replaceSlot_bag in H1. apply IH in H2. by etrans.
Qed.

Lemma endRoundPlayers_bag random ps g ps' g' :
  endRoundPlayers random ps g = Returns (ps', g') ->
  handsBag ps' ⊎ bag (deck g') ⊎ bag (discardPile g')
  ⊆ handsBag ps ⊎ bag (deck g) ⊎ bag (discardPile g).
Proof.
  revert g ps' g'. induction ps as [|p ps IH]; intros g ps' g'; simpl.
  - by intros [= <- <-].
  - intros H. apply bind_Returns in H as ([p1 g1] & H1 & H).
    apply bind_Returns in H as ([rest g2] & H2 & [= <- <-]).
    apply IH in H2. unfold endRoundPlayer in H1.
    apply bind_Returns in H1 as ([p2 g3] & Hs & H1).
    apply bind_Returns in H1 as (p3 & Hc & [= <- <-]).
    unfold calculateScore in Hc. apply bind_Returns in Hc as (s & _ & [= <-]).
    apply replaceSlots_bag in Hs. simpl. clear -H2 Hs. multiset_solver.
Qed.

Lemma endRound_cardBag_sub random g g' :
  endRound random g = Returns g' -> cardBag g' ⊆ cardBag g.
Proof.
  intros H. pose proof (endRound_frame _ _ _ H) as [_ Hfr]. frame_fields Hfr.
  unfold endRound in H. apply bind_Returns in H as ([ps g1] & H1 & [= <-]).
  apply endRoundPlayers_bag in H1. unfold cardBag. simpl in *.
  rewrite Hfr2. clear -H1. multiset_solver.
Qed.

Lemma endTurn_cardBag_sub random x g' :
  endTurn random x = Returns g' -> cardBag g' ⊆ cardBag x.
Proof.
  unfold endTurn. simpl.
  destruct (finalRoundActive x); [destruct (_ <=? _)%Z|].
  - intros H. apply endRound_cardBag_sub in H. etrans; [exact H|].
    unfold cardBag. simpl. multiset_solver.
  - intros H. apply advanceTurn_frame in H. rewrite H.
    unfold cardBag. simpl. multiset_solver.
  - intros H. apply advanceTurn_frame in H. rewrite H.
    unfold cardBag. simpl. multiset_solver.
Qed.

(** A turn action hands to [endTurn] a state with the cards of [g]. *)
Lemma finish_cardBag_sub random g x g' :
  cardBag x = cardBag g -> endTurn random x = Returns g' -> cardBag g' ⊆ cardBag g.
Proof. intros <- H. by eapply endTurn_cardBag_sub. Qed.

Lemma replaceCardInHand_cardBag_sub random (i : Z) g r g' :
  replaceCardInHand random i g = Returns (r, g') -> cardBag g' ⊆ cardBag g.
Proof.
  unfold replaceCardInHand, fail, handAt, replaceCard, setHandAt. cbn [indexKey].
  destruct (drawnCard g) as [drawn|] eqn:Hd; [|by intros [= <- <-]].
  destruct (getCurrentPlayer g) as [player|] eqn:Hcur; [|done].
  destruct (validIndex _ _) eqn:Hi; [|by intros [= <- <-]].
  intros H. apply bind_Returns in H as (g4 & Hturn & [= _ <-]).
  eapply finish_cardBag_sub; [|exact Hturn].
  apply getCurrentPlayer_Some in Hcur as (n & Hn & Hp).
  apply validIndex_lt in Hi as [_ Hi].
  destruct (lookup_lt_is_Some_2 _ _ Hi) as [e He].
  unfold cardBag, setCurrentPlayer, pushDiscard. rewrite Hn, Hd, He. cbn.
  rewrite bag_snoc.
  pose proof (handsBag_insert _ _ _
                (set_hand (<[Z.to_nat i:=Some drawn]> (hand player)) player) Hp) as H1.
  pose proof (bag_insert _ _ _ (Some drawn) He) as H2.
  cbn [slotBag hand set_hand] in H1, H2.
  clear -H1 H2. multiset_solver.
Qed.

Lemma power_cardBag_sub random g g' :
  endTurn random (discardDrawn g) = Returns g' -> cardBag g' ⊆ cardBag g.
Proof. intros H. eapply finish_cardBag_sub; [|exact H]. apply discardDrawn_cardBag. Qed.

Lemma discardDrawnCard_cardBag_sub random g r g' :
  discardDrawnCard random g = Returns (r, g') -> cardBag g' ⊆ cardBag g.
Proof.
  unfold discardDrawnCard, fail.
  destruct (drawnCard g) as [drawn|] eqn:Hd; [|by intros [= <- <-]].
  destruct (drawnFromDiscard g); [by intros [= <- <-]|].
  intros H. apply bind_Returns in H as (g1 & Hturn & [= _ <-]).
  eapply finish_cardBag_sub; [|exact Hturn].
  unfold cardBag, pushDiscard. cbn. rewrite Hd, bag_snoc. cbn. multiset_solver.
Qed.

Lemma usePeek_cardBag_sub random i g r g' :
  usePeek random i g = Returns (r, g') -> cardBag g' ⊆ cardBag g.
Proof.
  unfold usePeek, fail. destruct (drawnIs peek g); [|by intros [= <- <-]].
  destruct (getCurrentPlayer g); [|done].
  destruct (validIndex _ _); [|by intros [= <- <-]].
  intros H. apply bind_Returns in H as (g1 & Hturn & [= _ <-]).
  by eapply power_cardBag_sub.
Qed.

Lemma declineSwap_cardBag_sub random g r g' :
  declineSwap random g = Returns (r, g') -> cardBag g' ⊆ cardBag g.
Proof.
  unfold declineSwap, fail. destruct (drawnIs swap g); [|by intros [= <- <-]].
  intros H. apply bind_Returns in H as (g1 & Hturn & [= _ <-]).
  by eapply power_cardBag_sub.
Qed.

Lemma useSwap_cardBag_sub random (i : Z) o (j : Z) g r g' :
  useSwap random i o j g = Returns (r, g') -> cardBag g' ⊆ cardBag g.
Proof.
  unfold useSwap, fail, handAt, setHandAt, setKnownAt. cbn [indexKey]. destruct (drawnIs swap g); [|by intros [= <- <-]].
  destruct (findPlayer _ _) as [[oi opponent]|] eqn:Hfind; [|by intros [= <- <-]].
  destruct (getCurrentPlayer g) as [player|] eqn:Hcur; [|done].
  destruct (String.eqb_spec (id opponent) (id player)) as [|Hne]; [by intros [= <- <-]|].
  destruct (validIndex i _) eqn:Hi; cbn [negb]; [|by intros [= <- <-]].
  destruct (validIndex j _) eqn:Hj; cbn [negb]; [|by intros [= <- <-]].
  intros H. apply bind_Returns in H as (g1 & Hturn & [= _ <-]).
  eapply finish_cardBag_sub; [|exact Hturn]. rewrite discardDrawn_cardBag.
  apply getCurrentPlayer_Some in Hcur as (n & Hn & Hp).
  apply findPlayer_Some in Hfind as [Ho _].
  apply validIndex_lt in Hi as [_ Hi], Hj as [_ Hj].
  destruct (lookup_lt_is_Some_2 _ _ Hi) as [a Ha].
  destruct (lookup_lt_is_Some_2 _ _ Hj) as [b Hb].
  assert (n <> oi) as Hno by (intros ->; congruence).
  unfold cardBag, setCurrentPlayer. rewrite Hn, Ha, Hb. cbn.
  match goal with
  | |- context [handsBag (<[oi:=?o']> (<[n:=?p']> _))] =>
      pose proof (handsBag_insert _ _ _ p' Hp) as H1;
      pose proof (handsBag_insert (<[n:=p']> (players g)) oi opponent o') as H2
  end.
  rewrite list_lookup_insert_ne in H2 by done. specialize (H2 Ho).
  pose proof (bag_insert _ _ _ b Ha) as H3.
  pose proof (bag_insert _ _ _ a Hb) as H4.
  cbn [hand set_hand set_knownCards] in H1, H2. clear -H1 H2 H3 H4. multiset_solver.
Qed.

Lemma useDraw2_cardBag_sub random g r g' :
  useDraw2 random g = Returns (r, g') -> cardBag g' ⊆ cardBag g.
Proof.
  unfold useDraw2, fail. destruct (drawnIs draw2 g); [|by intros [= <- <-]].
  destruct (drawCard random _) as [[firstCard|] g2] eqn:Hdraw;
    pose proof (drawCard_frame _ _ _ _ Hdraw) as Hf; frame_fields Hf;
    pose proof (drawCard_bag _ _ _ _ Hdraw) as Hb;
    unfold pushDiscard in Hb; cbn in Hb; rewrite bag_snoc in Hb.
  - case_bool_decide as Hty.
    + intros H. apply chainDraw2_cardBag in H as ->; [|done].
      unfold cardBag. cbn. rewrite Hfr. clear -Hb. multiset_solver.
    + intros [= _ <-]. unfold cardBag. cbn. rewrite Hfr. clear -Hb. multiset_solver.
  - intros H. apply bind_Returns in H as (g3 & Hturn & [= _ <-]).
    eapply finish_cardBag_sub; [|exact Hturn].
    unfold cardBag. cbn. rewrite Hfr, Hfr1. cbn in *. clear -Hb. multiset_solver.
Qed.

Lemma discardDraw2Card_cardBag_sub random g r g' :
  discardDraw2Card random g = Returns (r, g') -> cardBag g' ⊆ cardBag g.
Proof.
  unfold discardDraw2Card. cbn zeta. destruct (0 <? _)%Z.
  - destruct (drawCard random _) as [[nextCard|] g2] eqn:Hdraw;
      pose proof (drawCard_frame _ _ _ _ Hdraw) as Hf; frame_fields Hf;
      pose proof (drawCard_bag _ _ _ _ Hdraw) as Hb;
      unfold pushDiscard in Hb; cbn in Hb; rewrite bag_snoc in Hb.
    + case_bool_decide as Hty.
      * intros H. apply chainDraw2_cardBag in H as ->; [|done].
        unfold cardBag. cbn. rewrite Hfr. clear -Hb. multiset_solver.
      * intros [= _ <-]. unfold cardBag. cbn. rewrite Hfr. clear -Hb. multiset_solver.
    + intros H. apply bind_Returns in H as (g3 & Hturn & [= _ <-]).
      eapply finish_cardBag_sub; [|exact Hturn].
      unfold cardBag. cbn. rewrite Hfr, Hfr1. cbn in *. clear -Hb. multiset_solver.
  - intros H. apply bind_Returns in H as (g3 & Hturn & [= _ <-]).
    eapply finish_cardBag_sub; [|exact Hturn].
    unfold cardBag, pushDiscard. cbn. rewrite bag_snoc. multiset_solver.
Qed.

Lemma handleDraw2Card_cardBag_sub random action cardIndex g r g' :
  isInteger cardIndex || negb (notNull cardIndex) = true ->
  handleDraw2Card random action cardIndex g = Returns (r, g') ->
  cardBag g' ⊆ cardBag g.
Proof.
  intros Hint. unfold handleDraw2Card, fail.
  destruct (draw2ChainActive g); cbn [negb]; [|by intros [= <- <-]].
  assert ((if String.eqb action "discard" then discardDraw2Card random g
           else Returns (Failure "Invalid action", g)) = Returns (r, g') ->
          cardBag g' ⊆ cardBag g) as Hdiscard.
  { destruct (String.eqb action "discard"); [|by intros [= <- <-]].
    apply discardDraw2Card_cardBag_sub. }
  destruct (String.eqb action "use" && notNull cardIndex) eqn:Huse; [|by apply Hdiscard].
  destruct (use_integer _ _ Hint Huse) as [i ->].
  intros H. apply bind_Returns in H as ([result g1] & H1 & H).
  apply replaceCardInHand_cardBag_sub in H1.
  by destruct (success result); injection H as _ <-.
Qed.

Lemma useAddCard_cardBag_sub random g r g' :
  useAddCard random g = Returns (r, g') -> cardBag g' ⊆ cardBag g.
Proof.
  unfold useAddCard, fail. destruct (drawnIs addcard g); [|by intros [= <- <-]].
  destruct (drawCard random g) as [newCard g1] eqn:Hdraw.
  pose proof (drawCard_frame _ _ _ _ Hdraw) as Hf. frame_fields Hf.
  pose proof (drawCard_bag _ _ _ _ Hdraw) as Hb.
  intros H. apply bind_Returns in H as (g2 & H2 & H).
  apply bind_Returns in H as (g3 & Hturn & [= _ <-]).
  eapply finish_cardBag_sub; [|exact Hturn]. rewrite discardDrawn_cardBag.
  destruct newCard as [c|].
  - destruct (getCurrentPlayer g1) as [p|] eqn:Hcur; [|done]. injection H2 as <-.
    apply getCurrentPlayer_Some in Hcur as (n & Hn & Hp).
    pose proof (handsBag_insert _ _ _ (addCard (Some c) p) Hp) as H1.
    unfold cardBag, setCurrentPlayer. rewrite Hn. cbn in *. rewrite bag_snoc in H1.
    rewrite <- Hfr, Hfr1. cbn in *. clear -H1 Hb. multiset_solver.
  - injection H2 as <-. unfold cardBag. rewrite Hfr, Hfr1. cbn in *.
    clear -Hb. multiset_solver.
Qed.

Lemma knock_cardBag_sub g r g' :
  knock g = Returns (r, g') -> cardBag g' ⊆ cardBag g.
Proof.
  unfold knock, fail. destruct (truthyId _); [by intros [= <- <-]|].
  destruct (getCurrentPlayer g); [|done].
  intros H. apply bind_Returns in H as (g2 & Hadv & [= _ <-]).
  apply advanceTurn_frame in Hadv. rewrite Hadv. unfold cardBag. cbn. multiset_solver.
Qed.

(** X22 (all action methods, endRound): no action call with integer card
    indices ever makes or copies a card: whatever it returns, the cards in
    deck, discard pile, hands and pending card afterwards are among those
    that were there before, each at most as often.  (Cards can leave:
    [knock] drops a pending card, and a round end drops the power cards
    it replaces.  With an index that is no integer a card can come back
    from a property of a hand array, see [parked_card_comes_back].) *)
Theorem act_makes_no_card random a g r g' :
  integerIndices a = true ->
  act random a g = Returns (r, g') ->
  cardBag g' ⊆ cardBag g /\ cardCount g' <= cardCount g.
Proof.
  intros Hint H. assert (cardBag g' ⊆ cardBag g) as Hsub.
  { destruct a; cbn [act integerIndices] in H, Hint.
    - by apply drawFromDiscardPile_cardBag in H as ->.
    - by apply drawFromDeck_cardBag in H as ->.
    - apply isInteger_Integer in Hint as [i ->]. by eapply replaceCardInHand_cardBag_sub.
    - by eapply discardDrawnCard_cardBag_sub.
    - by eapply usePeek_cardBag_sub.
    - apply andb_true_iff in Hint as [[i ->]%isInteger_Integer [j ->]%isInteger_Integer].
      by eapply useSwap_cardBag_sub.
    - by eapply declineSwap_cardBag_sub.
    - by eapply useDraw2_cardBag_sub.
    - by eapply handleDraw2Card_cardBag_sub.
    - by eapply useAddCard_cardBag_sub.
    - by eapply knock_cardBag_sub. }
  split; [done|]. rewrite !cardCount_size. by apply gmultiset_subseteq_size.
Qed.

Lemma act_makes_no_card_witness :
  exists g', act scripted (UseSwap 1 "k" 0) gameLastSwap = Returns (Success (SwappedWith "Kim"), g') /\
    roundEnded g' = true /\ cardCount g' <= cardCount gameLastSwap.
Proof.
  assert (exists g', act scripted (UseSwap 1 "k" 0) gameLastSwap
                     = Returns (Success (SwappedWith "Kim"), g')) as [g' H]
    by (vm_compute; eexists; reflexivity).
  exists g'. split; [exact H|]. split.
  - revert H. vm_compute. intros [= <-]. reflexivity.
  - exact (proj2 (act_makes_no_card scripted (UseSwap 1 "k" 0) gameLastSwap _ g'
                    eq_refl H)).
Defined.

Lemma gameParked_reachable : reachable scripted gameParked.
Proof.
  apply (run_reachable scripted parkMoves gameA); [apply gameA_reachable|].
  vm_compute. reflexivity.
Qed.

(** An index that is no integer brings a card back: Alice's first
    "replace slot 1.5" has left a Draw-Two in the property [1.5] of her
    hand array, so that two Draw-Two cards are in piles and hand slots.
    Her second one stores the 3 she drew there and pushes the Draw-Two
    on the discard pile: now three are. *)
Lemma parked_card_comes_back :
  reachable scripted gameParked /\
  multiplicity (powerCard draw2) (cardBag gameParked) = 2 /\
  exists g', act scripted (ReplaceCardInHand (Other (Some 1%Z) "1.5")) gameParked
             = Returns (Success Plain, g') /\
    multiplicity (powerCard draw2) (cardBag g') = 3 /\
    ~ cardBag g' ⊆ cardBag gameParked.
Proof.
  split; [apply gameParked_reachable|]. split; [vm_compute; reflexivity|].
  eexists. split; [vm_compute; reflexivity|]. split; [vm_compute; reflexivity|].
  intros H. specialize (H (powerCard draw2)). vm_compute in H. lia.
Qed.

(** ** A Draw-Two chain on piles that hold cards *)

Lemma drawCard_None random g g1 :
  nullFree g -> drawCard random g = (None, g1) -> exhausted g /\ g1 = g.
Proof.
  intros Hnf H. destruct (drawCard_cases _ _ _ _ H) as [(? & _ & ?)|HP]; [done|].
  exfalso. apply Permutation_sym in HP.
  unfold nullFree in Hnf. rewrite HP in Hnf. by inversion Hnf as [|? ? []].
Qed.

Lemma drawCard_discard_nonempty random g c g1 :
  drawCard random g = (c, g1) -> discardPile g <> [] -> discardPile g1 <> [].
Proof.
  unfold drawCard, refillDeck. intros H Hne.
  assert (discardPile (match deck g, pop (discardPile g) with
                       | [], Some (rest, topCard) =>
                           if decide (1 < length (discardPile g))
                           then shuffleDeck random (set_discardPile [topCard] (set_deck rest g))
                           else g
                       | _, _ => g
                       end) <> []) as Hd.
  { destruct (deck g); [|done]. destruct (pop (discardPile g)) as [[rest top]|]; [|done].
    by destruct (decide _). }
  revert H Hd. generalize (match deck g, pop (discardPile g) with
                           | [], Some (rest, topCard) =>
                               if decide (1 < length (discardPile g))
                               then shuffleDeck random (set_discardPile [topCard] (set_deck rest g))
                               else g
                           | _, _ => g
                           end). intros x H Hd.
  by destruct (pop (deck x)) as [[rest y]|]; injection H as _ <-.
Qed.

Lemma nullFree_push g c k :
  nullFree g -> deck k = deck g -> discardPile k = discardPile g ++ [Some c] ->
  nullFree k.
Proof.
  unfold nullFree. intros H -> ->. rewrite app_assoc. apply Forall_app. split; [done|].
  by repeat constructor.
Qed.

(** The chained branch on such piles: the discard pile has two entries
    at least, so the next draw gives a card. *)
Lemma chainDraw2_pending random c g r g' :
  nullFree g -> discardPile g <> [] ->
  chainDraw2 random c g = Returns (r, g') ->
  exists n, r = Success (Chain (Some n) (Some true) 2) /\ drawnCard g' = Some n /\
    draw2CardsRemaining g' = 2%Z /\ draw2ChainActive g' = draw2ChainActive g.
Proof.
  intros Hnf Hne. unfold chainDraw2.
  destruct (drawCard random _) as [[n|] g2] eqn:Hd.
  - pose proof (drawCard_frame _ _ _ _ Hd) as Hf; frame_fields Hf.
    intros [= <- <-]. exists n. simpl. by split_and!.
  - apply drawCard_None in Hd as [[_ Hex] _].
    + simpl in Hex. rewrite length_app in Hex. simpl in Hex.
      destruct (discardPile g); [done|simpl in Hex; lia].
    + by eapply (nullFree_push g c).
Qed.

Lemma endTurn_clears random x g' :
  endTurn random x = Returns g' ->
  drawnCard g' = None /\ draw2ChainActive g' = draw2ChainActive x.
Proof.
  unfold endTurn. simpl.
  destruct (finalRoundActive x); [destruct (_ <=? _)%Z|]; intros H.
  - apply endRound_frame in H as [_ Hfr]. by frame_fields Hfr.
  - apply advanceTurn_frame in H. by rewrite H.
  - apply advanceTurn_frame in H. by rewrite H.
Qed.

Lemma useDraw2_pending random g r g' :
  nullFree g -> drawnCard g <> None ->
  useDraw2 random g = Returns (r, g') ->
  (draw2ChainActive g' = true -> drawnCard g' <> None) /\
  (r = Failure "Deck empty" ->
   draw2ChainActive g' = false /\ drawnCard g' = None /\
   deck g = [] /\ discardPile g = []).
Proof.
  intros Hnf Hpend. unfold useDraw2, fail.
  destruct (drawnIs draw2 g); [|by intros [= <- <-]].
  destruct (drawnCard g) as [d|] eqn:Hd; [|done].
  assert (nullFree (set_draw2CardsRemaining 2 (set_draw2ChainActive true
            (set_drawnCard None (pushDiscard (Some d) g))))) as Hnf1
    by (by eapply (nullFree_push g d)).
  destruct (drawCard random _) as [[firstCard|] g2] eqn:Hdraw.
  - destruct (drawCard_nullFree _ _ _ _ Hdraw Hnf1) as [Hnf2 _].
    pose proof (drawCard_discard_nonempty _ _ _ _ Hdraw) as Hne. simpl in Hne.
    case_bool_decide as Hty.
    + intros H. apply chainDraw2_pending in H as (n & -> & Hn & _); [| |].
      * split; [by rewrite Hn|done].
      * done.
      * simpl. apply Hne. by destruct (discardPile g).
    + by intros [= <- <-].
  - apply drawCard_None in Hdraw as [[Hdk Hex] ->]; [|done].
    simpl in Hdk, Hex. rewrite length_app in Hex. simpl in Hex.
    intros H. apply bind_Returns in H as (g3 & Hturn & [= <- <-]).
    apply endTurn_clears in Hturn as [Hc Ha]. simpl in Ha.
    split; [by rewrite Ha|]. intros _. split_and!; try done.
    destruct (discardPile g); [done|simpl in Hex; lia].
Qed.

Lemma discardDraw2Card_pending random g r g' :
  nullFree g -> drawnCard g <> None -> draw2ChainActive g = true ->
  discardDraw2Card random g = Returns (r, g') ->
  (draw2ChainActive g' = true -> drawnCard g' <> None) /\
  (r = Failure "Deck empty" ->
   draw2ChainActive g' = false /\ drawnCard g' = None /\
   deck g = [] /\ discardPile g = []).
Proof.
  intros Hnf Hpend Hact. unfold discardDraw2Card. cbn zeta.
  destruct (drawnCard g) as [d|] eqn:Hd; [|done].
  assert (nullFree (set_draw2CardsRemaining (draw2CardsRemaining g - 1)
            (set_drawnCard None (pushDiscard (Some d) g)))) as Hnf1
    by (by eapply (nullFree_push g d)).
  destruct (0 <? _)%Z.
  - destruct (drawCard random _) as [[nextCard|] g2] eqn:Hdraw.
    + destruct (drawCard_nullFree _ _ _ _ Hdraw Hnf1) as [Hnf2 _].
      pose proof (drawCard_discard_nonempty _ _ _ _ Hdraw) as Hne. simpl in Hne.
      case_bool_decide as Hty.
      * intros H. apply chainDraw2_pending in H as (n & -> & Hn & _); [| |].
        -- split; [by rewrite Hn|done].
        -- done.
        -- simpl. apply Hne. by destruct (discardPile g).
      * by intros [= <- <-].
    + apply drawCard_None in Hdraw as [[Hdk Hex] ->]; [|done].
      simpl in Hdk, Hex. rewrite length_app in Hex. simpl in Hex.
      intros H. apply bind_Returns in H as (g3 & Hturn & [= <- <-]).
      apply endTurn_clears in Hturn as [Hc Ha]. simpl in Ha.
      split; [by rewrite Ha|]. intros _. split_and!; try done.
      destruct (discardPile g); [done|simpl in Hex; lia].
  - intros H. apply bind_Returns in H as (g3 & Hturn & [= <- <-]).
    apply endTurn_clears in Hturn as [Hc Ha]. simpl in Ha.
    split; [by rewrite Ha|done].
Qed.

Lemma replaceCardInHand_errors random i g e g' :
  replaceCardInHand random i g = Returns (Failure e, g') ->
  e = "No card drawn"%string \/ e = "Invalid card index"%string.
Proof.
  unfold replaceCardInHand, fail.
  destruct (drawnCard g); [|intros [= <- _]; by left].
  destruct (getCurrentPlayer g); [|done].
  destruct (validIndex _ _); [|intros [= <- _]; by right].
  intros H. by apply bind_Returns in H as (g4 & _ & [=]).
Qed.

(** X23 (useDraw2, handleDraw2Card): called with a card pending, on piles
    that hold no [null] entry, the two Draw-Two methods never return with
    the chain active and nothing pending.  'Deck empty' is reported only
    when deck and discard pile were both empty, and the chain is then off
    and no card is pending. *)
Theorem chain_keeps_a_card_pending random a g r g' :
  a = UseDraw2 \/ (exists action cardIndex, a = HandleDraw2Card action cardIndex) ->
  nullFree g -> drawnCard g <> None ->
  act random a g = Returns (r, g') ->
  (draw2ChainActive g' = true -> drawnCard g' <> None) /\
  (r = Failure "Deck empty" ->
   draw2ChainActive g' = false /\ drawnCard g' = None /\
   deck g = [] /\ discardPile g = []).
Proof.
  intros [->|(action & cardIndex & ->)] Hnf Hpend; cbn [act].
  - by apply useDraw2_pending.
  - unfold handleDraw2Card, fail.
    destruct (draw2ChainActive g) eqn:Hact; cbn [negb]; [|by intros [= <- <-]].
    assert ((if String.eqb action "discard" then discardDraw2Card random g
             else Returns (Failure "Invalid action", g)) = Returns (r, g') ->
            (draw2ChainActive g' = true -> drawnCard g' <> None) /\
            (r = Failure "Deck empty" ->
             draw2ChainActive g' = false /\ drawnCard g' = None /\
             deck g = [] /\ discardPile g = [])) as Hdiscard.
    { destruct (String.eqb action "discard"); [|by intros [= <- <-]].
      by apply discardDraw2Card_pending. }
    destruct (String.eqb action "use" && notNull cardIndex); [|by apply Hdiscard].
    intros H. apply bind_Returns in H as ([result g1] & H1 & H).
    destruct result as [pl|e]; simpl in H; injection H as <- <-.
    + by split.
    + pose proof (replaceCardInHand_Failure _ _ _ _ _ H1) as ->.
      split; [done|]. intros [= ->].
      by destruct (replaceCardInHand_errors _ _ _ _ _ H1).
Qed.

Lemma chain_keeps_a_card_pending_witness :
  draw2ChainActive gameA2 = true /\ drawnCard gameA2 <> None.
Proof.
  assert (draw2ChainActive gameA2 = true) as Hc by (vm_compute; reflexivity).
  split; [exact Hc|].
  refine (proj1 (chain_keeps_a_card_pending scripted UseDraw2 gameA1
                   (Success (Chain (Some (powerCard draw2)) (Some true) 2)) gameA2
                   (or_introl eq_refl) _ _ _) Hc).
  - unfold nullFree. vm_compute. repeat (constructor; [eexists; reflexivity|]). constructor.
  - vm_compute. discriminate.
  - vm_compute. reflexivity.
Defined.

(** ** What [startRound] resets and what it keeps *)

(** X24 (startRound): a round that starts resets the knocker, the
    final-round flag, the count of final turns and the round-ended flag,
    and keeps every player's id, name, round score and total score.  It
    does not clear the pending card, its origin flag or the Draw-Two
    chain state: a round started while a card is pending begins with that
    card pending. *)
Theorem startRound_keeps_pending_card random fuel g g' :
  startRound random fuel g = Returns (true, g') ->
  drawnCard g' = drawnCard g /\ drawnFromDiscard g' = drawnFromDiscard g /\
  draw2ChainActive g' = draw2ChainActive g /\
  draw2CardsRemaining g' = draw2CardsRemaining g /\
  map seat (players g') = map seat (players g) /\
  knockerId g' = None /\ finalRoundActive g' = false /\
  playersCompletedFinalTurn g' = 0 /\ roundEnded g' = false.
Proof.
  intros H. pose proof (startRound_keeps _ _ _ _ H) as (H1 & H2 & H3 & H4 & H5).
  split_and!; try done; revert H; clear; unfold startRound;
    (case_decide as Hn; [done|]);
    destruct (dealPlayers random _ _) as [ps g3] eqn:Hdeal;
    destruct (drawCard random _) as [c g5] eqn:Hdraw;
    intros Hrun; apply bind_Returns in Hrun as ([card g6] & Hfirst & [= <-]);
    apply dealPlayers_bag in Hdeal as [Hf3 _];
    pose proof (drawCard_frame _ _ _ _ Hdraw) as Hf5;
    apply firstDiscard_bag in Hfirst as [Hf6 _];
    simpl; rewrite Hf6; simpl; rewrite Hf5; simpl; rewrite Hf3; done.
Qed.

Lemma startRound_keeps_pending_card_witness :
  exists g', startRound scripted 0 gameA1 = Returns (true, g') /\
    drawnCard g' = Some (powerCard draw2) /\ cardCount g' = 57.
Proof.
  assert (exists g', startRound scripted 0 gameA1 = Returns (true, g')) as [g' H]
    by (vm_compute; eexists; reflexivity).
  exists g'. split; [exact H|]. split.
  - rewrite (proj1 (startRound_keeps_pending_card scripted 0 gameA1 g' H)).
    vm_compute; reflexivity.
  - revert H. vm_compute. intros [= <-]. reflexivity.
Defined.

(** ** What a player is shown of the hands *)

Lemma imap_lookup_ownEntry g p (h : list Slot) s c :
  h !! s = Some c -> imap (ownEntry g p) h !! s = Some (ownEntry g p s c).
Proof. intros H. by rewrite list_lookup_imap, H. Qed.

(** X25 (getGameState): the projection for a player shows that player
    the first and the last card of the own hand at all times, whatever
    the known mask says -- also a card that a swap or an Add-Card just
    put there. *)
Theorem own_outer_cards_shown playerId g k p s c :
  players g !! k = Some p -> id p = playerId ->
  hand p !! s = Some c ->
  s = 0 \/ s = length (hand p) - 1 ->
  exists pv e,
    View.players (getGameState playerId g) !! k = Some pv /\
    View.hand pv !! s = Some e /\
    View.card e = View.Visible c /\ View.isOuter e = true /\
    View.isKnown e = roundEnded g || known p s.
Proof.
  intros Hp Hid Hc Hs.
  exists (playerView g playerId p), (ownEntry g p s c). split_and!.
  - simpl. by rewrite list_lookup_fmap, Hp.
  - unfold playerView. simpl. rewrite Hid, String.eqb_refl.
    by apply imap_lookup_ownEntry.
  - assert ((s =? 0) || (Z.of_nat s =? Z.of_nat (length (hand p)) - 1)%Z = true) as Ho.
    { pose proof (lookup_lt_Some _ _ _ Hc). destruct Hs as [->| ->]; [done|].
      apply orb_true_iff. right. apply Z.eqb_eq. lia. }
    unfold ownEntry. simpl. rewrite Ho. by rewrite !orb_true_r.
  - pose proof (lookup_lt_Some _ _ _ Hc). unfold ownEntry. simpl.
    destruct Hs as [->| ->]; [done|].
    apply orb_true_iff. right. apply Z.eqb_eq. lia.
  - done.
Qed.

Lemma own_outer_cards_shown_witness :
  known (mkPlayer "a" "Alice" [Some (numberCard 0); Some (numberCard 1);
                                Some (numberCard 2); Some (numberCard 3)]
           [] [false; false; false; false] 0 0) 3 = false /\
  exists pv e,
    View.players (getGameState "a" gameA) !! 0 = Some pv /\
    View.hand pv !! 3 = Some e /\
    View.card e = View.Visible (Some (numberCard 3)).
Proof.
  split; [reflexivity|].
  destruct (own_outer_cards_shown "a" gameA 0
              (mkPlayer "a" "Alice" [Some (numberCard 0); Some (numberCard 1);
                                     Some (numberCard 2); Some (numberCard 3)]
                 [] [false; false; false; false] 0 0) 3 (Some (numberCard 3)))
    as (pv & e & H1 & H2 & H3 & _);
    [vm_compute; reflexivity|reflexivity|reflexivity|by right|].
  exists pv, e. exact (conj H1 (conj H2 H3)).
Defined.

(** X26 (getGameState): once the round has ended the projection shows
    every requester every card of every hand, and every player's round
    score. *)
Theorem round_end_reveals_all playerId g k p :
  roundEnded g = true -> players g !! k = Some p ->
  exists pv,
    View.players (getGameState playerId g) !! k = Some pv /\
    View.card <$> View.hand pv = View.Visible <$> hand p /\
    Forall (fun e => View.isKnown e = true) (View.hand pv) /\
    View.score pv = Some (score p).
Proof.
  intros Hr Hp. exists (playerView g playerId p). split_and!.
  - simpl. by rewrite list_lookup_fmap, Hp.
  - unfold playerView. simpl. destruct (String.eqb (id p) playerId).
    + apply list_eq. intros s. rewrite !list_lookup_fmap, list_lookup_imap.
      destruct (hand p !! s); [|done]. simpl. unfold ownEntry. by rewrite Hr.
    + rewrite <- list_fmap_compose. apply list_fmap_ext. intros s c _. simpl.
      unfold otherEntry. by rewrite Hr.
  - unfold playerView. simpl. destruct (String.eqb (id p) playerId).
    + apply Forall_lookup. intros s e. rewrite list_lookup_imap.
      destruct (hand p !! s); [|done]. intros [= <-]. unfold ownEntry. by rewrite Hr.
    + apply Forall_fmap, Forall_true. intros c. unfold otherEntry. by rewrite Hr.
  - unfold playerView. simpl. by rewrite Hr.
Qed.

Lemma round_end_reveals_all_witness :
  exists g p pv,
    useSwap scripted 1 "k" 0 gameLastSwap = Returns (Success (SwappedWith "Kim"), g) /\
    roundEnded g = true /\ players g !! 1 = Some p /\
    View.players (getGameState "a" g) !! 1 = Some pv /\
    View.card <$> View.hand pv = View.Visible <$> hand p.
Proof.
  assert (exists g, useSwap scripted 1 "k" 0 gameLastSwap
                    = Returns (Success (SwappedWith "Kim"), g)) as [g H]
    by (vm_compute; eexists; reflexivity).
  assert (roundEnded g = true) as Hr
    by (revert H; vm_compute; intros [= <-]; reflexivity).
  assert (exists p, players g !! 1 = Some p) as [p Hp]
    by (revert H; vm_compute; intros [= <-]; eexists; reflexivity).
  destruct (round_end_reveals_all "a" g 1 p Hr Hp) as (pv & H1 & H2 & _).
  exists g, p, pv. exact (conj H (conj Hr (conj Hp (conj H1 H2)))).
Defined.

(** ** Every order of the deck can come out of the shuffle *)

Lemma fisherYates_ext {A} r1 r2 i k (d : list A) :
  (forall m, k <= m -> r1 m = r2 m) ->
  fisherYates r1 i k d = fisherYates r2 i k d.
Proof.
  revert k d. induction i as [|i IH]; intros k d H; simpl; [done|].
  rewrite (H k) by lia. apply IH. intros m Hm. apply H. lia.
Qed.

Lemma exchange_length {A} i j (l : list A) : length (exchange i j l) = length l.
Proof. apply Permutation_length, exchange_Permutation. Qed.

Lemma exchange_lookup {A} i j (l : list A) x :
  i < length l -> l !! j = Some x -> exchange i j l !! i = Some x.
Proof.
  intros Hi Hj. unfold exchange.
  destruct (lookup_lt_is_Some_2 l i Hi) as [y Hy]. rewrite Hy, Hj.
  destruct (decide (i = j)) as [->|Hne].
  - rewrite list_lookup_insert_eq by (by rewrite length_insert). congruence.
  - rewrite list_lookup_insert_ne by done. by rewrite list_lookup_insert_eq.
Qed.

Lemma exchange_drop {A} i j n (l : list A) :
  i < n -> j < n -> drop n (exchange i j l) = drop n l.
Proof.
  intros Hi Hj. unfold exchange.
  destruct (l !! i), (l !! j); try done. by rewrite !drop_insert_lt.
Qed.

Lemma fisherYates_reaches {A} i k (d t : list A) :
  length d = length t -> i < length d ->
  take (S i) d ≡ₚ take (S i) t -> drop (S i) d = drop (S i) t ->
  exists random, fisherYates random i k d = t.
Proof.
  revert k d. induction i as [|i IH]; intros k d Hlen Hi Htake Hdrop.
  - exists (fun _ => 0). simpl.
    destruct d as [|a d], t as [|b t]; simpl in *; try lia.
    rewrite !take_0 in Htake. apply Permutation_singleton_l in Htake.
    rewrite !drop_0 in Hdrop. congruence.
  - assert (S i < length t) as Hit by lia.
    destruct (lookup_lt_is_Some_2 t _ Hit) as [x Hx].
    assert (x ∈ take (S (S i)) d) as Hin.
    { rewrite Htake. apply list_elem_of_lookup. exists (S i).
      apply lookup_take_Some. split; [done|lia]. }
    apply list_elem_of_lookup in Hin as [j Hj].
    apply lookup_take_Some in Hj as [Hj Hjlt].
    set (d' := exchange (S i) j d).
    assert (d' !! S i = Some x) as Hx' by (by apply exchange_lookup).
    assert (drop (S (S i)) d' = drop (S (S i)) t) as Hdrop'.
    { unfold d'. rewrite exchange_drop by lia. done. }
    destruct (IH (S k) d') as [random' Hr].
    + unfold d'. by rewrite exchange_length.
    + unfold d'. rewrite exchange_length. lia.
    + assert (take (S (S i)) d' ≡ₚ take (S (S i)) t) as HP.
      { rewrite <- Htake. apply (Permutation_app_inv_r (drop (S (S i)) d)).
        rewrite take_drop.
        assert (drop (S (S i)) d = drop (S (S i)) d') as ->
          by (unfold d'; by rewrite exchange_drop by lia).
        rewrite take_drop. apply exchange_Permutation. }
      rewrite (take_S_r d' (S i) x), (take_S_r t (S i) x) in HP by done.
      by apply Permutation_app_inv_r in HP.
    + rewrite (drop_S d' x (S i)), (drop_S t x (S i)) by done. by rewrite Hdrop'.
    + exists (fun m => if decide (m = k) then j else random' m).
      cbn [fisherYates]. rewrite decide_True by done.
      rewrite Nat.mod_small by lia. fold d'. rewrite <- Hr.
      apply fisherYates_ext. intros m Hm. by rewrite decide_False by lia.
Qed.

(** X27 (shuffleDeck): every arrangement of the deck is the outcome of
    the shuffle for some values of [Math.random]: the loop can put the
    cards into any order. *)
Theorem shuffleDeck_reaches_every_order g t :
  t ≡ₚ deck g -> exists random, deck (shuffleDeck random g) = t.
Proof.
  intros HP. unfold shuffleDeck. simpl.
  destruct (deck g) as [|a d] eqn:Hd.
  - apply Permutation_nil_r in HP as ->. by exists (fun _ => 0).
  - pose proof (Permutation_length HP) as Hlen. rewrite <- Hd in *.
    assert (0 < length (deck g)) as Hpos by (rewrite Hd; simpl; lia).
    apply fisherYates_reaches; [done|lia| |].
    + replace (S (length (deck g) - 1)) with (length (deck g)) by lia.
      rewrite take_ge by lia. rewrite take_ge by lia. by symmetry.
    + replace (S (length (deck g) - 1)) with (length (deck g)) by lia.
      rewrite !drop_ge by lia. done.
Qed.

Lemma shuffleDeck_reaches_every_order_witness :
  exists random, deck (shuffleDeck random gameA) = reverse (deck gameA).
Proof.
  apply (shuffleDeck_reaches_every_order gameA (reverse (deck gameA))).
  apply reverse_Permutation.
Defined.

(** ** When [knock] returns, and the order of the final turns *)

Lemma advanceTurn_no_TypeError fuel g i :
  currentPlayerIndex g = Num i -> players g <> [] ->
  advanceTurn fuel true g <> TypeError.
Proof.
  revert g i. induction fuel as [|fuel IH]; intros g i Hi Hne;
    rewrite advanceTurn_unfold; cbn zeta;
    assert (length (players g) <> 0) as Hl by (by destruct (players g));
    destruct (lookup_lt_is_Some_2 (players g) ((i + 1) mod length (players g)))
      as [p Hp]; try (apply Nat.mod_upper_bound; lia);
    assert (nextIndex g = Num ((i + 1) mod length (players g))) as Hn
      by (unfold nextIndex; rewrite Hi; by destruct (length (players g)));
    unfold getCurrentPlayer; simpl; rewrite Hn, Hp;
    destruct (isKnocker g p); try done.
  by apply (IH _ ((i + 1) mod length (players g))).
Qed.

Lemma advanceTurn_NoReturn_all g i :
  advanceTurn (length (players g)) true g = NoReturn ->
  currentPlayerIndex g = Num i ->
  Forall (fun p => isKnocker g p = true) (players g).
Proof.
  intros H Hi. apply Forall_lookup. intros j p Hj.
  pose proof (lookup_lt_Some _ _ _ Hj) as Hlt.
  set (l := length (players g)) in *.
  set (a := (i + 1) mod l).
  assert (a < l) as Ha by (apply Nat.mod_upper_bound; lia).
  destruct (advanceTurn_visits _ _ _ H Hi ((j + l - a) mod l)) as (q & Hq & Hkq).
  { pose proof (Nat.mod_upper_bound (j + l - a) l). lia. }
  fold l in Hq.
  replace ((i + 1 + (j + l - a) mod l) mod l) with j in Hq; [congruence|].
  rewrite Nat.Div0.add_mod_idemp_r.
  rewrite <- Nat.Div0.add_mod_idemp_l. fold a.
  replace (a + (j + l - a)) with (j + 1 * l) by lia.
  rewrite Nat.Div0.mod_add. symmetry. by apply Nat.mod_small.
Qed.

(** X28 (knock): when nobody has knocked yet and some player of the game
    has an id other than the current player's, [knock] returns with
    success: its loop finds a player who is not the knocker within one
    round of the table. *)
Theorem knock_returns g p q :
  truthyId (knockerId g) = false ->
  getCurrentPlayer g = Some p ->
  q ∈ players g -> id q <> id p ->
  exists g', knock g = Returns (Success Plain, g').
Proof.
  intros Hk Hcur Hq Hne. unfold knock. rewrite Hk, Hcur. fold (knocked p g).
  destruct (getCurrentPlayer_Some _ _ Hcur) as (i & Hi & Hp).
  destruct (advanceTurn (length (players (knocked p g))) true (knocked p g))
    as [g2| |] eqn:Hadv.
  - by exists g2.
  - exfalso. apply (advanceTurn_no_TypeError _ (knocked p g) i) in Hadv; [done..|].
    simpl. intros Hnil. by rewrite Hnil in Hp.
  - exfalso. apply (advanceTurn_NoReturn_all _ i) in Hadv; [|done].
    simpl in Hadv. rewrite Forall_forall in Hadv. specialize (Hadv q Hq).
    unfold isKnocker in Hadv. simpl in Hadv. by apply String.eqb_eq in Hadv.
Qed.

Lemma knock_returns_witness :
  exists g', knock gameA1 = Returns (Success Plain, g').
Proof.
  assert (exists p, getCurrentPlayer gameA1 = Some p /\ id p = "a"%string)
    as (p & Hp & Hid) by (vm_compute; eexists; split; reflexivity).
  assert (exists q, players gameA1 !! 1 = Some q /\ id q = "k"%string)
    as (q & Hq & Hidq) by (vm_compute; eexists; split; reflexivity).
  apply (knock_returns gameA1 p q).
  - vm_compute; reflexivity.
  - exact Hp.
  - by eapply list_elem_of_lookup_2.
  - rewrite Hid, Hidq. discriminate.
Defined.

Lemma mod_next_seat kn c n :
  kn < n -> c + 2 < n -> (kn + 1 + S c) mod n <> kn.
Proof.
  intros Hkn Hc. destruct (decide (kn + 1 + S c < n)) as [Hlt|Hge].
  - rewrite Nat.mod_small by done. lia.
  - replace (kn + 1 + S c) with ((kn + 1 + S c - n) + 1 * n) by lia.
    rewrite Nat.Div0.mod_add, Nat.mod_small by lia. lia.
Qed.

(** X29 (endTurn): with players of pairwise different ids, the final
    turns go round the table in seat order: when the knocker sits at
    [kn], [c] final turns are counted and the turn is [c + 1] seats after
    the knocker, a turn end that is not the last counts one more and
    hands the turn to the next seat, which is never the knocker's, so the
    loop skips nobody. *)
Theorem final_turns_in_seat_order random g kn k c :
  NoDup (map id (players g)) ->
  finalRoundActive g = true ->
  players g !! kn = Some k -> knockerId g = Some (id k) ->
  playersCompletedFinalTurn g = c ->
  currentPlayerIndex g = Num ((kn + 1 + c) mod length (players g)) ->
  c + 2 < length (players g) ->
  endTurn random g =
  Returns (set_currentPlayerIndex (Num ((kn + 1 + S c) mod length (players g)))
             (set_playersCompletedFinalTurn (S c)
                (set_drawnFromDiscard false (set_drawnCard None g)))).
Proof.
  intros Hnd Hf Hk Hkid Hc Hi Hlen. unfold endTurn. simpl. rewrite Hf, Hc.
  destruct (Z.leb_spec (Z.of_nat (length (players g)) - 1) (Z.of_nat (S c)));
    [lia|].
  pose proof (lookup_lt_Some _ _ _ Hk) as Hkn.
  set (n := length (players g)) in *.
  set (j := (kn + 1 + S c) mod n).
  assert (j < n) as Hj by (apply Nat.mod_upper_bound; lia).
  destruct (lookup_lt_is_Some_2 (players g) j Hj) as [q Hq].
  assert (id q <> id k) as Hne.
  { intros Heq. apply (mod_next_seat kn c n); [done..|]. fold j.
    eapply (NoDup_lookup _ _ _ _ Hnd); rewrite list_lookup_fmap.
    - by rewrite Hq.
    - rewrite Hk. simpl. by rewrite Heq. }
  rewrite advanceTurn_unfold. cbn zeta.
  assert (nextIndex (set_playersCompletedFinalTurn (S c)
            (set_drawnFromDiscard false (set_drawnCard None g))) = Num j) as Hn.
  { change (nextIndex g = Num j). unfold nextIndex. rewrite Hi. fold n.
    destruct n as [|m] eqn:Hm; [lia|]. f_equal. unfold j.
    rewrite Nat.Div0.add_mod_idemp_l. f_equal. lia. }
  rewrite Hn. unfold getCurrentPlayer. simpl. rewrite Hq.
  unfold isKnocker. simpl. rewrite Hkid.
  by destruct (String.eqb_spec (id q) (id k)).
Qed.

Lemma final_turns_in_seat_order_witness :
  endTurn scripted gameKnocked =
  Returns (set_currentPlayerIndex (Num ((1 + 1 + 1) mod length (players gameKnocked)))
             (set_playersCompletedFinalTurn 1
                (set_drawnFromDiscard false (set_drawnCard None gameKnocked)))).
Proof.
  assert (NoDup (map id (players gameKnocked))) as Hnd.
  { vm_compute.
    repeat (apply NoDup_cons_2;
            [rewrite ?not_elem_of_cons; repeat split;
               (apply not_elem_of_nil || discriminate)|]).
    apply NoDup_nil_2. }
  assert (exists k, players gameKnocked !! 1 = Some k /\ id k = "k"%string)
    as (k & Hk & Hid) by (vm_compute; eexists; split; reflexivity).
  apply (final_turns_in_seat_order scripted gameKnocked 1 k 0).
  - exact Hnd.
  - vm_compute; reflexivity.
  - exact Hk.
  - rewrite Hid. vm_compute; reflexivity.
  - vm_compute; reflexivity.
  - vm_compute; reflexivity.
  - vm_compute. lia.
Defined.

(** ** Drawing from the deck *)

(** X30 (drawFromDeck): with no card pending, on piles that hold no
    [null] entry, the call always returns: it fails with 'Deck is empty'
    and changes nothing exactly when the deck is empty and the discard
    pile has nothing under its top card; otherwise it succeeds, and the
    card it reports is taken out of the piles and is pending, marked as
    not coming from the discard pile; no hand changes. *)
Theorem drawFromDeck_spec random g :
  drawnCard g = None -> nullFree g ->
  (exhausted g -> drawFromDeck random g = Returns (Failure "Deck is empty", g)) /\
  (~ exhausted g ->
   exists c g1,
     drawFromDeck random g = Returns (Success (Drew c false), g1) /\
     drawnCard g1 = Some c /\ drawnFromDiscard g1 = false /\
     players g1 = players g /\
     {[+ c +]} ⊎ bag (deck g1) ⊎ bag (discardPile g1)
     = bag (deck g) ⊎ bag (discardPile g)).
Proof.
  intros Hd Hnf. unfold drawFromDeck, fail. rewrite Hd.
  rewrite bool_decide_eq_false_2 by (by intros []). split.
  - intros He. by rewrite (exhausted_drawCard _ _ He).
  - intros Hne. destruct (drawCard random g) as [[c|] g1] eqn:Hdraw.
    + pose proof (drawCard_frame _ _ _ _ Hdraw) as Hf. frame_fields Hf.
      pose proof (drawCard_bag _ _ _ _ Hdraw) as Hb.
      exists c, (set_drawnFromDiscard false (set_drawnCard (Some c) g1)).
      simpl in *. split_and!; try done. clear -Hb. multiset_solver.
    + by apply drawCard_None in Hdraw as [He _].
Qed.

Lemma drawFromDeck_spec_witness :
  exists c g1,
    drawFromDeck scripted gameA = Returns (Success (Drew c false), g1) /\
    drawnCard g1 = Some c.
Proof.
  destruct (drawFromDeck_spec scripted gameA) as [_ H].
  - vm_compute; reflexivity.
  - unfold nullFree. vm_compute. repeat (constructor; [eexists; reflexivity|]). constructor.
  - destruct H as (c & g1 & H1 & H2 & _).
    + intros [Hdk _]. revert Hdk. vm_compute. discriminate.
    + exists c, g1. exact (conj H1 H2).
Defined.
